(** * light-id-check: geometry, detectors and capture timing of [LightIdCheck]

    A shallow embedding of the component [LightIdCheck] and of its module-level
    helpers ([faceSilhouettePath2D], [roundedRectPath2D],
    [cardOverlayRectCanvas], [canvasRectToVideoRect], [edgeScore],
    [estimateCardHeuristic], [estimateCardOpenCV]).

    Numbers.  The source computes with JavaScript numbers, which are
    binary64 doubles.  They are modelled here as exact rationals ([Q]); [==]
    is the equality of rationals.  Where JavaScript would produce NaN (a
    read past the end of a typed array) the model says so explicitly with
    [option].  Division by zero does not occur on the inputs the theorems
    consider: every theorem that divides by [scale] assumes, or computes, a
    positive scale.  An exact value and the double the code computes differ
    by rounding.  That can change what the code does in two places, where a
    number is turned into something discrete: [Math.floor] in [draw], when
    its argument is a whole number in exact arithmetic (see [draw_mapping]),
    and the comparison of the edge score with its threshold (see
    [estimateCardHeuristic]).  For the edge score the computation in
    binary64 is modelled as well, bit for bit, in [F64]; a theorem about the
    detector's answer at the threshold speaks of [F64].

    Outside world.  The face detector, the vision engine, the canvas and the
    camera are not part of the source.  What they answer is an input of the
    model: an [Engine] for one call of the contour detector, a [TickOracle]
    for one detection tick, a [FrameEnv] for one animation frame.

    The component.  A [State] holds the [useState] and [useRef] cells of the
    component, the functions that [useCallback] has memoised, and the part
    of the browser the component acts on (clock, pending timeouts, the calls
    of [onCapture], the objects of the vision engine).  A state change
    renders the component at once, and each callback (a detection tick, a
    timeout, a click) runs to completion before the next one: the [await]s
    inside [detectionTick] are not interleaved with other callbacks. *)

From Stdlib Require Import Floats.PrimFloat.
From Stdlib Require Import ZArith QArith Qround Qminmax Qabs Lqa Lia List Bool.
From Stdlib Require Import Strings.Byte.
From stdpp Require Import gmap.
Import ListNotations.
Open Scope Q_scope.

(** A decimal literal of a double stands for the nearest double, as in
    JavaScript. *)
#[local] Set Warnings "-inexact-float".

(** ** JavaScript arithmetic helpers *)

Module JS.

(** [Math.floor] *)
Definition floor (q : Q) : Q := inject_Z (Qfloor q).

(** [Math.round]: the nearest integer, halves rounded up. *)
Definition round (q : Q) : Z := Qfloor (q + 0.5).

(** [a || b] on numbers: [b] when [a] is zero. *)
Definition or_else (a b : Q) : Q := if Qeq_bool a 0 then b else a.

(** [a < b], [a > b] and [a <= b] as tests. *)
Definition ltb (a b : Q) : bool := negb (Qle_bool b a).
Definition gtb (a b : Q) : bool := ltb b a.
Definition leb (a b : Q) : bool := Qle_bool a b.

End JS.

(** ** Data model *)

Inductive OverlayMode := face | card.

Definition OverlayMode_eqb (a b : OverlayMode) : bool :=
  match a, b with
  | face, face | card, card => true
  | _, _ => false
  end.

(** [interface Box] *)
Record Box := mkBox { box_x : Q; box_y : Q; box_width : Q; box_height : Q }.

(** The object [{ x, y, w, h }] returned by [cardOverlayRectCanvas] and taken
    and returned by [canvasRectToVideoRect]. *)
Record Rect := mkRect { rc_x : Q; rc_y : Q; rc_w : Q; rc_h : Q }.

(** [interface Mapping].  [canvasRectToVideoRect] receives an object with the
    six fields [vw vh scale dx dy mirrored] copied from the mapping. *)
Record Mapping := mkMapping {
  cW : Q; cH : Q; vw : Q; vh : Q; scale : Q; dx : Q; dy : Q; mirrored : bool
}.

Definition Rect_eq (a b : Rect) : Prop :=
  rc_x a == rc_x b /\ rc_y a == rc_y b /\ rc_w a == rc_w b /\ rc_h a == rc_h b.

(** ** Path helpers *)

Inductive PathCmd :=
| moveTo (x y : Q)
| lineTo (x y : Q)
| quadraticCurveTo (cpx cpy x y : Q)
| bezierCurveTo (cp1x cp1y cp2x cp2y x y : Q)
| closePath.

Definition Path2D := list PathCmd.

(** Two path commands are the same when they are the same kind of command
    with equal coordinates. *)
Definition PathCmd_eq (a b : PathCmd) : Prop :=
  match a, b with
  | moveTo x y, moveTo x' y' => x == x' /\ y == y'
  | lineTo x y, lineTo x' y' => x == x' /\ y == y'
  | quadraticCurveTo a1 a2 a3 a4, quadraticCurveTo b1 b2 b3 b4 =>
      a1 == b1 /\ a2 == b2 /\ a3 == b3 /\ a4 == b4
  | bezierCurveTo a1 a2 a3 a4 a5 a6, bezierCurveTo b1 b2 b3 b4 b5 b6 =>
      a1 == b1 /\ a2 == b2 /\ a3 == b3 /\ a4 == b4 /\ a5 == b5 /\ a6 == b6
  | closePath, closePath => True
  | _, _ => False
  end.

Definition Path2D_eq : Path2D -> Path2D -> Prop := Forall2 PathCmd_eq.

Definition faceSilhouettePath2D (cx cy w h : Q) : Path2D :=
  let rx := w / 2 in
  let ry := h / 1.8 in
  let topY := cy - ry in
  let chinY := cy + ry * 0.86 in
  let browY := cy - ry * 0.35 in
  let cheekY := cy + ry * 0 in
  let jawY := cy + ry * 0.55 in
  let craniumX := rx * 1.05 in
  let templeX := rx * 0.95 in
  let cheekX := rx * 0.9 in
  let jawX := rx * 0.69 in
  [ moveTo cx topY;
    bezierCurveTo (cx + craniumX) topY (cx + templeX) browY (cx + templeX) browY;
    bezierCurveTo (cx + templeX) (browY + ry * 0.1) (cx + cheekX) cheekY (cx + cheekX) cheekY;
    bezierCurveTo (cx + cheekX * 0.95) (cheekY + ry * 0.2) (cx + jawX) jawY (cx + jawX) jawY;
    bezierCurveTo (cx + jawX * 0.85) (jawY + ry * 0.2) (cx + (w * 0.2) / 2) chinY cx chinY;
    bezierCurveTo (cx - (w * 0.2) / 2) chinY (cx - jawX * 0.85) (jawY + ry * 0.2) (cx - jawX) jawY;
    bezierCurveTo (cx - jawX) jawY (cx - cheekX * 0.95) (cheekY + ry * 0.2) (cx - cheekX) cheekY;
    bezierCurveTo (cx - cheekX) cheekY (cx - templeX) (browY + ry * 0.1) (cx - templeX) browY;
    bezierCurveTo (cx - templeX) browY (cx - craniumX) topY cx topY;
    closePath ].

Definition roundedRectPath2D (x y w h r : Q) : Path2D :=
  [ moveTo (x + r) y;
    lineTo (x + w - r) y;
    quadraticCurveTo (x + w) y (x + w) (y + r);
    lineTo (x + w) (y + h - r);
    quadraticCurveTo (x + w) (y + h) (x + w - r) (y + h);
    lineTo (x + r) (y + h);
    quadraticCurveTo x (y + h) x (y + h - r);
    lineTo x (y + r);
    quadraticCurveTo x y (x + r) y;
    closePath ].

Definition cardOverlayRectCanvas (cW cH : Q) : Rect :=
  let w := cW * 0.9 in
  let h := w / 1.586 in
  let x := (cW - w) / 2 in
  let y := cH * 0.55 - h / 2 in
  {| rc_x := x; rc_y := y; rc_w := w; rc_h := h |}.

(** ** Geometry mapper *)

Definition canvasRectToVideoRect (rc : Rect) (m : Mapping) : Rect :=
  let wv := rc_w rc / scale m in
  let hv := rc_h rc / scale m in
  let xv := if mirrored m
            then vw m - (rc_x rc - dx m) / scale m - wv
            else (rc_x rc - dx m) / scale m in
  let yv := (rc_y rc - dy m) / scale m in
  {| rc_x := Qmax 0 xv; rc_y := Qmax 0 yv;
     rc_w := Qmin wv (vw m); rc_h := Qmin hv (vh m) |}.

(** The cover-fit mapping that [draw] computes and publishes in [mappingRef]
    on every frame, from the canvas size [cW] x [cH] and the
    [videoWidth] x [videoHeight] of the video element.

    In exact arithmetic the scaled video is exactly as large as the canvas
    in one direction, and the offset in that direction is [floor 0 = 0].
    The code computes [scale] and [dw], [dh] in doubles: when the rounded
    product comes out just above the canvas size (562 x 1000 canvas,
    1080 x 1920 video: [dh = 1000.0000000000001]) its [Math.floor] gives -1
    where this definition gives 0 ([draw_mapping_rounding]).  No theorem
    below says that such an offset is 0. *)
Definition draw_mapping (cW cH videoWidth videoHeight : Q) (mirrored : bool)
  : Mapping :=
  let vw := JS.or_else videoWidth 1440 in
  let vh := JS.or_else videoHeight 2560 in
  let scale := Qmax (cW / vw) (cH / vh) in
  let dw := vw * scale in
  let dh := vh * scale in
  let dx := JS.floor ((cW - dw) / 2) in
  let dy := JS.floor ((cH - dh) / 2) in
  {| cW := cW; cH := cH; vw := vw; vh := vh;
     scale := scale; dx := dx; dy := dy; mirrored := mirrored |}.

(** The forward transform of the cover fit, as [draw] applies it to the video
    frame: [ctx.drawImage(video, dx, dy, dw, dh)] puts the source point [x]
    at [dx + x * scale]; under [ctx.scale(-1, 1)] with
    [ctx.drawImage(video, -dx - dw, dy, dw, dh)] the source point [x] lands at
    [dx + dw - x * scale], so that a source rectangle's left side is at
    [dx + (vw - (x + w)) * scale], the expression [detectionTick] uses for
    the face box. *)
Definition videoRectToCanvasRect (r : Rect) (m : Mapping) : Rect :=
  {| rc_x := if mirrored m
             then dx m + (vw m - (rc_x r + rc_w r)) * scale m
             else dx m + rc_x r * scale m;
     rc_y := dy m + rc_y r * scale m;
     rc_w := rc_w r * scale m;
     rc_h := rc_h r * scale m |}.

(** A rectangle lies inside a raster of the given size. *)
Definition Rect_inside (r : Rect) (width height : Q) : Prop :=
  0 <= rc_x r /\ 0 <= rc_y r /\ 0 <= rc_w r /\ 0 <= rc_h r /\
  rc_x r + rc_w r <= width /\ rc_y r + rc_h r <= height.

(** ** Guide paths of the render loop and of the detection tick *)

(** The arguments [draw] passes to [faceSilhouettePath2D]. *)
Definition draw_faceGuideArgs (cW cH : Q) : Q * Q * Q * Q :=
  let cx := cW / 2 in
  let cy := cH * 0.5 in
  let w := Qmin cW cH * 0.7 in
  let h := w * 1.25 in
  (cx, cy, w, h).

(** The arguments [detectionTick] passes to [faceSilhouettePath2D]. *)
Definition detectionTick_faceGuideArgs (cW cH : Q) : Q * Q * Q * Q :=
  (cW / 2, cH * 0.5, Qmin cW cH * 0.7, Qmin cW cH * 0.5 * 1.25).

Definition facePath (args : Q * Q * Q * Q) : Path2D :=
  let '(cx, cy, w, h) := args in faceSilhouettePath2D cx cy w h.

(** [guidePath] of [draw]. *)
Definition draw_guidePath (current : OverlayMode) (cW cH : Q) : Path2D :=
  match current with
  | face => facePath (draw_faceGuideArgs cW cH)
  | card =>
      let rc := cardOverlayRectCanvas cW cH in
      roundedRectPath2D (rc_x rc) (rc_y rc) (rc_w rc) (rc_h rc)
                        (Qmin (rc_w rc) (rc_h rc) * 0.06)
  end.

(** The path [p] that [detectionTick] hit-tests. *)
Definition detectionTick_facePath (cW cH : Q) : Path2D :=
  facePath (detectionTick_faceGuideArgs cW cH).

(** ** Outcomes of calls that may throw *)

(** A call completes with a value or throws; an [await] on a rejected promise
    throws as well. *)
Inductive Result (A : Type) : Type :=
| Ok (a : A)
| Throw.
Arguments Ok {A} a.
Arguments Throw {A}.

(** ** Heuristic card detector *)

(** The [Uint8ClampedArray] of an [ImageData]: a list of bytes.  [data[i]] is
    [undefined] outside the array, and arithmetic on it gives NaN, which is
    [None] here. *)
Definition byteQ (b : Byte.byte) : Q := inject_Z (Z.of_N (Byte.to_N b)).

Definition data_get (data : list Byte.byte) (i : Z) : option Q :=
  if (i <? 0)%Z then None else byteQ <$> data !! Z.to_nat i.

(** [lum] of [edgeScore]. *)
Definition lum (data : list Byte.byte) (i : Z) : option Q :=
  match data_get data i, data_get data (i + 1), data_get data (i + 2) with
  | Some r, Some g, Some b => Some (0.299 * r + 0.587 * g + 0.114 * b)
  | _, _, _ => None
  end.

(** [idx] of [edgeScore]. *)
Definition idx (w x y : Z) : Z := ((y * w + x) * 4)%Z.

(** [clamp] of [edgeScore]. *)
Definition clamp (v min max : Z) : Z := Z.max min (Z.min max v).

(** [Math.abs(lum(i) - lum(j)) / 255] *)
Definition contrast (data : list Byte.byte) (i j : Z) : option Q :=
  match lum data i, lum data j with
  | Some a, Some b => Some (Qabs (a - b) / 255)
  | _, _ => None
  end.

(** [acc += d; n++] on the pair [(acc, n)]; a NaN term makes [acc] NaN. *)
Definition add_sample (st : option Q * Z) (d : option Q) : option Q * Z :=
  (match fst st, d with
   | Some acc, Some v => Some (acc + v)
   | _, _ => None
   end,
   (snd st + 1)%Z).

(** [for (let s = 0; s < samples; s++) body] *)
Definition for_loop {S : Type} (samples : nat) (body : Z -> S -> S) (st : S) : S :=
  fold_left (fun st s => body (Z.of_nat s) st) (seq 0 samples) st.

(** [2 + Math.floor((extent * s) / samples)] on integers. *)
Definition sample_pos (extent s samples : Z) : Z :=
  (2 + Qfloor (inject_Z (extent * s) / inject_Z samples))%Z.

Definition edgeScore (data : list Byte.byte) (w h : Z) : option Q :=
  let samples := 200%nat in
  let st := (Some 0, 0%Z) in
  let st :=
    for_loop samples (fun s st =>
      let x := sample_pos (w - 4) s (Z.of_nat samples) in
      let y1 := 2%Z in
      let y2 := Z.min 5 (h - 1) in
      let st := add_sample st (contrast data (idx w x y1) (idx w x y2)) in
      let yb1 := (h - 3)%Z in
      let yb2 := clamp (h - 6) 0 (h - 1) in
      add_sample st (contrast data (idx w x yb1) (idx w x yb2))) st in
  let st :=
    for_loop samples (fun s st =>
      let y := sample_pos (h - 4) s (Z.of_nat samples) in
      let x1 := 2%Z in
      let x2 := Z.min 5 (w - 1) in
      let st := add_sample st (contrast data (idx w x1 y) (idx w x2 y)) in
      let xr1 := (w - 3)%Z in
      let xr2 := clamp (w - 6) 0 (w - 1) in
      add_sample st (contrast data (idx w xr1 y) (idx w xr2 y))) st in
  match fst st with
  | Some acc => Some (acc / inject_Z (snd st))
  | None => None
  end.

(** [Math.max(1, Math.round(outW / 1.586))] *)
Definition workingHeight (outW : Z) : Z :=
  Z.max 1 (JS.round (inject_Z outW / 1.586)).

Definition heuristic_outW : Z := 320.
Definition heuristic_outH : Z := workingHeight heuristic_outW.

(** [estimateCardHeuristic].  [ctx] tells whether
    [off.getContext('2d')] returned a context; [grab] is the outcome of
    [ctx.drawImage] followed by [ctx.getImageData]: the bytes [img.data], or
    an exception.

    The score compared with 0.18 here is the exact mean.  The code compares
    the double it has accumulated, which is [F64.estimateCardHeuristic]; the
    two answers can differ where the exact mean is within the rounding error
    of 0.18 ([edgeScore_at_threshold] is such a buffer). *)
Definition estimateCardHeuristic (ctx : bool) (grab : Result (list Byte.byte))
  : Result bool :=
  if negb ctx then Ok false
  else match grab with
       | Throw => Throw
       | Ok data =>
           match edgeScore data heuristic_outW heuristic_outH with
           | Some score => Ok (JS.gtb score 0.18)
           | None => Ok false
           end
       end.

(** The index pairs [edgeScore] compares, in the order of its two loops:
    for each sample a pair of rows near the top and near the bottom edge,
    then a pair of columns near the left and near the right edge. *)
Definition topBottomPairs (w h s : Z) : list (Z * Z) :=
  let x := sample_pos (w - 4) s 200 in
  [ (idx w x 2, idx w x (Z.min 5 (h - 1)));
    (idx w x (h - 3), idx w x (clamp (h - 6) 0 (h - 1))) ].

Definition leftRightPairs (w h s : Z) : list (Z * Z) :=
  let y := sample_pos (h - 4) s 200 in
  [ (idx w 2 y, idx w (Z.min 5 (w - 1)) y);
    (idx w (w - 3) y, idx w (clamp (w - 6) 0 (w - 1)) y) ].

Definition samplePairs (w h : Z) : list (Z * Z) :=
  flat_map (fun s => topBottomPairs w h (Z.of_nat s)) (seq 0 200) ++
  flat_map (fun s => leftRightPairs w h (Z.of_nat s)) (seq 0 200).

(** Sum of a list of numbers, accumulated from the left as the loops do. *)
Definition Qsum (l : list Q) : Q := fold_left Qplus l 0.

(** An index is inside a buffer of [len] bytes together with the two bytes
    after it. *)
Definition rgb_in_range (len : Z) (i : Z) : bool :=
  ((0 <=? i) && (i + 2 <? len))%Z.

(** ** Contour card detector *)

(** A contour returned by [cv.findContours], as the detector sees it:
    [cv.contourArea(cnt)] and the size of [cv.minAreaRect(cnt)]. *)
Record Contour := mkContour {
  contour_area : Q;
  rr_width : Q;
  rr_height : Q
}.

(** The calls of [estimateCardOpenCV] that may throw.  The four [new cv.Mat()]
    are told apart by the variable they initialise; the calls inside the loop
    carry the loop index. *)
Inductive CvCall :=
| drawImage
| imread
| new_gray | new_blur | new_edges
| getStructuringElement
| cvtColor | equalizeHist | GaussianBlur
| Canny | dilate
| new_contours | new_hierarchy
| findContours
| contours_get (i : nat)
| contourArea (i : nat)
| minAreaRect (i : nat).

(** The vision engine during one call of [estimateCardOpenCV]: whether
    [window.cv] is there, which calls throw, the pixels of the blurred image,
    and the contours found for given Canny thresholds. *)
Record Engine := mkEngine {
  cv_present : bool;
  throws : CvCall -> bool;
  blur_data : list Byte.byte;
  contours_found : Q -> Q -> list Contour
}.

(** The objects of the vision engine that have been created and not yet
    released with [delete()].  [next] numbers the objects created so far. *)
Record Heap := mkHeap {
  next : nat;
  live : gset nat
}.

Definition empty_heap : Heap := {| next := 0; live := ∅ |}.

(** Computations on the heap that may throw; the heap survives a throw. *)
Definition CV (A : Type) : Type := Heap -> Heap * Result A.

Definition ret {A} (a : A) : CV A := fun h => (h, Ok a).

Definition bind {A B} (m : CV A) (k : A -> CV B) : CV B :=
  fun h =>
    match m h with
    | (h', Ok a) => k a h'
    | (h', Throw) => (h', Throw)
    end.

Notation "'let!' x ':=' m 'in' k" := (bind m (fun x => k))
  (at level 10, x name, m at level 200, k at level 200, only parsing).
Notation "'do!' m 'in' k" := (bind m (fun _ => k))
  (at level 10, m at level 200, k at level 200, only parsing).

(** A call of the engine, which throws when the engine says so. *)
Definition call (eng : Engine) (c : CvCall) : CV unit :=
  fun h => if throws eng c then (h, Throw) else (h, Ok tt).

(** A call that creates an object of the engine. *)
Definition create (eng : Engine) (c : CvCall) : CV nat :=
  do! call eng c in
  fun h => ({| next := S (next h); live := {[next h]} ∪ live h |}, Ok (next h)).

(** [obj.delete()] *)
Definition delete (obj : nat) : CV unit :=
  fun h => ({| next := next h; live := live h ∖ {[obj]} |}, Ok tt).

(** The thresholds of the automatic Canny step, from the mean of the blurred
    pixels.  (On an empty buffer JavaScript computes NaN; the buffer of the
    working raster is never empty.) *)
Definition autoCanny (data : list Byte.byte) : Q * Q :=
  let sum := fold_left (fun sum v => sum + byteQ v) data 0 in
  let mean := sum / inject_Z (Z.of_nat (length data)) in
  let lower := Qmax 10 (mean * 0.66) in
  let upper := Qmin 255 (mean * 1.33) in
  (lower, upper).

(** The body of the loop over the contours, for the contours from index [i]
    on.  The result is the final value of [ok]. *)
Fixpoint contour_loop (eng : Engine) (areaROI : Q) (cs : list Contour) (i : nat)
  : CV bool :=
  match cs with
  | [] => ret false
  | c :: rest =>
      let! cnt := create eng (contours_get i) in
      do! call eng (contourArea i) in
      let area := contour_area c in
      if JS.ltb area (areaROI * 0.05) then
        do! delete cnt in contour_loop eng areaROI rest (S i)
      else
        do! call eng (minAreaRect i) in
        let rectArea := rr_width c * rr_height c in
        if JS.leb rectArea 0 then
          do! delete cnt in contour_loop eng areaROI rest (S i)
        else
          let major := Qmax (rr_width c) (rr_height c) in
          let minor := Qmax 1 (Qmin (rr_width c) (rr_height c)) in
          let ar := major / minor in
          let rectangularity := area / rectArea in
          if JS.gtb rectArea (areaROI * 0.12) && JS.ltb rectArea (areaROI * 0.98)
             && JS.gtb ar 1.35 && JS.ltb ar 1.9 && JS.gtb rectangularity 0.6
          then do! delete cnt in ret true
          else do! delete cnt in contour_loop eng areaROI rest (S i)
  end.

Definition opencv_outW : Z := 540.
Definition opencv_outH : Z := workingHeight opencv_outW.

(** [areaROI] of [estimateCardOpenCV]. *)
Definition opencv_areaROI : Q := inject_Z (opencv_outW * opencv_outH).

(** [estimateCardOpenCV].  [ctx] tells whether [off.getContext('2d')]
    returned a context. *)
Definition estimateCardOpenCV (eng : Engine) (ctx : bool) : CV bool :=
  if negb (cv_present eng) then ret false
  else if negb ctx then ret false
  else
    do! call eng drawImage in
    let! src := create eng imread in
    let! gray := create eng new_gray in
    let! blur := create eng new_blur in
    let! edges := create eng new_edges in
    let! kernel := create eng getStructuringElement in
    do! call eng cvtColor in
    do! call eng equalizeHist in
    do! call eng GaussianBlur in
    let '(lower, upper) := autoCanny (blur_data eng) in
    do! call eng Canny in
    do! call eng dilate in
    let! contours := create eng new_contours in
    let! hierarchy := create eng new_hierarchy in
    do! call eng findContours in
    let areaROI := opencv_areaROI in
    let! ok := contour_loop eng areaROI (contours_found eng lower upper) 0 in
    do! delete src in
    do! delete gray in
    do! delete blur in
    do! delete edges in
    do! delete contours in
    do! delete hierarchy in
    do! delete kernel in
    ret ok.

(** The acceptance test in the words of the specification: a contour of at
    least 5% of the ROI area whose minimum-area rectangle has an area
    strictly between 12% and 98% of the ROI area, an aspect ratio
    [max(w,h) / max(1, min(w,h))] strictly between 1.35 and 1.9, and a
    rectangularity (contour area over rectangle area) above 0.6. *)
Definition card_like (areaROI : Q) (c : Contour) : Prop :=
  let w := rr_width c in
  let h := rr_height c in
  let rectArea := w * h in
  let ar := Qmax w h / Qmax 1 (Qmin w h) in
  areaROI * 0.05 <= contour_area c /\
  areaROI * 0.12 < rectArea /\ rectArea < areaROI * 0.98 /\
  1.35 < ar /\ ar < 1.9 /\
  0.6 < contour_area c / rectArea.

(** Every object in the heap was numbered before [next]. *)
Definition Heap_wf (h : Heap) : Prop := forall obj, obj ∈ live h -> (obj < next h)%nat.

(** The decision of one loop iteration of [estimateCardOpenCV]: the contour
    passes the two [continue] tests and the acceptance test. *)
Definition contour_accepted (areaROI : Q) (c : Contour) : bool :=
  let area := contour_area c in
  let rectArea := rr_width c * rr_height c in
  let major := Qmax (rr_width c) (rr_height c) in
  let minor := Qmax 1 (Qmin (rr_width c) (rr_height c)) in
  let ar := major / minor in
  let rectangularity := area / rectArea in
  negb (JS.ltb area (areaROI * 0.05)) &&
  negb (JS.leb rectArea 0) &&
  (JS.gtb rectArea (areaROI * 0.12) && JS.ltb rectArea (areaROI * 0.98)
   && JS.gtb ar 1.35 && JS.ltb ar 1.9 && JS.gtb rectangularity 0.6).

(** The number of contours the loop fetches with [contours.get]: all of them
    up to and including the first accepted one. *)
Fixpoint contours_fetched (areaROI : Q) (cs : list Contour) : nat :=
  match cs with
  | [] => 0
  | c :: rest =>
      if contour_accepted areaROI c then 1
      else S (contours_fetched areaROI rest)
  end.

(** The contours [estimateCardOpenCV] iterates over. *)
Definition detector_contours (eng : Engine) : list Contour :=
  let '(lower, upper) := autoCanny (blur_data eng) in
  contours_found eng lower upper.

(** ** Example engines *)

(** An engine in which nothing throws and [findContours] reports three
    contours: a speck, a card-shaped contour and a square. *)
Definition engine_with_card : Engine :=
  {| cv_present := true;
     throws := fun _ => false;
     blur_data := [Byte.x80; Byte.x80];
     contours_found := fun _ _ =>
       [ {| contour_area := 1000; rr_width := 40; rr_height := 30 |};
         {| contour_area := 90000; rr_width := 400; rr_height := 250 |};
         {| contour_area := 60000; rr_width := 250; rr_height := 250 |} ] |}.

(** An engine in which [cv.cvtColor] throws. *)
Definition engine_cvtColor_throws : Engine :=
  {| cv_present := true;
     throws := fun c => match c with cvtColor => true | _ => false end;
     blur_data := [];
     contours_found := fun _ _ => [] |}.

(** ** The component [LightIdCheck] *)

(** The props that matter here.  The URLs ([faceModelsUrl], [opencvUrl]) are
    taken to be the same in every render, and [onCapture] is represented by
    the list of the arguments it has been called with.

    A render with another [faceModelsUrl] is outside the model.  In the
    source it makes a new [start] ([faceModelsUrl] is one of its
    dependencies), the effect on [isOpen] runs again because [start] is one
    of its dependencies, and the interval it starts runs the [detectionTick]
    of that render.  What is proved of [run] is proved of the sessions in
    which [faceModelsUrl] does not change. *)
Record Props := mkProps {
  isOpen : bool;
  initialOverlay : OverlayMode;
  autoCapture : bool;
  autoCaptureDelayMs : Z
}.

(** The props [p] with the open/closed flag set to [b]. *)
Definition with_isOpen (b : bool) (p : Props) : Props :=
  {| isOpen := b; initialOverlay := initialOverlay p;
     autoCapture := autoCapture p;
     autoCaptureDelayMs := autoCaptureDelayMs p |}.

(** A function made for [detectionTick] by
    [useCallback(async () => {...}, [autoCapture, autoCaptureDelayMs, opencvUrl])]:
    the values that the variables [autoCapture], [autoCaptureDelayMs] and
    [capturePending] of the component body had in the render that made the
    function.  [capturePending] is read by the function but is not one of the
    dependencies, so a change of that state cell does not make a new
    function.  Refs are not part of the closure: [ref.current] is read when
    the function runs. *)
Record TickClosure := mkTickClosure {
  tc_autoCapture : bool;
  tc_autoCaptureDelayMs : Z;
  tc_capturePending : bool
}.

(** The component instance and the part of the browser it acts on.

    - [props]: the props of the latest render; the [video] and [canvas]
      elements are mounted exactly when [isOpen] is true in them.
    - [overlay], [capturePending], [isStreaming]: the [useState] cells.
    - [overlayRef] ... [mappingRef]: the [useRef] cells.  [rafRef] and
      [streamRef] are true when they hold a request id or a stream;
      [detectionTimerRef] holds, with the interval id, the function that was
      given to [setInterval].
    - [memo_detectionTick]: the function [useCallback] currently returns for
      [detectionTick].  [memo_start]: the [detectionTick] that [start] closes
      over; [start] is made by [useCallback] with dependencies
      [ensureFaceModels] and [faceModelsUrl], which never change, so it is
      the function of the first render.
    - [now]: the clock, in milliseconds; [timeouts]: the due times of the
      pending [setTimeout] callbacks, oldest first.
    - [onCapture_calls]: the arguments of the calls of [onCapture] so far:
      [None] for [null], [Some t] for the data URL of the frame at time [t].
    - [cv_heap]: the objects of the vision engine.
    - [canvas2d]: whether [getContext('2d')] gives a context.
    - [starting]: the calls of [start] that still wait for the camera. *)
Record State := mkState {
  props : Props;
  overlay : OverlayMode;
  capturePending : bool;
  isStreaming : bool;
  overlayRef : OverlayMode;
  rafRef : bool;
  detectionTimerRef : option TickClosure;
  streamRef : bool;
  faceModelsLoadedRef : bool;
  lastFaceBoxRef : option Box;
  faceInsideRef : bool;
  cardOkRef : bool;
  mappingRef : option Mapping;
  memo_detectionTick : TickClosure;
  memo_start : TickClosure;
  now : Z;
  timeouts : list Z;
  onCapture_calls : list (option Z);
  cv_heap : Heap;
  canvas2d : bool;
  starting : nat
}.

(** Assignments to one field of the state. *)
Definition set_props (v : Props) (s : State) : State :=
  mkState v (overlay s) (capturePending s) (isStreaming s) (overlayRef s)
    (rafRef s) (detectionTimerRef s) (streamRef s) (faceModelsLoadedRef s)
    (lastFaceBoxRef s) (faceInsideRef s) (cardOkRef s) (mappingRef s)
    (memo_detectionTick s) (memo_start s) (now s) (timeouts s)
    (onCapture_calls s) (cv_heap s) (canvas2d s) (starting s).
Definition set_overlay (v : OverlayMode) (s : State) : State :=
  mkState (props s) v (capturePending s) (isStreaming s) (overlayRef s)
    (rafRef s) (detectionTimerRef s) (streamRef s) (faceModelsLoadedRef s)
    (lastFaceBoxRef s) (faceInsideRef s) (cardOkRef s) (mappingRef s)
    (memo_detectionTick s) (memo_start s) (now s) (timeouts s)
    (onCapture_calls s) (cv_heap s) (canvas2d s) (starting s).
Definition set_capturePending (v : bool) (s : State) : State :=
  mkState (props s) (overlay s) v (isStreaming s) (overlayRef s) (rafRef s)
    (detectionTimerRef s) (streamRef s) (faceModelsLoadedRef s)
    (lastFaceBoxRef s) (faceInsideRef s) (cardOkRef s) (mappingRef s)
    (memo_detectionTick s) (memo_start s) (now s) (timeouts s)
    (onCapture_calls s) (cv_heap s) (canvas2d s) (starting s).
Definition set_isStreaming (v : bool) (s : State) : State :=
  mkState (props s) (overlay s) (capturePending s) v (overlayRef s) (rafRef s)
    (detectionTimerRef s) (streamRef s) (faceModelsLoadedRef s)
    (lastFaceBoxRef s) (faceInsideRef s) (cardOkRef s) (mappingRef s)
    (memo_detectionTick s) (memo_start s) (now s) (timeouts s)
    (onCapture_calls s) (cv_heap s) (canvas2d s) (starting s).
Definition set_overlayRef (v : OverlayMode) (s : State) : State :=
  mkState (props s) (overlay s) (capturePending s) (isStreaming s) v
    (rafRef s) (detectionTimerRef s) (streamRef s) (faceModelsLoadedRef s)
    (lastFaceBoxRef s) (faceInsideRef s) (cardOkRef s) (mappingRef s)
    (memo_detectionTick s) (memo_start s) (now s) (timeouts s)
    (onCapture_calls s) (cv_heap s) (canvas2d s) (starting s).
Definition set_rafRef (v : bool) (s : State) : State :=
  mkState (props s) (overlay s) (capturePending s) (isStreaming s)
    (overlayRef s) v (detectionTimerRef s) (streamRef s)
    (faceModelsLoadedRef s) (lastFaceBoxRef s) (faceInsideRef s) (cardOkRef s)
    (mappingRef s) (memo_detectionTick s) (memo_start s) (now s) (timeouts s)
    (onCapture_calls s) (cv_heap s) (canvas2d s) (starting s).
Definition set_detectionTimerRef (v : option TickClosure) (s : State) : State :=
  mkState (props s) (overlay s) (capturePending s) (isStreaming s)
    (overlayRef s) (rafRef s) v (streamRef s) (faceModelsLoadedRef s)
    (lastFaceBoxRef s) (faceInsideRef s) (cardOkRef s) (mappingRef s)
    (memo_detectionTick s) (memo_start s) (now s) (timeouts s)
    (onCapture_calls s) (cv_heap s) (canvas2d s) (starting s).
Definition set_streamRef (v : bool) (s : State) : State :=
  mkState (props s) (overlay s) (capturePending s) (isStreaming s)
    (overlayRef s) (rafRef s) (detectionTimerRef s) v (faceModelsLoadedRef s)
    (lastFaceBoxRef s) (faceInsideRef s) (cardOkRef s) (mappingRef s)
    (memo_detectionTick s) (memo_start s) (now s) (timeouts s)
    (onCapture_calls s) (cv_heap s) (canvas2d s) (starting s).
Definition set_faceModelsLoadedRef (v : bool) (s : State) : State :=
  mkState (props s) (overlay s) (capturePending s) (isStreaming s)
    (overlayRef s) (rafRef s) (detectionTimerRef s) (streamRef s) v
    (lastFaceBoxRef s) (faceInsideRef s) (cardOkRef s) (mappingRef s)
    (memo_detectionTick s) (memo_start s) (now s) (timeouts s)
    (onCapture_calls s) (cv_heap s) (canvas2d s) (starting s).
Definition set_lastFaceBoxRef (v : option Box) (s : State) : State :=
  mkState (props s) (overlay s) (capturePending s) (isStreaming s)
    (overlayRef s) (rafRef s) (detectionTimerRef s) (streamRef s)
    (faceModelsLoadedRef s) v (faceInsideRef s) (cardOkRef s) (mappingRef s)
    (memo_detectionTick s) (memo_start s) (now s) (timeouts s)
    (onCapture_calls s) (cv_heap s) (canvas2d s) (starting s).
Definition set_faceInsideRef (v : bool) (s : State) : State :=
  mkState (props s) (overlay s) (capturePending s) (isStreaming s)
    (overlayRef s) (rafRef s) (detectionTimerRef s) (streamRef s)
    (faceModelsLoadedRef s) (lastFaceBoxRef s) v (cardOkRef s) (mappingRef s)
    (memo_detectionTick s) (memo_start s) (now s) (timeouts s)
    (onCapture_calls s) (cv_heap s) (canvas2d s) (starting s).
Definition set_cardOkRef (v : bool) (s : State) : State :=
  mkState (props s) (overlay s) (capturePending s) (isStreaming s)
    (overlayRef s) (rafRef s) (detectionTimerRef s) (streamRef s)
    (faceModelsLoadedRef s) (lastFaceBoxRef s) (faceInsideRef s) v
    (mappingRef s) (memo_detectionTick s) (memo_start s) (now s) (timeouts s)
    (onCapture_calls s) (cv_heap s) (canvas2d s) (starting s).
Definition set_mappingRef (v : option Mapping) (s : State) : State :=
  mkState (props s) (overlay s) (capturePending s) (isStreaming s)
    (overlayRef s) (rafRef s) (detectionTimerRef s) (streamRef s)
    (faceModelsLoadedRef s) (lastFaceBoxRef s) (faceInsideRef s) (cardOkRef s)
    v (memo_detectionTick s) (memo_start s) (now s) (timeouts s)
    (onCapture_calls s) (cv_heap s) (canvas2d s) (starting s).
Definition set_memo_detectionTick (v : TickClosure) (s : State) : State :=
  mkState (props s) (overlay s) (capturePending s) (isStreaming s)
    (overlayRef s) (rafRef s) (detectionTimerRef s) (streamRef s)
    (faceModelsLoadedRef s) (lastFaceBoxRef s) (faceInsideRef s) (cardOkRef s)
    (mappingRef s) v (memo_start s) (now s) (timeouts s) (onCapture_calls s)
    (cv_heap s) (canvas2d s) (starting s).
Definition set_now (v : Z) (s : State) : State :=
  mkState (props s) (overlay s) (capturePending s) (isStreaming s)
    (overlayRef s) (rafRef s) (detectionTimerRef s) (streamRef s)
    (faceModelsLoadedRef s) (lastFaceBoxRef s) (faceInsideRef s) (cardOkRef s)
    (mappingRef s) (memo_detectionTick s) (memo_start s) v (timeouts s)
    (onCapture_calls s) (cv_heap s) (canvas2d s) (starting s).
Definition set_timeouts (v : list Z) (s : State) : State :=
  mkState (props s) (overlay s) (capturePending s) (isStreaming s)
    (overlayRef s) (rafRef s) (detectionTimerRef s) (streamRef s)
    (faceModelsLoadedRef s) (lastFaceBoxRef s) (faceInsideRef s) (cardOkRef s)
    (mappingRef s) (memo_detectionTick s) (memo_start s) (now s) v
    (onCapture_calls s) (cv_heap s) (canvas2d s) (starting s).
Definition set_onCapture_calls (v : list (option Z)) (s : State) : State :=
  mkState (props s) (overlay s) (capturePending s) (isStreaming s)
    (overlayRef s) (rafRef s) (detectionTimerRef s) (streamRef s)
    (faceModelsLoadedRef s) (lastFaceBoxRef s) (faceInsideRef s) (cardOkRef s)
    (mappingRef s) (memo_detectionTick s) (memo_start s) (now s) (timeouts s)
    v (cv_heap s) (canvas2d s) (starting s).
Definition set_cv_heap (v : Heap) (s : State) : State :=
  mkState (props s) (overlay s) (capturePending s) (isStreaming s)
    (overlayRef s) (rafRef s) (detectionTimerRef s) (streamRef s)
    (faceModelsLoadedRef s) (lastFaceBoxRef s) (faceInsideRef s) (cardOkRef s)
    (mappingRef s) (memo_detectionTick s) (memo_start s) (now s) (timeouts s)
    (onCapture_calls s) v (canvas2d s) (starting s).
Definition set_starting (v : nat) (s : State) : State :=
  mkState (props s) (overlay s) (capturePending s) (isStreaming s)
    (overlayRef s) (rafRef s) (detectionTimerRef s) (streamRef s)
    (faceModelsLoadedRef s) (lastFaceBoxRef s) (faceInsideRef s) (cardOkRef s)
    (mappingRef s) (memo_detectionTick s) (memo_start s) (now s) (timeouts s)
    (onCapture_calls s) (cv_heap s) (canvas2d s) v.

(** [useCallback] for [detectionTick]: the previous function when the
    dependencies are unchanged, a new one otherwise. *)
Definition useCallback_detectionTick (prev : TickClosure) (p : Props)
  (capturePending : bool) : TickClosure :=
  if Bool.eqb (tc_autoCapture prev) (autoCapture p)
     && (tc_autoCaptureDelayMs prev =? autoCaptureDelayMs p)%Z
  then prev
  else {| tc_autoCapture := autoCapture p;
          tc_autoCaptureDelayMs := autoCaptureDelayMs p;
          tc_capturePending := capturePending |}.

(** The body of the component run with props [p]: the hooks are evaluated
    again. *)
Definition render_hooks (p : Props) (s : State) : State :=
  set_memo_detectionTick
    (useCallback_detectionTick (memo_detectionTick s) p (capturePending s))
    (set_props p s).

(** [useEffect(() => { overlayRef.current = overlay }, [overlay])] *)
Definition commit_overlay (s : State) : State := set_overlayRef (overlay s) s.

(** A render caused by a state change: same props. *)
Definition rerender (s : State) : State :=
  commit_overlay (render_hooks (props s) s).

Definition setOverlay (m : OverlayMode) (s : State) : State :=
  rerender (set_overlay m s).

Definition setCapturePending (b : bool) (s : State) : State :=
  rerender (set_capturePending b s).

Definition setIsStreaming (b : bool) (s : State) : State :=
  rerender (set_isStreaming b s).

Definition stopStream (s : State) : State :=
  let s := set_rafRef false s in
  let s := set_detectionTimerRef None s in
  let s := set_streamRef false s in
  setIsStreaming false s.

(** [onCapture(v)] *)
Definition onCapture (v : option Z) (s : State) : State :=
  set_onCapture_calls (onCapture_calls s ++ [v]) s.

Definition close (s : State) : State :=
  let s := stopStream s in
  onCapture None s.

(** [capture]: nothing happens without the video element or without a 2D
    context; otherwise [onCapture] receives the data URL of the current
    frame. *)
Definition capture (s : State) : State :=
  if negb (isOpen (props s)) then s
  else if negb (canvas2d s) then s
  else onCapture (Some (now s)) s.

(** What [draw] reads from the page for one frame. *)
Record FrameEnv := mkFrameEnv {
  clientWidth : Q;
  clientHeight : Q;
  innerWidth : Q;
  innerHeight : Q;
  devicePixelRatio : Q;
  videoWidth : Q;
  videoHeight : Q;
  readyState : Z
}.

(** [draw], as far as the state goes: it publishes the mapping.  (The pixels
    it paints are not part of the state; the guide path it strokes is
    [draw_guidePath].) *)
Definition draw (f : FrameEnv) (s : State) : State :=
  let mirrored := OverlayMode_eqb (overlayRef s) face in
  if negb (isOpen (props s)) then s
  else if (readyState f <? 2)%Z then s
  else if negb (canvas2d s) then s
  else
    let targetW := JS.or_else (JS.or_else (clientWidth f) (innerWidth f)) 1440 in
    let targetH := JS.or_else (JS.or_else (clientHeight f) (innerHeight f)) 2560 in
    let dpr := Qmax 1 (Qmin 3 (JS.or_else (devicePixelRatio f) 1)) in
    let cW := JS.floor (targetW * dpr) in
    let cH := JS.floor (targetH * dpr) in
    set_mappingRef
      (Some (draw_mapping cW cH (videoWidth f) (videoHeight f) mirrored)) s.

(** What one run of [detectionTick] gets from outside: the answer of
    [faceapi.detectSingleFace], the hit test of the canvas, the outcome of
    [ensureOpenCV], the value of [isOpenCVReady()], the vision engine and the
    pixels of the crop [rv] of the current video frame. *)
Record TickOracle := mkTickOracle {
  detectSingleFace : Result (option Box);
  isPointInPath : Path2D -> Q -> Q -> bool;
  ensureOpenCV : Result unit;
  isOpenCVReady : bool;
  engine : Rect -> Engine;
  grab : Rect -> Result (list Byte.byte)
}.

(** The flag of the mode in [overlayRef]:
    [overlayRef.current === 'face' ? faceInsideRef.current : cardOkRef.current] *)
Definition ok_flag (s : State) : bool :=
  match overlayRef s with
  | face => faceInsideRef s
  | card => cardOkRef s
  end.

(** The callback given to [setTimeout] by [detectionTick]. *)
Definition timer_body (s : State) : State :=
  let s := if ok_flag s then capture s else s in
  setCapturePending false s.

(** The face branch of [detectionTick]. *)
Definition detectionTick_face (o : TickOracle) (map : Mapping) (s : State)
  : State :=
  match detectSingleFace o with
  | Throw => s
  | Ok det =>
      let s := set_lastFaceBoxRef det s in
      let s := set_faceInsideRef false s in
      match det with
      | None => s
      | Some b =>
          let left := dx map + (vw map - (box_x b + box_width b)) * scale map in
          let top := dy map + box_y b * scale map in
          let centerX := left + (box_width b * scale map) / 2 in
          let centerY := top + (box_height b * scale map) / 2 in
          let p := detectionTick_facePath (cW map) (cH map) in
          if canvas2d s
          then set_faceInsideRef (isPointInPath o p centerX centerY) s
          else s
      end
  end.

(** The two nested [try] blocks of the card branch of [detectionTick]: the
    value that is assigned to [cardOkRef.current], or the exception that
    reaches the outer [catch].  The inner [try] runs the contour detector
    when the engine is ready and the heuristic detector otherwise; its
    [catch] runs the heuristic detector. *)
Definition card_attempts (o : TickOracle) (map : Mapping) (s : State)
  : Heap * Result bool :=
  let rc := cardOverlayRectCanvas (cW map) (cH map) in
  let rv := canvasRectToVideoRect rc map in
  let first : Heap * Result bool :=
    match ensureOpenCV o with
    | Throw => (cv_heap s, Throw)
    | Ok _ =>
        if isOpenCVReady o
        then estimateCardOpenCV (engine o rv) (canvas2d s) (cv_heap s)
        else (cv_heap s, estimateCardHeuristic (canvas2d s) (grab o rv))
    end in
  match snd first with
  | Ok b => (fst first, Ok b)
  | Throw => (fst first, estimateCardHeuristic (canvas2d s) (grab o rv))
  end.

(** The card branch of [detectionTick]; the outer [catch] ignores the
    exception. *)
Definition detectionTick_card (o : TickOracle) (map : Mapping) (s : State)
  : State :=
  let r := card_attempts o map s in
  let s := set_cv_heap (fst r) s in
  match snd r with
  | Ok b => set_cardOkRef b s
  | Throw => s
  end.

(** The last part of [detectionTick]: arming the auto-capture timer.
    [autoCapture], [capturePending] and [autoCaptureDelayMs] are the
    variables of the closure [f]. *)
Definition detectionTick_autoCapture (f : TickClosure) (s : State) : State :=
  if tc_autoCapture f && negb (tc_capturePending f) then
    if ok_flag s then
      let s := setCapturePending true s in
      set_timeouts (timeouts s ++ [(now s + tc_autoCaptureDelayMs f)%Z]) s
    else s
  else s.

(** [detectionTick], the function [f], run to completion. *)
Definition detectionTick (f : TickClosure) (o : TickOracle) (s : State)
  : State :=
  if negb (isOpen (props s)) then s
  else
    match mappingRef s with
    | None => s
    | Some map =>
        let s :=
          match overlayRef s with
          | face =>
              if faceModelsLoadedRef s then detectionTick_face o map s else s
          | card => detectionTick_card o map s
          end in
        detectionTick_autoCapture f s
    end.

(** [start] is asynchronous: it asks for the camera and continues in
    [start_settled]. *)
Definition start (s : State) : State := set_starting (S (starting s)) s.

(** [onPlaying] of [start]: the interval runs the [detectionTick] that
    [start] closes over. *)
Definition onPlaying (s : State) : State :=
  let s := setIsStreaming true s in
  let s := if rafRef s then s else set_rafRef true s in
  match detectionTimerRef s with
  | Some _ => s
  | None => set_detectionTimerRef (Some (memo_start s)) s
  end.

(** The rest of [start], once [getUserMedia] has answered: with a stream,
    and [video.play()] then succeeds ([ok]), or with a rejection, which the
    [catch] of [start] turns into [setIsStreaming(false)]. *)
Definition start_settled (ok : bool) (s : State) : State :=
  match starting s with
  | O => s
  | S n =>
      let s := set_starting n s in
      if ok then
        let s := set_streamRef true s in
        if negb (isOpen (props s)) then s else onPlaying s
      else setIsStreaming false s
  end.

(** The rest of [start] when [getUserMedia] answers with a stream and
    [video.play()] rejects: the stream has been stored in [streamRef]
    before; without a video element [start] returns before it calls
    [play]; otherwise the [catch] runs [setIsStreaming(false)], and the
    interval and the animation frame are not started. *)
Definition start_play_rejected (s : State) : State :=
  match starting s with
  | O => s
  | S n =>
      let s := set_starting n s in
      let s := set_streamRef true s in
      if negb (isOpen (props s)) then s else setIsStreaming false s
  end.

(** A render with new props from the parent (and the same [faceModelsUrl],
    see [Props]), with the effect on [isOpen]:
    [if (!isOpen) return; start(); return () => stopStream()].  [start] and
    [stopStream] are the functions of the first render, so the effect runs
    again only when [isOpen] has changed. *)
Definition parentRender (p : Props) (s : State) : State :=
  let was_open := isOpen (props s) in
  let s := commit_overlay (render_hooks p s) in
  if Bool.eqb was_open (isOpen p) then s
  else
    let s := if was_open then stopStream s else s in
    if isOpen p then start s else s.

(** The first render and its effects. *)
Definition mount (p : Props) (ctx2d : bool) : State :=
  let tick := {| tc_autoCapture := autoCapture p;
                 tc_autoCaptureDelayMs := autoCaptureDelayMs p;
                 tc_capturePending := false |} in
  let s := {| props := p;
              overlay := initialOverlay p;
              capturePending := false;
              isStreaming := false;
              overlayRef := initialOverlay p;
              rafRef := false;
              detectionTimerRef := None;
              streamRef := false;
              faceModelsLoadedRef := false;
              lastFaceBoxRef := None;
              faceInsideRef := false;
              cardOkRef := false;
              mappingRef := None;
              memo_detectionTick := tick;
              memo_start := tick;
              now := 0;
              timeouts := [];
              onCapture_calls := [];
              cv_heap := empty_heap;
              canvas2d := ctx2d;
              starting := 0 |} in
  let s := commit_overlay s in
  if isOpen p then start s else s.

(** The pending timeouts that are due at time [t] fire, oldest first, each at
    its due time. *)
Definition fire_due (t : Z) (s : State) : State :=
  let due := List.filter (fun d => (d <=? t)%Z) (timeouts s) in
  let rest := List.filter (fun d => negb (d <=? t)%Z) (timeouts s) in
  fold_left (fun s d => timer_body (set_now d s)) due (set_timeouts rest s).

(** The period of [setInterval(detectionTick, 333)]. *)
Definition tick_period : Z := 333.

(** One period of the detection interval goes by: the timeouts that fall due
    fire, then the interval runs its function. *)
Definition period (o : TickOracle) (s : State) : State :=
  let t := (now s + tick_period)%Z in
  let s := set_now t (fire_due t s) in
  match detectionTimerRef s with
  | Some f => detectionTick f o s
  | None => s
  end.

(** What can happen to the component. *)
Inductive Event :=
| ParentRender (p : Props)
| StartSettled (ok : bool)
| FaceModelsLoaded
| AnimationFrame (f : FrameEnv)
| Period (o : TickOracle)
| ClickClose
| ClickCapture
| ClickOverlay (m : OverlayMode)
| StartPlayRejected.

Definition step (s : State) (e : Event) : State :=
  match e with
  | ParentRender p => parentRender p s
  | StartSettled ok => start_settled ok s
  | FaceModelsLoaded => set_faceModelsLoadedRef true s
  | AnimationFrame f => if rafRef s then draw f s else s
  | Period o => period o s
  | ClickClose => if isOpen (props s) then close s else s
  | ClickCapture =>
      if isOpen (props s) && isStreaming s then capture s else s
  | ClickOverlay m => if isOpen (props s) then setOverlay m s else s
  | StartPlayRejected => start_play_rejected s
  end.

Definition run (s : State) (es : list Event) : State := fold_left step es s.

(** ** Example sessions *)

(** Auto-capture after five seconds, face guide, session open. *)
Definition demo_props : Props :=
  {| isOpen := true; initialOverlay := face;
     autoCapture := true; autoCaptureDelayMs := 5000 |}.

(** The same props with the session closed by the parent. *)
Definition demo_props_closed : Props :=
  {| isOpen := false; initialOverlay := face;
     autoCapture := true; autoCaptureDelayMs := 5000 |}.

(** A 375 x 667 canvas at device pixel ratio 3 showing a 1440 x 2560 video. *)
Definition demo_frame : FrameEnv :=
  {| clientWidth := 375; clientHeight := 667;
     innerWidth := 375; innerHeight := 667;
     devicePixelRatio := 3;
     videoWidth := 1440; videoHeight := 2560;
     readyState := 4 |}.

(** A tick in which the face detector reports a box in the middle of the
    frame and the hit test succeeds. *)
Definition oracle_framed : TickOracle :=
  {| detectSingleFace :=
       Ok (Some {| box_x := 520; box_y := 1080;
                   box_width := 400; box_height := 400 |});
     isPointInPath := fun _ _ _ => true;
     ensureOpenCV := Ok tt;
     isOpenCVReady := true;
     engine := fun _ => engine_with_card;
     grab := fun _ => Throw |}.

(** A tick in which the face detector throws, the contour detector throws in
    [cv.cvtColor] and the heuristic detector cannot read the frame. *)
Definition oracle_throws : TickOracle :=
  {| detectSingleFace := Throw;
     isPointInPath := fun _ _ _ => false;
     ensureOpenCV := Ok tt;
     isOpenCVReady := true;
     engine := fun _ => engine_cvtColor_throws;
     grab := fun _ => Throw |}.

(** The session of [demo_props] once the camera plays, the face model is
    loaded and a frame has been drawn. *)
Definition demo_streaming : State :=
  run (mount demo_props true)
      [StartSettled true; FaceModelsLoaded; AnimationFrame demo_frame].

(** The function that [setInterval] runs was made by the first render, in
    which [capturePending] is false, and nothing replaces it: whatever
    happens to the component, its [capturePending] is false. *)
Definition stale_closure (p : Props) (s : State) : Prop :=
  memo_start s = {| tc_autoCapture := autoCapture p;
                    tc_autoCaptureDelayMs := autoCaptureDelayMs p;
                    tc_capturePending := false |} /\
  (detectionTimerRef s = None \/ detectionTimerRef s = Some (memo_start s)).

(** The two cells that decide which [detectionTick] the interval runs. *)
Definition interval_cells (s : State) : TickClosure * option TickClosure :=
  (memo_start s, detectionTimerRef s).

(** ** Further geometry of [draw], [capture] and the guide paths *)

(** The cover-fit transform of [capture]: the output raster is 1440 x 2560,
    the offsets are not rounded, and the frame is never mirrored. *)
Definition capture_mapping (videoWidth videoHeight : Q) : Mapping :=
  let outW := 1440 in
  let outH := 2560 in
  let vw := JS.or_else videoWidth outW in
  let vh := JS.or_else videoHeight outH in
  let scale := Qmax (outW / vw) (outH / vh) in
  let dw := vw * scale in
  let dh := vh * scale in
  let dx := (outW - dw) / 2 in
  let dy := (outH - dh) / 2 in
  {| cW := outW; cH := outH; vw := vw; vh := vh;
     scale := scale; dx := dx; dy := dy; mirrored := false |}.

(** The size [draw] gives the canvas: [cW] and [cH] from the CSS size of the
    canvas (or of the window, or 1440 x 2560) and the device pixel ratio
    clamped to [1, 3]. *)
Definition draw_canvasSize (f : FrameEnv) : Q * Q :=
  let targetW := JS.or_else (JS.or_else (clientWidth f) (innerWidth f)) 1440 in
  let targetH := JS.or_else (JS.or_else (clientHeight f) (innerHeight f)) 2560 in
  let dpr := Qmax 1 (Qmin 3 (JS.or_else (devicePixelRatio f) 1)) in
  (JS.floor (targetW * dpr), JS.floor (targetH * dpr)).

(** The points a path command names: its control points and its end point. *)
Definition PathCmd_points (c : PathCmd) : list (Q * Q) :=
  match c with
  | moveTo x y => [(x, y)]
  | lineTo x y => [(x, y)]
  | quadraticCurveTo cpx cpy x y => [(cpx, cpy); (x, y)]
  | bezierCurveTo cp1x cp1y cp2x cp2y x y => [(cp1x, cp1y); (cp2x, cp2y); (x, y)]
  | closePath => []
  end.

Definition Path2D_points (p : Path2D) : list (Q * Q) :=
  flat_map PathCmd_points p.

(** A point lies in the rectangle with corner [(x0, y0)] and size [w] x [h]. *)
Definition in_box (x0 y0 w h : Q) (p : Q * Q) : Prop :=
  x0 <= fst p <= x0 + w /\ y0 <= snd p <= y0 + h.

(** The pieces of curve a path draws.  Every command continues from the
    point where the previous one ended; [closePath] goes back to the start
    of the subpath in a straight line. *)
Inductive Segment :=
| Line (p0 p1 : Q * Q)
| Quad (p0 cp p1 : Q * Q)
| Cubic (p0 cp1 cp2 p3 : Q * Q).

Fixpoint segments_from (start cur : Q * Q) (p : Path2D) : list Segment :=
  match p with
  | [] => []
  | moveTo x y :: rest => segments_from (x, y) (x, y) rest
  | lineTo x y :: rest => Line cur (x, y) :: segments_from start (x, y) rest
  | quadraticCurveTo cpx cpy x y :: rest =>
      Quad cur (cpx, cpy) (x, y) :: segments_from start (x, y) rest
  | bezierCurveTo cp1x cp1y cp2x cp2y x y :: rest =>
      Cubic cur (cp1x, cp1y) (cp2x, cp2y) (x, y)
      :: segments_from start (x, y) rest
  | closePath :: rest => Line cur start :: segments_from start start rest
  end.

(** The segments of a path that begins with [moveTo]. *)
Definition segments (p : Path2D) : list Segment := segments_from (0, 0) (0, 0) p.

Definition Point_eq (p q : Q * Q) : Prop := fst p == fst q /\ snd p == snd q.

Definition Segment_eq (a b : Segment) : Prop :=
  match a, b with
  | Line p0 p1, Line q0 q1 => Point_eq p0 q0 /\ Point_eq p1 q1
  | Quad p0 c p1, Quad q0 d q1 => Point_eq p0 q0 /\ Point_eq c d /\ Point_eq p1 q1
  | Cubic p0 c1 c2 p3, Cubic q0 d1 d2 q3 =>
      Point_eq p0 q0 /\ Point_eq c1 d1 /\ Point_eq c2 d2 /\ Point_eq p3 q3
  | _, _ => False
  end.

(** The same piece of curve run through from its end to its start. *)
Definition Segment_reverse (s : Segment) : Segment :=
  match s with
  | Line p0 p1 => Line p1 p0
  | Quad p0 c p1 => Quad p1 c p0
  | Cubic p0 c1 c2 p3 => Cubic p3 c2 c1 p0
  end.

(** Reflection in the vertical line at [cx]. *)
Definition reflect_x (cx : Q) (p : Q * Q) : Q * Q := (2 * cx - fst p, snd p).

Definition Segment_reflect (cx : Q) (s : Segment) : Segment :=
  match s with
  | Line p0 p1 => Line (reflect_x cx p0) (reflect_x cx p1)
  | Quad p0 c p1 => Quad (reflect_x cx p0) (reflect_x cx c) (reflect_x cx p1)
  | Cubic p0 c1 c2 p3 =>
      Cubic (reflect_x cx p0) (reflect_x cx c1) (reflect_x cx c2) (reflect_x cx p3)
  end.

(** A segment that starts where it ends and has no control point. *)
Definition Segment_degenerate (s : Segment) : Prop :=
  match s with
  | Line p0 p1 => Point_eq p0 p1
  | _ => False
  end.

(** The point [detectionTick] hit-tests for a face box: [(centerX, centerY)]. *)
Definition detectionTick_faceCenter (map : Mapping) (b : Box) : Q * Q :=
  let left := dx map + (vw map - (box_x b + box_width b)) * scale map in
  let top := dy map + box_y b * scale map in
  let centerX := left + (box_width b * scale map) / 2 in
  let centerY := top + (box_height b * scale map) / 2 in
  (centerX, centerY).

(** A face box as a rectangle of the video. *)
Definition Box_rect (b : Box) : Rect :=
  {| rc_x := box_x b; rc_y := box_y b; rc_w := box_width b; rc_h := box_height b |}.

(** The mapping [m] with the mirror flag set to [b]. *)
Definition with_mirrored (b : bool) (m : Mapping) : Mapping :=
  {| cW := cW m; cH := cH m; vw := vw m; vh := vh m;
     scale := scale m; dx := dx m; dy := dy m; mirrored := b |}.

(** The part of the canvas plane that the drawn video occupies: the
    rectangle with corner [(dx, dy)] and size [vw * scale] x [vh * scale]. *)
Definition in_footprint (rc : Rect) (m : Mapping) : Prop :=
  0 <= rc_w rc /\ 0 <= rc_h rc /\
  dx m <= rc_x rc /\ dy m <= rc_y rc /\
  rc_x rc + rc_w rc <= dx m + vw m * scale m /\
  rc_y rc + rc_h rc <= dy m + vh m * scale m.

(** ** Further definitions for the heuristic detector *)

(** The buffer of an image in which every pixel has the colour [(r, g, b)];
    [alphas] are the alpha bytes of the pixels, in order. *)
Definition solid_image (r g b : Byte.byte) (alphas : list Byte.byte)
  : list Byte.byte :=
  flat_map (fun a => [r; g; b; a]) alphas.

(** An index is the first byte of one of the first [pixels] pixels. *)
Definition pixel_start (pixels : Z) (i : Z) : bool :=
  ((0 <=? i) && (i mod 4 =? 0) && (i / 4 <? pixels))%Z.

(** The number of bytes [edgeScore] needs on the 320 x 202 raster: one more
    than the largest index it reads. *)
Definition heuristic_bytes_read : Z := 255991.

(** ** Further definitions for the contour detector *)

(** [mean] of [estimateCardOpenCV]: the mean of the blurred pixels. *)
Definition blur_mean (data : list Byte.byte) : Q :=
  fold_left (fun sum v => sum + byteQ v) data 0
  / inject_Z (Z.of_nat (length data)).

(** The contour [c] with the sides of its rotated rectangle exchanged: the
    same rectangle reported at a right angle. *)
Definition Contour_turned (c : Contour) : Contour :=
  {| contour_area := contour_area c;
     rr_width := rr_height c;
     rr_height := rr_width c |}.

(** ** The loader of the vision engine: [ensureOpenCV] and [isOpenCVReady] *)

(** The state of a promise. *)
Inductive PromiseState := Pending | Fulfilled | Rejected.

(** [window.cv]: not there, there without [getBuildInformation] (the runtime
    is still initialising), or there with it. *)
Inductive CvGlobal := cv_undefined | cv_initialising | cv_built.

Definition cv_defined (cv : CvGlobal) : bool :=
  match cv with cv_undefined => false | _ => true end.

(** The module-level variables of the loader and the part of the page it
    reads and writes.

    - [opencvReady]: [__opencvReady].  [opencvPromise]: [__opencvPromise],
      [None] for [null], with the state of the promise.
    - [window_cv]: [window.cv].
    - [script_in_page]: [document.querySelector] finds a script element with
      the URL.  [scripts_appended]: the script elements the loader has
      appended to the head.  [script_loading]: the appended script has
      neither loaded nor failed yet, so its [onload] and [onerror] handlers
      are still to be called.
    - [runtime_handler]: the loader has set [cv.onRuntimeInitialized]. *)
Record Page := mkPage {
  opencvReady : bool;
  opencvPromise : option PromiseState;
  window_cv : CvGlobal;
  script_in_page : bool;
  scripts_appended : nat;
  script_loading : bool;
  runtime_handler : bool
}.

(** The page before the loader has run. *)
Definition fresh_page (cv : CvGlobal) (in_page : bool) : Page :=
  {| opencvReady := false; opencvPromise := None;
     window_cv := cv; script_in_page := in_page;
     scripts_appended := 0; script_loading := false;
     runtime_handler := false |}.

(** [resolve()] and [reject()]: they settle a pending promise and do nothing
    to a settled one. *)
Definition settle (st : PromiseState) (p : Page) : Page :=
  match opencvPromise p with
  | Some Pending =>
      mkPage (opencvReady p) (Some st) (window_cv p) (script_in_page p)
             (scripts_appended p) (script_loading p) (runtime_handler p)
  | _ => p
  end.

Definition set_opencvReady (p : Page) : Page :=
  mkPage true (opencvPromise p) (window_cv p) (script_in_page p)
         (scripts_appended p) (script_loading p) (runtime_handler p).

(** [done] of [ensureOpenCV]. *)
Definition loader_done (p : Page) : Page :=
  match window_cv p with
  | cv_undefined => settle Rejected p
  | cv_built => settle Fulfilled (set_opencvReady p)
  | cv_initialising =>
      mkPage (opencvReady p) (opencvPromise p) (window_cv p) (script_in_page p)
             (scripts_appended p) (script_loading p) true
  end.

(** [ensureOpenCV]: the page afterwards and the state of the promise it
    returns. *)
Definition ensureOpenCV_call (p : Page) : Page * PromiseState :=
  if opencvReady p && cv_defined (window_cv p) then (p, Fulfilled)
  else
    match opencvPromise p with
    | Some st => (p, st)
    | None =>
        let p := mkPage (opencvReady p) (Some Pending) (window_cv p)
                        (script_in_page p) (scripts_appended p)
                        (script_loading p) (runtime_handler p) in
        let p :=
          if script_in_page p then loader_done p
          else mkPage (opencvReady p) (opencvPromise p) (window_cv p)
                      true (S (scripts_appended p)) true (runtime_handler p) in
        (p, match opencvPromise p with Some st => st | None => Pending end)
    end.

(** [isOpenCVReady] *)
Definition isOpenCVReady_call (p : Page) : bool :=
  opencvReady p && cv_defined (window_cv p).

(** What can happen to the loader: a call of [ensureOpenCV]; the appended
    script loads, leaving [window.cv] as given; the appended script fails;
    the runtime of the engine finishes initialising; other code changes
    [window.cv] or the script elements of the page. *)
Inductive LoaderEvent :=
| CallEnsureOpenCV
| ScriptLoad (cv : CvGlobal)
| ScriptError
| RuntimeInitialized
| PageChange (cv : CvGlobal) (in_page : bool).

Definition loader_step (p : Page) (e : LoaderEvent) : Page :=
  match e with
  | CallEnsureOpenCV => fst (ensureOpenCV_call p)
  | ScriptLoad cv =>
      if script_loading p then
        loader_done (mkPage (opencvReady p) (opencvPromise p) cv
                            (script_in_page p) (scripts_appended p) false
                            (runtime_handler p))
      else p
  | ScriptError =>
      if script_loading p then
        settle Rejected (mkPage (opencvReady p) (opencvPromise p) (window_cv p)
                                (script_in_page p) (scripts_appended p) false
                                (runtime_handler p))
      else p
  | RuntimeInitialized =>
      let p := mkPage (opencvReady p) (opencvPromise p) cv_built
                      (script_in_page p) (scripts_appended p)
                      (script_loading p) (runtime_handler p) in
      if runtime_handler p then settle Fulfilled (set_opencvReady p) else p
  | PageChange cv in_page =>
      mkPage (opencvReady p) (opencvPromise p) cv in_page
             (scripts_appended p) (script_loading p) (runtime_handler p)
  end.

Definition loader_run (p : Page) (es : list LoaderEvent) : Page :=
  fold_left loader_step es p.

(** What holds of the loader whatever happens. *)
Definition loader_inv (p : Page) : Prop :=
  (scripts_appended p <= 1)%nat /\
  (opencvPromise p = None ->
   scripts_appended p = 0%nat /\ script_loading p = false /\
   runtime_handler p = false) /\
  (opencvReady p = true <-> opencvPromise p = Some Fulfilled) /\
  (opencvPromise p = Some Rejected -> runtime_handler p = false) /\
  (script_loading p = true ->
   opencvPromise p = Some Pending /\ runtime_handler p = false).

(** ** Further definitions for the component *)

Definition is_ParentRender (e : Event) : bool :=
  match e with ParentRender _ => true | _ => false end.

(** A length as the page reports it ([clientWidth], [innerWidth],
    [videoWidth], ...): a whole number that is not negative. *)
Definition whole_px (q : Q) : bool :=
  Qle_bool 0 q && Qeq_bool q (inject_Z (Qfloor q)).

(** The lengths [draw] reads are such numbers. *)
Definition FrameEnv_whole (f : FrameEnv) : bool :=
  whole_px (clientWidth f) && whole_px (clientHeight f) &&
  whole_px (innerWidth f) && whole_px (innerHeight f) &&
  whole_px (videoWidth f) && whole_px (videoHeight f).

Definition Event_whole (e : Event) : bool :=
  match e with AnimationFrame f => FrameEnv_whole f | _ => true end.

(** A mapping under which the scaled video covers a canvas of at least one
    pixel: positive scale and video size, offsets at most zero, and the far
    edges of the video less than a pixel short of the canvas edges or beyond
    them. *)
Definition Mapping_covers (m : Mapping) : Prop :=
  (1 <= cW m /\ 1 <= cH m) /\
  (0 < vw m /\ 0 < vh m /\ 0 < scale m) /\
  (cW m <= vw m * scale m /\ cH m <= vh m * scale m) /\
  (dx m <= 0 /\ dy m <= 0) /\
  (cW m - 1 < dx m + vw m * scale m /\ cH m - 1 < dy m + vh m * scale m).

(** The video rectangle of the card guide, as the card branch of
    [detectionTick] computes it. *)
Definition detectionTick_cardRoi (map : Mapping) : Rect :=
  canvasRectToVideoRect (cardOverlayRectCanvas (cW map) (cH map)) map.

(** A session that was mounted open with auto-capture turned off. *)
Definition props_manual : Props :=
  {| isOpen := true; initialOverlay := face;
     autoCapture := false; autoCaptureDelayMs := 5000 |}.

Definition set_memo_start (v : TickClosure) (s : State) : State :=
  mkState (props s) (overlay s) (capturePending s) (isStreaming s)
    (overlayRef s) (rafRef s) (detectionTimerRef s) (streamRef s)
    (faceModelsLoadedRef s) (lastFaceBoxRef s) (faceInsideRef s) (cardOkRef s)
    (mappingRef s) (memo_detectionTick s) v (now s) (timeouts s)
    (onCapture_calls s) (cv_heap s) (canvas2d s) (starting s).

(** A render in which the parent passes another [faceModelsUrl].  It is not
    one of the events of [run] (see [Props]).  [useCallback] makes a new
    [start], which closes over the [detectionTick] of this render.  The
    effect on [isOpen] has [start] among its dependencies and runs again:
    first the cleanup of its last run, [stopStream], if that run was with
    [isOpen] true, then [start()] if [isOpen] is true now.  A [start] that
    is still waiting for the camera keeps the [detectionTick] it was made
    with, which [starting] does not record: the definition is for states in
    which no [start] is waiting. *)
Definition parentRender_newFaceModelsUrl (p : Props) (s : State) : State :=
  let was_open := isOpen (props s) in
  let s := commit_overlay (render_hooks p s) in
  let s := set_memo_start (memo_detectionTick s) s in
  let s := if was_open then stopStream s else s in
  if isOpen p then start s else s.

(** ** The heuristic card detector in binary64 *)

(** The score of [edgeScore] as the code computes it: every operation is the
    IEEE 754 binary64 operation of JavaScript, represented by Rocq's
    primitive floats.  A decimal literal stands for the nearest double, as
    it does in the source.  The indices are whole numbers far below 2^53
    and are computed as in the exact model. *)
Module F64.

(** A whole number as a double, from its binary digits; exact below 2^53. *)
Fixpoint of_pos (p : positive) : float :=
  match p with
  | xH => 1%float
  | xO p => (2 * of_pos p)%float
  | xI p => (2 * of_pos p + 1)%float
  end.

Definition of_Z (z : Z) : float :=
  match z with
  | Z0 => 0%float
  | Zpos p => of_pos p
  | Zneg p => (- of_pos p)%float
  end.

Definition of_byte (b : Byte.byte) : float := of_Z (Z.of_N (Byte.to_N b)).

(** [data[i]] in arithmetic: the byte, or NaN for [undefined] outside the
    array. *)
Definition data_get (data : list Byte.byte) (i : Z) : float :=
  if (i <? 0)%Z then nan
  else match data !! Z.to_nat i with
       | Some b => of_byte b
       | None => nan
       end.

(** [lum] of [edgeScore]. *)
Definition lum (data : list Byte.byte) (i : Z) : float :=
  (0.299 * data_get data i + 0.587 * data_get data (i + 1)
   + 0.114 * data_get data (i + 2))%float.

(** [Math.abs(lum(i) - lum(j)) / 255] *)
Definition contrast (data : list Byte.byte) (i j : Z) : float :=
  (abs (lum data i - lum data j) / 255)%float.

(** [acc += d; n++] on the pair [(acc, n)]. *)
Definition add_sample (st : float * Z) (d : float) : float * Z :=
  ((fst st + d)%float, (snd st + 1)%Z).

Definition edgeScore (data : list Byte.byte) (w h : Z) : float :=
  let samples := 200%nat in
  let st := (0%float, 0%Z) in
  let st :=
    for_loop samples (fun s st =>
      let x := sample_pos (w - 4) s (Z.of_nat samples) in
      let y1 := 2%Z in
      let y2 := Z.min 5 (h - 1) in
      let st := add_sample st (contrast data (idx w x y1) (idx w x y2)) in
      let yb1 := (h - 3)%Z in
      let yb2 := clamp (h - 6) 0 (h - 1) in
      add_sample st (contrast data (idx w x yb1) (idx w x yb2))) st in
  let st :=
    for_loop samples (fun s st =>
      let y := sample_pos (h - 4) s (Z.of_nat samples) in
      let x1 := 2%Z in
      let x2 := Z.min 5 (w - 1) in
      let st := add_sample st (contrast data (idx w x1 y) (idx w x2 y)) in
      let xr1 := (w - 3)%Z in
      let xr2 := clamp (w - 6) 0 (w - 1) in
      add_sample st (contrast data (idx w xr1 y) (idx w xr2 y))) st in
  (fst st / of_Z (snd st))%float.

(** [estimateCardHeuristic]: [return score > 0.18], on the double. *)
Definition estimateCardHeuristic (ctx : bool) (grab : Result (list Byte.byte))
  : Result bool :=
  if negb ctx then Ok false
  else match grab with
       | Throw => Throw
       | Ok data => Ok (0.18 <? edgeScore data heuristic_outW heuristic_outH)%float
       end.

End F64.

(** The buffer of an image given pixel by pixel: [px k] is the colour of
    pixel number [k], counted row by row; alpha is 255 throughout.
    [image_from px k n] holds the [n] pixels from number [k] on. *)
Fixpoint image_from (px : Z -> Byte.byte * Byte.byte * Byte.byte) (k : Z)
  (n : nat) : list Byte.byte :=
  match n with
  | O => []
  | S n =>
      fst (fst (px k)) :: snd (fst (px k)) :: snd (px k) :: Byte.xff
      :: image_from px (k + 1) n
  end.

(** A 320 x 202 image in two colours, black and (0, 78, 1), laid out so
    that the two pixels of each of the 800 sampled pairs have different
    colours: rows 5 and 196 and columns 5 and 314 are swapped against the
    rest.  The luminances differ by 0.587 * 78 + 0.114 = 45.9, which is
    0.18 * 255. *)
Definition threshold_pixel (k : Z) : Byte.byte * Byte.byte * Byte.byte :=
  let x := (k mod 320)%Z in
  let y := (k / 320)%Z in
  if xorb ((y =? 5)%Z || (y =? 196)%Z) ((x =? 5)%Z || (x =? 314)%Z)
  then (Byte.x00, Byte.x00, Byte.x00)
  else (Byte.x00, Byte.x4e, Byte.x01).

Definition threshold_image : list Byte.byte :=
  image_from threshold_pixel 0 (Z.to_nat 64640).

(** ** Tactics *)

(** Division by a numeric constant is multiplication by its inverse, which
    is computed; [lra] then sees linear arithmetic only. *)
Ltac inv_consts :=
  unfold Qdiv in *;
  repeat match goal with
    | H : context [Qinv (Qmake ?n ?d)] |- _ =>
        let v := eval cbv in (Qinv (Qmake n d)) in
        change (Qinv (Qmake n d)) with v in H
    | |- context [Qinv (Qmake ?n ?d)] =>
        let v := eval cbv in (Qinv (Qmake n d)) in
        change (Qinv (Qmake n d)) with v
    end.

(** Case analysis on the tests of a function of the state. *)
Ltac break_match :=
  match goal with
  | |- context [match ?x with _ => _ end] => destruct x eqn:?
  end.

Ltac preserved := intros; repeat break_match; reflexivity.

(** * Properties *)

(** ** Arithmetic tests *)

Lemma ltb_lt a b : JS.ltb a b = true <-> a < b.
Proof.
  unfold JS.ltb. rewrite negb_true_iff.
  destruct (Qle_bool b a) eqn:E.
  - apply Qle_bool_iff in E. split; [discriminate | intros H; lra].
  - split; [intros _ | reflexivity].
    destruct (Qlt_le_dec a b) as [H | H]; [exact H |].
    apply Qle_bool_iff in H. congruence.
Qed.

Lemma gtb_gt a b : JS.gtb a b = true <-> b < a.
Proof. apply ltb_lt. Qed.

Lemma leb_le a b : JS.leb a b = true <-> a <= b.
Proof. apply Qle_bool_iff. Qed.

Lemma ltb_ge a b : JS.ltb a b = false <-> b <= a.
Proof. unfold JS.ltb. rewrite negb_false_iff. apply Qle_bool_iff. Qed.

(** ** The face guide of the hit test and the face guide that is drawn *)

Lemma Qmin_pos a b : 0 < a -> 0 < b -> 0 < Qmin a b.
Proof.
  intros Ha Hb. destruct (Q.min_spec a b) as [[_ E] | [_ E]]; rewrite E; assumption.
Qed.

(** The height handed to [faceSilhouettePath2D] by [draw] is 0.875 of the
    smaller canvas side, the one handed over by [detectionTick] 0.625 of it. *)
Lemma faceGuide_heights cW cH :
  snd (draw_faceGuideArgs cW cH) == Qmin cW cH * 0.875 /\
  snd (detectionTick_faceGuideArgs cW cH) == Qmin cW cH * 0.625.
Proof.
  unfold draw_faceGuideArgs, detectionTick_faceGuideArgs; simpl.
  generalize (Qmin cW cH); intros m. split; lra.
Qed.

(** C1 (fails on the code): on every canvas with positive sides the path
    that [detectionTick] hit-tests has a height argument different from the
    one of the path [draw] strokes, and the two paths are different curves
    (they already start at different points). *)
Theorem face_guide_paths_differ cW cH :
  0 < cW -> 0 < cH ->
  ~ snd (detectionTick_faceGuideArgs cW cH) == snd (draw_faceGuideArgs cW cH) /\
  ~ Path2D_eq (detectionTick_facePath cW cH) (draw_guidePath face cW cH).
Proof.
  intros HW HH. pose proof (Qmin_pos _ _ HW HH) as Hm.
  split.
  - destruct (faceGuide_heights cW cH) as [Hd Ht]. rewrite Hd, Ht. lra.
  - unfold detectionTick_facePath, draw_guidePath, facePath,
      detectionTick_faceGuideArgs, draw_faceGuideArgs, faceSilhouettePath2D.
    intros H. inversion H as [| a b la lb Hhd _]; subst.
    simpl in Hhd. destruct Hhd as [_ Hy].
    revert Hm Hy. generalize (Qmin cW cH); intros m Hm Hy.
    inv_consts. lra.
Qed.

Lemma face_guide_paths_differ_witness :
  ~ snd (detectionTick_faceGuideArgs 1125 2001) == snd (draw_faceGuideArgs 1125 2001) /\
  ~ Path2D_eq (detectionTick_facePath 1125 2001) (draw_guidePath face 1125 2001).
Proof. apply (face_guide_paths_differ 1125 2001); reflexivity. Defined.

(** ** The inverse mapping [canvasRectToVideoRect] *)

Lemma Qmax_0_eq a b : 0 <= a -> b == a -> Qmax 0 b == a.
Proof.
  intros Ha E. destruct (Q.max_spec 0 b) as [[_ E'] | [H E']]; rewrite E'; lra.
Qed.

Lemma Qmin_l_eq a b c : a <= c -> b == a -> Qmin b c == a.
Proof.
  intros Ha E. destruct (Q.min_spec b c) as [[_ E'] | [H E']]; rewrite E'; lra.
Qed.

Lemma Qdiv_le_mono a b s : 0 < s -> a <= b -> a / s <= b / s.
Proof.
  intros Hs Hab. apply Qle_shift_div_l; [exact Hs |].
  assert (E : a / s * s == a) by (field; lra). rewrite E. exact Hab.
Qed.

Lemma Qdiv_mult_cancel a s : 0 < s -> a * s / s == a.
Proof. intros Hs. field. lra. Qed.

(** What the clamps of [canvasRectToVideoRect] give on every input: a
    non-negative corner, and a size no larger than the source raster. *)
Lemma canvasRectToVideoRect_clamps rc m :
  let rv := canvasRectToVideoRect rc m in
  0 <= rc_x rv /\ 0 <= rc_y rv /\ rc_w rv <= vw m /\ rc_h rv <= vh m.
Proof.
  simpl. repeat split;
    first [apply Q.le_max_l | apply Q.le_min_r].
Qed.

(** Where the drawn video covers the canvas ([dx <= 0], [dy <= 0],
    [cW <= dx + vw * scale], [cH <= dy + vh * scale]) a rectangle of the
    canvas is mapped inside the source raster. *)
Lemma canvasRectToVideoRect_inside_if_covered rc m :
  0 < scale m ->
  dx m <= 0 -> dy m <= 0 ->
  cW m <= dx m + vw m * scale m -> cH m <= dy m + vh m * scale m ->
  Rect_inside rc (cW m) (cH m) ->
  let rv := canvasRectToVideoRect rc m in
  rc_x rv + rc_w rv <= vw m /\ rc_y rv + rc_h rv <= vh m.
Proof.
  intros Hs Hdx Hdy HcW HcH (Hx & Hy & Hw & Hh & Hxw & Hyh). simpl.
  set (s := scale m) in *.
  assert (Ew : vw m * s / s == vw m) by (apply Qdiv_mult_cancel; exact Hs).
  assert (Eh : vh m * s / s == vh m) by (apply Qdiv_mult_cancel; exact Hs).
  assert (Hwv : 0 <= rc_w rc / s) by (apply Qle_shift_div_l; lra).
  assert (Hhv : 0 <= rc_h rc / s) by (apply Qle_shift_div_l; lra).
  split.
  - pose proof (Q.le_min_l (rc_w rc / s) (vw m)) as Hl.
    pose proof (Q.le_min_r (rc_w rc / s) (vw m)) as Hr.
    destruct (mirrored m).
    + assert (Hxv : 0 <= (rc_x rc - dx m) / s) by (apply Qle_shift_div_l; lra).
      destruct (Q.max_spec 0 (vw m - (rc_x rc - dx m) / s - rc_w rc / s))
        as [[_ E] | [_ E]]; rewrite E; lra.
    + assert (Hsum : (rc_x rc - dx m) / s + rc_w rc / s <= vw m).
      { assert (E : (rc_x rc - dx m) / s + rc_w rc / s
                    == (rc_x rc + rc_w rc - dx m) / s) by (field; lra).
        rewrite E, <- Ew. apply Qdiv_le_mono; [exact Hs | lra]. }
      destruct (Q.max_spec 0 ((rc_x rc - dx m) / s))
        as [[_ E] | [_ E]]; rewrite E; lra.
  - pose proof (Q.le_min_l (rc_h rc / s) (vh m)) as Hl.
    pose proof (Q.le_min_r (rc_h rc / s) (vh m)) as Hr.
    assert (Hsum : (rc_y rc - dy m) / s + rc_h rc / s <= vh m).
    { assert (E : (rc_y rc - dy m) / s + rc_h rc / s
                  == (rc_y rc + rc_h rc - dy m) / s) by (field; lra).
      rewrite E, <- Eh. apply Qdiv_le_mono; [exact Hs | lra]. }
    destruct (Q.max_spec 0 ((rc_y rc - dy m) / s))
      as [[_ E] | [_ E]]; rewrite E; lra.
Qed.

(** C2 (fails on the code): a 1440 x 2560 video on a 1125 x 2001 canvas.
    [draw] computes [scale = 2001/2560], a drawn width of 1125.5625 and
    [dx = floor(-0.28125) = -1]; the canvas-wide rectangle is then mapped to
    a source rectangle whose right side [x + w = 1126 * 2560 / 2001] lies
    beyond the source width 1440. *)
Theorem canvasRectToVideoRect_exceeds_source :
  let m := draw_mapping 1125 2001 1440 2560 false in
  let rc := {| rc_x := 0; rc_y := 0; rc_w := 1125; rc_h := 2001 |} in
  let rv := canvasRectToVideoRect rc m in
  Rect_inside rc (cW m) (cH m) /\
  scale m == 2001 / 2560 /\ dx m == -1 /\
  rc_x rv + rc_w rv == 1126 * 2560 / 2001 /\
  vw m < rc_x rv + rc_w rv.
Proof.
  cbv zeta. unfold Rect_inside. repeat split; vm_compute; congruence.
Qed.

(** ** Round trip through the cover-fit transform *)

Lemma or_else_pos a b : 0 <= a -> 0 < b -> 0 < JS.or_else a b.
Proof.
  intros Ha Hb. unfold JS.or_else.
  destruct (Qeq_bool a 0) eqn:E; [exact Hb |].
  apply Qeq_bool_neq in E. lra.
Qed.

(** The mapping that [draw] publishes has a positive scale as soon as the
    canvas has a positive width. *)
Lemma draw_mapping_scale_pos cW cH videoWidth videoHeight mirrored :
  0 < cW -> 0 <= videoWidth ->
  0 < scale (draw_mapping cW cH videoWidth videoHeight mirrored).
Proof.
  intros HW Hv. unfold draw_mapping; cbn [scale].
  assert (Hvw : 0 < JS.or_else videoWidth 1440) by (apply or_else_pos; lra).
  assert (H : 0 < cW / JS.or_else videoWidth 1440).
  { apply Qlt_shift_div_l; [exact Hvw | lra]. }
  pose proof (Q.le_max_l (cW / JS.or_else videoWidth 1440)
                         (cH / JS.or_else videoHeight 2560)).
  lra.
Qed.

(** C7: for a mapping with a positive scale and a rectangle inside the source
    raster, mapping the rectangle to the canvas with the cover-fit transform
    and back with [canvasRectToVideoRect] returns the rectangle, mirrored or
    not; under a mirrored mapping a source rectangle at the left edge lands
    with its right side on the right edge [dx + vw * scale] of the drawn
    video, and one at the right edge with its left side on the left edge
    [dx]. *)
Theorem canvasRectToVideoRect_roundtrip (r : Rect) (m : Mapping) :
  0 < scale m ->
  Rect_inside r (vw m) (vh m) ->
  Rect_eq (canvasRectToVideoRect (videoRectToCanvasRect r m) m) r /\
  (mirrored m = true -> rc_x r == 0 ->
   let rc := videoRectToCanvasRect r m in
   rc_x rc + rc_w rc == dx m + vw m * scale m) /\
  (mirrored m = true -> rc_x r + rc_w r == vw m ->
   rc_x (videoRectToCanvasRect r m) == dx m).
Proof.
  intros Hs (Hx & Hy & Hw & Hh & Hxw & Hyh).
  split; [| split].
  - unfold Rect_eq, canvasRectToVideoRect, videoRectToCanvasRect; simpl.
    set (s := scale m) in *.
    repeat split.
    + apply Qmax_0_eq; [exact Hx |].
      destruct (mirrored m); field; lra.
    + apply Qmax_0_eq; [exact Hy |]. field; lra.
    + apply Qmin_l_eq; [lra |]. field; lra.
    + apply Qmin_l_eq; [lra |]. field; lra.
  - intros Hm H0. unfold videoRectToCanvasRect; simpl. rewrite Hm.
    rewrite H0. ring.
  - intros Hm H1. unfold videoRectToCanvasRect; simpl. rewrite Hm.
    rewrite H1. ring.
Qed.

Lemma canvasRectToVideoRect_roundtrip_witness :
  let m := draw_mapping 1080 1920 1440 2560 true in
  let r := {| rc_x := 0; rc_y := 100; rc_w := 400; rc_h := 300 |} in
  Rect_eq (canvasRectToVideoRect (videoRectToCanvasRect r m) m) r /\
  (mirrored m = true -> rc_x r == 0 ->
   let rc := videoRectToCanvasRect r m in
   rc_x rc + rc_w rc == dx m + vw m * scale m) /\
  (mirrored m = true -> rc_x r + rc_w r == vw m ->
   rc_x (videoRectToCanvasRect r m) == dx m).
Proof.
  apply canvasRectToVideoRect_roundtrip.
  - vm_compute. reflexivity.
  - unfold Rect_inside. repeat split; vm_compute; congruence.
Defined.

(** ** The edge score of the heuristic card detector *)

Example heuristic_outH_value : heuristic_outH = 202%Z.
Proof. reflexivity. Qed.

Lemma fold_add_sample_pairs {A} (f g : A -> option Q) (ss : list A) st :
  fold_left (fun st s => add_sample (add_sample st (f s)) (g s)) ss st =
  fold_left add_sample (flat_map (fun s => [f s; g s]) ss) st.
Proof.
  revert st. induction ss as [| s ss IH]; intros st; simpl.
  - reflexivity.
  - apply IH.
Qed.

(** The two loops of [edgeScore] add up the contrasts of [samplePairs], in
    order, and count them. *)
Lemma edgeScore_unfold data w h :
  edgeScore data w h =
  let st := fold_left add_sample
              (map (fun p => contrast data (fst p) (snd p)) (samplePairs w h))
              (Some 0, 0%Z) in
  match fst st with
  | Some acc => Some (acc / inject_Z (snd st))
  | None => None
  end.
Proof.
  unfold edgeScore, for_loop, samplePairs.
  rewrite map_app, fold_left_app.
  rewrite !fold_add_sample_pairs.
  rewrite !flat_map_concat_map, !concat_map, !map_map.
  reflexivity.
Qed.

Lemma fold_add_sample_Some (terms : list Q) (a : Q) (n : Z) :
  fold_left add_sample (map Some terms) (Some a, n) =
  (Some (fold_left Qplus terms a), (n + Z.of_nat (length terms))%Z).
Proof.
  revert a n. induction terms as [| t terms IH]; intros a n; simpl.
  - f_equal. lia.
  - unfold add_sample at 2; simpl. rewrite IH. f_equal. lia.
Qed.

Lemma fold_Qplus_bounds (terms : list Q) (a : Q) :
  Forall (fun t => 0 <= t <= 1) terms ->
  a <= fold_left Qplus terms a <= a + inject_Z (Z.of_nat (length terms)).
Proof.
  intros H. revert a. induction H as [| t terms [Ht0 Ht1] _ IH]; intros a.
  - cbn [fold_left length]. change (inject_Z (Z.of_nat 0)) with 0. lra.
  - cbn [fold_left length]. specialize (IH (a + t)).
    rewrite Nat2Z.inj_succ, <- Z.add_1_r, inject_Z_plus.
    change (inject_Z 1) with 1. lra.
Qed.

Lemma byteQ_bounds b : 0 <= byteQ b <= 255.
Proof.
  unfold byteQ. pose proof (Byte.to_N_bounded b) as H.
  split.
  - change 0 with (inject_Z 0). rewrite <- Zle_Qle. lia.
  - change 255 with (inject_Z 255). rewrite <- Zle_Qle. lia.
Qed.

Lemma data_get_in_range (data : list Byte.byte) i :
  (0 <= i < Z.of_nat (length data))%Z ->
  exists v, data_get data i = Some v /\ 0 <= v <= 255.
Proof.
  intros [H0 H1]. unfold data_get.
  destruct (Z.ltb_spec i 0) as [Hneg | _]; [lia |].
  destruct (lookup_lt_is_Some_2 data (Z.to_nat i)) as [b Hb]; [lia |].
  rewrite Hb. exists (byteQ b). split; [reflexivity | apply byteQ_bounds].
Qed.

Lemma lum_in_range (data : list Byte.byte) i :
  rgb_in_range (Z.of_nat (length data)) i = true ->
  exists y, lum data i = Some y /\ 0 <= y <= 255.
Proof.
  unfold rgb_in_range. rewrite andb_true_iff, Z.leb_le, Z.ltb_lt.
  intros [H0 H2]. unfold lum.
  destruct (data_get_in_range data i) as (r & -> & Hr); [lia |].
  destruct (data_get_in_range data (i + 1)) as (g & -> & Hg); [lia |].
  destruct (data_get_in_range data (i + 2)) as (b & -> & Hb); [lia |].
  eexists; split; [reflexivity | lra].
Qed.

Lemma contrast_in_range (data : list Byte.byte) i j :
  rgb_in_range (Z.of_nat (length data)) i = true ->
  rgb_in_range (Z.of_nat (length data)) j = true ->
  exists t, contrast data i j = Some t /\ 0 <= t <= 1.
Proof.
  intros Hi Hj. unfold contrast.
  destruct (lum_in_range data i Hi) as (a & -> & Ha).
  destruct (lum_in_range data j Hj) as (b & -> & Hb).
  eexists; split; [reflexivity |].
  assert (H0 : 0 <= Qabs (a - b)) by apply Qabs_nonneg.
  assert (H1 : Qabs (a - b) <= 255) by (apply Qabs_Qle_condition; lra).
  split.
  - apply Qle_shift_div_l; lra.
  - apply Qle_shift_div_r; lra.
Qed.

Lemma contrasts_in_range (data : list Byte.byte) (pairs : list (Z * Z)) :
  forallb (fun p => rgb_in_range (Z.of_nat (length data)) (fst p) &&
                    rgb_in_range (Z.of_nat (length data)) (snd p)) pairs = true ->
  exists terms : list Q,
    map (fun p => contrast data (fst p) (snd p)) pairs = map Some terms /\
    Forall (fun t => 0 <= t <= 1) terms.
Proof.
  induction pairs as [| [i j] pairs IH]; simpl.
  - intros _. exists []. split; [reflexivity | constructor].
  - rewrite !andb_true_iff. intros [[Hi Hj] Hrest].
    destruct (IH Hrest) as (terms & Hmap & Hall).
    destruct (contrast_in_range data i j Hi Hj) as (t & Ht & Hb).
    exists (t :: terms). split.
    + simpl. rewrite Ht, Hmap. reflexivity.
    + constructor; assumption.
Qed.

(** Every index that [edgeScore] reads on the 320 x 202 working raster is
    inside its buffer of 4 * 320 * 202 bytes. *)
Lemma samplePairs_in_range :
  forallb (fun p => rgb_in_range 258560 (fst p) && rgb_in_range 258560 (snd p))
          (samplePairs heuristic_outW heuristic_outH) = true.
Proof. vm_compute. reflexivity. Qed.

Lemma samplePairs_length :
  length (samplePairs heuristic_outW heuristic_outH) = 800%nat.
Proof. vm_compute. reflexivity. Qed.

(** *** The terms of the score, byte by byte *)

Lemma data_get_nth (data : list Byte.byte) i :
  (0 <= i < Z.of_nat (length data))%Z ->
  data_get data i = Some (byteQ (nth (Z.to_nat i) data Byte.x00)) /\
  F64.data_get data i = F64.of_byte (nth (Z.to_nat i) data Byte.x00).
Proof.
  intros [H0 H1]. unfold data_get, F64.data_get.
  destruct (Z.ltb_spec i 0) as [Hneg | _]; [lia |].
  destruct (lookup_lt_is_Some_2 data (Z.to_nat i)) as [b Hb]; [lia |].
  rewrite Hb, (nth_lookup_Some _ _ _ _ Hb). split; reflexivity.
Qed.

Lemma lum_nth (data : list Byte.byte) i :
  rgb_in_range (Z.of_nat (length data)) i = true ->
  let B := fun i : Z => byteQ (nth (Z.to_nat i) data Byte.x00) in
  let D := fun i : Z => F64.of_byte (nth (Z.to_nat i) data Byte.x00) in
  lum data i = Some (0.299 * B i + 0.587 * B (i + 1)%Z + 0.114 * B (i + 2)%Z) /\
  F64.lum data i
  = (0.299 * D i + 0.587 * D (i + 1)%Z + 0.114 * D (i + 2)%Z)%float.
Proof.
  unfold rgb_in_range. rewrite andb_true_iff, Z.leb_le, Z.ltb_lt.
  intros [H0 H2]. cbv zeta. unfold lum, F64.lum.
  destruct (data_get_nth data i) as [-> ->]; [lia |].
  destruct (data_get_nth data (i + 1)) as [-> ->]; [lia |].
  destruct (data_get_nth data (i + 2)) as [-> ->]; [lia |].
  split; reflexivity.
Qed.

Lemma contrasts_nth (data : list Byte.byte) (pairs : list (Z * Z)) :
  forallb (fun p => rgb_in_range (Z.of_nat (length data)) (fst p) &&
                    rgb_in_range (Z.of_nat (length data)) (snd p)) pairs = true ->
  let B := fun i : Z => byteQ (nth (Z.to_nat i) data Byte.x00) in
  let Y := fun i : Z => 0.299 * B i + 0.587 * B (i + 1)%Z + 0.114 * B (i + 2)%Z in
  let D := fun i : Z => F64.of_byte (nth (Z.to_nat i) data Byte.x00) in
  let Y64 := fun i : Z =>
    (0.299 * D i + 0.587 * D (i + 1)%Z + 0.114 * D (i + 2)%Z)%float in
  map (fun p => contrast data (fst p) (snd p)) pairs
  = map Some (map (fun p => Qabs (Y (fst p) - Y (snd p)) / 255) pairs) /\
  map (fun p => F64.contrast data (fst p) (snd p)) pairs
  = map (fun p => (abs (Y64 (fst p) - Y64 (snd p)) / 255)%float) pairs.
Proof.
  cbv zeta. induction pairs as [| [i j] pairs IH]; cbn [forallb map fst snd].
  - intros _. split; reflexivity.
  - rewrite !andb_true_iff. intros [[Hi Hj] Hrest].
    destruct (IH Hrest) as [IHq IHf]. rewrite IHq, IHf.
    unfold contrast, F64.contrast.
    destruct (lum_nth data i Hi) as [-> ->].
    destruct (lum_nth data j Hj) as [-> ->].
    split; reflexivity.
Qed.

Lemma F64_fold_add_sample_pairs {A} (f g : A -> float) (ss : list A) st :
  fold_left (fun st s => F64.add_sample (F64.add_sample st (f s)) (g s)) ss st =
  fold_left F64.add_sample (flat_map (fun s => [f s; g s]) ss) st.
Proof.
  revert st. induction ss as [| s ss IH]; intros st; simpl.
  - reflexivity.
  - apply IH.
Qed.

(** The two loops of [F64.edgeScore] add up the contrasts of [samplePairs],
    in order, and count them. *)
Lemma F64_edgeScore_unfold data w h :
  F64.edgeScore data w h =
  let st := fold_left F64.add_sample
              (map (fun p => F64.contrast data (fst p) (snd p)) (samplePairs w h))
              (0%float, 0%Z) in
  (fst st / F64.of_Z (snd st))%float.
Proof.
  unfold F64.edgeScore, for_loop, samplePairs.
  rewrite map_app, fold_left_app.
  rewrite !F64_fold_add_sample_pairs.
  rewrite !flat_map_concat_map, !concat_map, !map_map.
  reflexivity.
Qed.

Lemma F64_fold_add_sample (terms : list float) (a : float) (n : Z) :
  fold_left F64.add_sample terms (a, n) =
  (fold_left PrimFloat.add terms a, (n + Z.of_nat (length terms))%Z).
Proof.
  revert a n. induction terms as [| t terms IH]; intros a n; simpl.
  - f_equal. lia.
  - unfold F64.add_sample at 2; simpl. rewrite IH. f_equal. lia.
Qed.

(** The score on a buffer of the working raster, in exact arithmetic and in
    binary64, written out on the bytes of the buffer. *)
Lemma edgeScore_explicit (data : list Byte.byte) :
  Z.of_nat (length data) = (4 * heuristic_outW * heuristic_outH)%Z ->
  let pairs := samplePairs heuristic_outW heuristic_outH in
  let B := fun i : Z => byteQ (nth (Z.to_nat i) data Byte.x00) in
  let Y := fun i : Z => 0.299 * B i + 0.587 * B (i + 1)%Z + 0.114 * B (i + 2)%Z in
  let D := fun i : Z => F64.of_byte (nth (Z.to_nat i) data Byte.x00) in
  let Y64 := fun i : Z =>
    (0.299 * D i + 0.587 * D (i + 1)%Z + 0.114 * D (i + 2)%Z)%float in
  edgeScore data heuristic_outW heuristic_outH
  = Some (Qsum (map (fun p => Qabs (Y (fst p) - Y (snd p)) / 255) pairs) / 800) /\
  F64.edgeScore data heuristic_outW heuristic_outH
  = (fold_left PrimFloat.add
       (map (fun p => abs (Y64 (fst p) - Y64 (snd p)) / 255) pairs) 0
     / 800)%float.
Proof.
  intros Hlen. change (4 * heuristic_outW * heuristic_outH)%Z with 258560%Z in Hlen.
  pose proof samplePairs_in_range as Hr. rewrite <- Hlen in Hr.
  destruct (contrasts_nth data _ Hr) as [Hq Hf]. cbv zeta in Hq, Hf |- *.
  split.
  - rewrite edgeScore_unfold. cbv zeta. rewrite Hq, fold_add_sample_Some.
    rewrite !length_map, samplePairs_length. reflexivity.
  - rewrite F64_edgeScore_unfold. cbv zeta. rewrite Hf, F64_fold_add_sample.
    rewrite !length_map, samplePairs_length. reflexivity.
Qed.

(** C9: on every pixel buffer of the 320 x 202 working raster, with [Y] the
    luminance 0.299 R + 0.587 G + 0.114 B of the pixel at an index, the edge
    score is the arithmetic mean of the 800 terms [|Y1 - Y2| / 255] of the
    sampled pairs; each term and the score lie in [0, 1].  The code computes
    that mean in binary64: the same terms, added from the left and divided
    by 800, every operation rounded; and the detector accepts exactly when
    that computed score is strictly greater than 0.18. *)
Theorem edgeScore_mean_contrast (data : list Byte.byte) :
  Z.of_nat (length data) = (4 * heuristic_outW * heuristic_outH)%Z ->
  let pairs := samplePairs heuristic_outW heuristic_outH in
  let B := fun i : Z => byteQ (nth (Z.to_nat i) data Byte.x00) in
  let Y := fun i : Z => 0.299 * B i + 0.587 * B (i + 1)%Z + 0.114 * B (i + 2)%Z in
  let D := fun i : Z => F64.of_byte (nth (Z.to_nat i) data Byte.x00) in
  let Y64 := fun i : Z =>
    (0.299 * D i + 0.587 * D (i + 1)%Z + 0.114 * D (i + 2)%Z)%float in
  length pairs = 800%nat /\
  (exists score : Q,
     edgeScore data heuristic_outW heuristic_outH = Some score /\
     score == Qsum (map (fun p => Qabs (Y (fst p) - Y (snd p)) / 255) pairs) / 800 /\
     Forall (fun p => 0 <= Qabs (Y (fst p) - Y (snd p)) / 255 <= 1) pairs /\
     0 <= score <= 1) /\
  F64.edgeScore data heuristic_outW heuristic_outH
  = (fold_left PrimFloat.add
       (map (fun p => abs (Y64 (fst p) - Y64 (snd p)) / 255) pairs) 0
     / 800)%float /\
  F64.estimateCardHeuristic true (Ok data)
  = Ok (0.18 <? F64.edgeScore data heuristic_outW heuristic_outH)%float.
Proof.
  intros Hlen pairs B Y D Y64.
  destruct (edgeScore_explicit data Hlen) as [Hq Hf].
  cbv zeta in Hq, Hf. fold pairs in Hq, Hf.
  split; [apply samplePairs_length |].
  assert (Hterms : Forall (fun p => 0 <= Qabs (Y (fst p) - Y (snd p)) / 255 <= 1)
                          pairs).
  { apply Forall_forall. intros [i j] _. cbn [fst snd].
    assert (HB : forall k, 0 <= B k <= 255) by (intros k; apply byteQ_bounds).
    assert (HY : forall k, 0 <= Y k <= 255).
    { intros k. unfold Y. pose proof (HB k). pose proof (HB (k + 1)%Z).
      pose proof (HB (k + 2)%Z). lra. }
    pose proof (HY i) as Hi. pose proof (HY j) as Hj.
    assert (Ha0 : 0 <= Qabs (Y i - Y j)) by apply Qabs_nonneg.
    assert (Ha1 : Qabs (Y i - Y j) <= 255) by (apply Qabs_Qle_condition; lra).
    split.
    - apply Qle_shift_div_l; lra.
    - apply Qle_shift_div_r; lra. }
  split; [| split; [exact Hf | reflexivity]].
  exists (Qsum (map (fun p => Qabs (Y (fst p) - Y (snd p)) / 255) pairs) / 800).
  split; [exact Hq |]. split; [reflexivity |]. split; [exact Hterms |].
  assert (Hall : Forall (fun t => 0 <= t <= 1)
                   (map (fun p => Qabs (Y (fst p) - Y (snd p)) / 255) pairs)).
  { apply Forall_map. exact Hterms. }
  pose proof (fold_Qplus_bounds _ 0 Hall) as [Hlo Hhi].
  assert (Hn : length (map (fun p => Qabs (Y (fst p) - Y (snd p)) / 255) pairs)
               = 800%nat) by (rewrite length_map; apply samplePairs_length).
  rewrite Hn in Hhi.
  change (inject_Z (Z.of_nat 800)) with 800 in Hhi.
  unfold Qsum. split.
  - apply Qle_shift_div_l; lra.
  - apply Qle_shift_div_r; lra.
Qed.

Lemma edgeScore_mean_contrast_witness :
  let data := threshold_image in
  let pairs := samplePairs heuristic_outW heuristic_outH in
  let B := fun i : Z => byteQ (nth (Z.to_nat i) data Byte.x00) in
  let Y := fun i : Z => 0.299 * B i + 0.587 * B (i + 1)%Z + 0.114 * B (i + 2)%Z in
  let D := fun i : Z => F64.of_byte (nth (Z.to_nat i) data Byte.x00) in
  let Y64 := fun i : Z =>
    (0.299 * D i + 0.587 * D (i + 1)%Z + 0.114 * D (i + 2)%Z)%float in
  length pairs = 800%nat /\
  (exists score : Q,
     edgeScore data heuristic_outW heuristic_outH = Some score /\
     score == Qsum (map (fun p => Qabs (Y (fst p) - Y (snd p)) / 255) pairs) / 800 /\
     Forall (fun p => 0 <= Qabs (Y (fst p) - Y (snd p)) / 255 <= 1) pairs /\
     0 <= score <= 1) /\
  F64.edgeScore data heuristic_outW heuristic_outH
  = (fold_left PrimFloat.add
       (map (fun p => abs (Y64 (fst p) - Y64 (snd p)) / 255) pairs) 0
     / 800)%float /\
  F64.estimateCardHeuristic true (Ok data)
  = Ok (0.18 <? F64.edgeScore data heuristic_outW heuristic_outH)%float.
Proof.
  apply (edgeScore_mean_contrast threshold_image).
  vm_compute. reflexivity.
Defined.


(** ** The contour card detector *)

(** Creating an object that is not in the heap and releasing it again
    leaves the heap as it was. *)
Lemma create_delete_fresh (n : nat) (L : gset nat) :
  n ∉ L -> ({[n]} ∪ L) ∖ {[n]} = L.
Proof.
  intros Hn. apply set_eq. intros x. set_unfold. split.
  - intros [[-> | H] Hne]; [congruence | exact H].
  - intros H. split; [right; exact H | intros ->; exact (Hn H)].
Qed.

(** The same for the seven objects of [estimateCardOpenCV], released in the
    order of its cleanup. *)
Lemma create_delete_seven (n : nat) (L : gset nat) :
  (forall k, (n + k)%nat ∉ L) -> n ∉ L ->
  ({[(n + 6)%nat]} ∪ ({[(n + 5)%nat]} ∪ ({[(n + 4)%nat]} ∪ ({[(n + 3)%nat]} ∪
     ({[(n + 2)%nat]} ∪ ({[(n + 1)%nat]} ∪ ({[n]} ∪ L)))))))
  ∖ {[n]} ∖ {[(n + 1)%nat]} ∖ {[(n + 2)%nat]} ∖ {[(n + 3)%nat]}
  ∖ {[(n + 5)%nat]} ∖ {[(n + 6)%nat]} ∖ {[(n + 4)%nat]} = L.
Proof.
  intros Hf H0. apply set_eq. intros x. set_unfold. split.
  - intros H. tauto.
  - intros H.
    assert (x ≠ n) by (intros ->; tauto).
    assert (forall k, x ≠ (n + k)%nat) by (intros k ->; exact (Hf k H)).
    repeat split; auto 10.
Qed.

Section ContourDetector.

Variable eng : Engine.

Lemma call_ok c h : throws eng c = false -> call eng c h = (h, Ok tt).
Proof. intros H. unfold call. rewrite H. reflexivity. Qed.

Lemma call_throws c h : throws eng c = true -> call eng c h = (h, Throw).
Proof. intros H. unfold call. rewrite H. reflexivity. Qed.

Lemma create_ok c h :
  throws eng c = false ->
  create eng c h =
  ({| next := S (next h); live := {[next h]} ∪ live h |}, Ok (next h)).
Proof. intros H. unfold create, bind. rewrite call_ok by exact H. reflexivity. Qed.

(** One iteration of the loop when no call throws: the contour is fetched and
    released again, and the loop stops exactly when it is accepted. *)
Lemma contour_loop_step areaROI c rest i h :
  (forall c, throws eng c = false) ->
  contour_loop eng areaROI (c :: rest) i h =
  let h' := {| next := S (next h); live := ({[next h]} ∪ live h) ∖ {[next h]} |} in
  if contour_accepted areaROI c then (h', Ok true)
  else contour_loop eng areaROI rest (S i) h'.
Proof.
  intros Hno. cbn [contour_loop]. unfold bind at 1.
  rewrite create_ok by apply Hno. unfold bind at 1.
  rewrite call_ok by apply Hno. unfold contour_accepted.
  destruct (JS.ltb (contour_area c) (areaROI * 0.05)); cbn [negb andb].
  { reflexivity. }
  unfold bind at 1. rewrite call_ok by apply Hno.
  destruct (JS.leb (rr_width c * rr_height c) 0); cbn [negb andb].
  { reflexivity. }
  match goal with |- context [if ?b then _ else _] => destruct b end;
    reflexivity.
Qed.

Lemma contour_loop_result areaROI cs i h :
  (forall c, throws eng c = false) ->
  snd (contour_loop eng areaROI cs i h) = Ok (existsb (contour_accepted areaROI) cs) /\
  next (fst (contour_loop eng areaROI cs i h)) = (next h + contours_fetched areaROI cs)%nat.
Proof.
  intros Hno. revert i h. induction cs as [| c rest IH]; intros i h.
  - cbn. split; [reflexivity | lia].
  - rewrite contour_loop_step by exact Hno. cbn [existsb contours_fetched].
    cbv zeta. destruct (contour_accepted areaROI c); cbn [orb].
    + cbn. split; [reflexivity | lia].
    + destruct (IH (S i) {| next := S (next h);
                           live := ({[next h]} ∪ live h) ∖ {[next h]} |})
        as [Hres Hnext].
      rewrite Hres, Hnext. cbn. split; [reflexivity | lia].
Qed.

Lemma contour_loop_live areaROI cs i h :
  (forall c, throws eng c = false) ->
  Heap_wf h ->
  live (fst (contour_loop eng areaROI cs i h)) = live h.
Proof.
  intros Hno. revert i h. induction cs as [| c rest IH]; intros i h Hwf.
  - reflexivity.
  - rewrite contour_loop_step by exact Hno. cbv zeta.
    assert (Hfresh : next h ∉ live h).
    { intros Hin. apply Hwf in Hin. lia. }
    rewrite (create_delete_fresh _ _ Hfresh).
    destruct (contour_accepted areaROI c).
    + reflexivity.
    + rewrite IH; [reflexivity |].
      intros obj Hobj. cbn in *. apply Hwf in Hobj. lia.
Qed.

End ContourDetector.

(** [contour_accepted] decides the acceptance test of the specification: the
    test [rectArea <= 0] of the code is implied by the lower bound on the
    rectangle area. *)
Lemma contour_accepted_card_like areaROI c :
  0 <= areaROI ->
  contour_accepted areaROI c = true <-> card_like areaROI c.
Proof.
  intros HA. unfold contour_accepted, card_like. cbv zeta.
  rewrite !andb_true_iff, !negb_true_iff, !gtb_gt, !ltb_lt, ltb_ge.
  split.
  - intros [[H5 _] [[[[H12 H98] Hlo] Hhi] Hrect]]. tauto.
  - intros (H5 & H12 & H98 & Hlo & Hhi & Hrect).
    repeat split; try assumption.
    destruct (JS.leb (rr_width c * rr_height c) 0) eqn:E; [| reflexivity].
    apply leb_le in E. lra.
Qed.

Lemma existsb_contour_accepted areaROI cs :
  0 <= areaROI ->
  existsb (contour_accepted areaROI) cs = true <-> Exists (card_like areaROI) cs.
Proof.
  intros HA. rewrite existsb_exists, Stdlib.Lists.List.Exists_exists.
  split; intros (c & Hin & Hc); exists c; split; try exact Hin;
    apply (contour_accepted_card_like areaROI c HA); exact Hc.
Qed.

(** The loop fetches the contours before the first accepted one, and that
    one. *)
Lemma contours_fetched_first areaROI l1 c l2 :
  0 <= areaROI ->
  Forall (fun c => ~ card_like areaROI c) l1 ->
  card_like areaROI c ->
  contours_fetched areaROI (l1 ++ c :: l2) = S (length l1).
Proof.
  intros HA Hl1 Hc. induction Hl1 as [| c1 l1 Hc1 _ IH]; cbn [app contours_fetched length].
  - apply (contour_accepted_card_like areaROI c HA) in Hc. rewrite Hc. reflexivity.
  - destruct (contour_accepted areaROI c1) eqn:E.
    + apply (contour_accepted_card_like areaROI c1 HA) in E. contradiction.
    + rewrite IH. reflexivity.
Qed.

Lemma contours_fetched_all areaROI cs :
  0 <= areaROI ->
  Forall (fun c => ~ card_like areaROI c) cs ->
  contours_fetched areaROI cs = length cs.
Proof.
  intros HA H. induction H as [| c cs Hc _ IH]; cbn [contours_fetched length].
  - reflexivity.
  - destruct (contour_accepted areaROI c) eqn:E.
    + apply (contour_accepted_card_like areaROI c HA) in E. contradiction.
    + rewrite IH. reflexivity.
Qed.

Example opencv_areaROI_value : opencv_areaROI == 183600.
Proof. reflexivity. Qed.

(** The heap when the loop over the contours starts: the seven objects
    [src], [gray], [blur], [edges], [kernel], [contours] and [hierarchy] have
    been created. *)
Lemma estimateCardOpenCV_unfold eng h :
  (forall c, throws eng c = false) ->
  cv_present eng = true ->
  let n := next h in
  let h7 := {| next := n + 7;
               live := {[n + 6]} ∪ ({[n + 5]} ∪ ({[n + 4]} ∪ ({[n + 3]} ∪
                       ({[n + 2]} ∪ ({[n + 1]} ∪ ({[n]} ∪ live h)))))) |}%nat in
  estimateCardOpenCV eng true h =
  match contour_loop eng opencv_areaROI (detector_contours eng) 0 h7 with
  | (h8, Ok ok) =>
      ({| next := next h8;
          live := live h8 ∖ {[n]} ∖ {[n + 1]} ∖ {[n + 2]} ∖ {[n + 3]}
                  ∖ {[n + 5]} ∖ {[n + 6]} ∖ {[n + 4]} |}%nat, Ok ok)
  | (h8, Throw) => (h8, Throw)
  end.
Proof.
  intros Hno Hcv. unfold detector_contours, estimateCardOpenCV.
  rewrite Hcv. cbn [negb].
  destruct (autoCanny (blur_data eng)) as [lower upper].
  cbv zeta.
  unfold bind at 1. rewrite call_ok by apply Hno.
  do 5 (unfold bind at 1; rewrite create_ok by apply Hno).
  do 5 (unfold bind at 1; rewrite call_ok by apply Hno).
  do 2 (unfold bind at 1; rewrite create_ok by apply Hno).
  unfold bind at 1; rewrite call_ok by apply Hno.
  cbn [next live]. unfold bind at 1.
  replace (S (next h)) with (next h + 1)%nat by lia.
  replace (S (next h + 1)) with (next h + 2)%nat by lia.
  replace (S (next h + 2)) with (next h + 3)%nat by lia.
  replace (S (next h + 3)) with (next h + 4)%nat by lia.
  replace (S (next h + 4)) with (next h + 5)%nat by lia.
  replace (S (next h + 5)) with (next h + 6)%nat by lia.
  replace (S (next h + 6)) with (next h + 7)%nat by lia.
  match goal with
  | |- context [contour_loop eng ?A ?cs 0 ?h7] =>
      destruct (contour_loop eng A cs 0 h7) as [h8 [ok |]]
  end; reflexivity.
Qed.

(** A complete run of [estimateCardOpenCV] in which no call throws. *)
Lemma estimateCardOpenCV_run eng h :
  (forall c, throws eng c = false) ->
  cv_present eng = true ->
  let cs := detector_contours eng in
  let out := estimateCardOpenCV eng true h in
  snd out = Ok (existsb (contour_accepted opencv_areaROI) cs) /\
  next (fst out) = (next h + 7 + contours_fetched opencv_areaROI cs)%nat /\
  (Heap_wf h -> live (fst out) = live h).
Proof.
  intros Hno Hcv cs out. subst out.
  rewrite (estimateCardOpenCV_unfold eng h Hno Hcv). cbv zeta. fold cs.
  match goal with
  | |- context [contour_loop eng _ cs 0 ?h] => set (h7 := h)
  end.
  destruct (contour_loop_result eng opencv_areaROI cs 0 h7 Hno) as [Hres Hnext].
  pose proof (contour_loop_live eng opencv_areaROI cs 0 h7 Hno) as Hlive.
  destruct (contour_loop eng opencv_areaROI cs 0 h7) as [h8 r].
  cbn [fst snd] in Hres, Hnext, Hlive. subst r. cbn [fst snd next live].
  split; [reflexivity |]. split.
  - rewrite Hnext. reflexivity.
  - intros Hwf.
    assert (Hfresh : forall k, (next h + k)%nat ∉ live h).
    { intros k Hin. apply Hwf in Hin. lia. }
    rewrite Hlive.
    + subst h7. cbn [live].
      apply create_delete_seven; [exact Hfresh |].
      intros Hin. apply Hwf in Hin. lia.
    + subst h7. intros obj Hobj. cbn [live next] in *.
      set_unfold.
      repeat (destruct Hobj as [Hobj | Hobj]; [lia |]).
      apply Hwf in Hobj. lia.
Qed.

(** C8: when the engine is present and no call throws, the detector returns
    true exactly when some contour passes the acceptance test of the
    specification, false exactly when none does, and the loop stops at the
    first such contour: the contours after it are not fetched.  (The objects
    created during the call are the seven fixed ones and one per contour
    fetched with [contours.get], so [next] counts the contours fetched.) *)
Theorem estimateCardOpenCV_accepts eng h :
  (forall c, throws eng c = false) ->
  cv_present eng = true ->
  let cs := detector_contours eng in
  let out := estimateCardOpenCV eng true h in
  (snd out = Ok true <-> Exists (card_like opencv_areaROI) cs) /\
  (snd out = Ok false <-> Forall (fun c => ~ card_like opencv_areaROI c) cs) /\
  (forall l1 c l2,
      cs = l1 ++ c :: l2 ->
      Forall (fun c => ~ card_like opencv_areaROI c) l1 ->
      card_like opencv_areaROI c ->
      next (fst out) = (next h + 7 + S (length l1))%nat).
Proof.
  intros Hno Hcv cs out.
  destruct (estimateCardOpenCV_run eng h Hno Hcv) as (Hres & Hnext & _).
  fold cs in Hres, Hnext. fold out in Hres, Hnext.
  assert (HA : 0 <= opencv_areaROI) by (vm_compute; congruence).
  destruct (existsb_contour_accepted opencv_areaROI cs HA) as [Hex1 Hex2].
  split; [| split].
  - rewrite Hres.
    destruct (existsb (contour_accepted opencv_areaROI) cs).
    + split; [intros _; apply Hex1; reflexivity | reflexivity].
    + split; [congruence |]. intros H. apply Hex2 in H. congruence.
  - rewrite Hres.
    destruct (existsb (contour_accepted opencv_areaROI) cs).
    + split; [congruence |]. intros Hall. exfalso.
      specialize (Hex1 eq_refl).
      apply Stdlib.Lists.List.Exists_exists in Hex1.
      destruct Hex1 as (c & Hin & Hc).
      rewrite Stdlib.Lists.List.Forall_forall in Hall.
      exact (Hall c Hin Hc).
    + split; [intros _ | reflexivity].
      apply Stdlib.Lists.List.Forall_forall. intros c Hin Hc.
      assert (Hex' : Exists (card_like opencv_areaROI) cs).
      { apply Stdlib.Lists.List.Exists_exists. exists c. split; assumption. }
      apply Hex2 in Hex'. congruence.
  - intros l1 c l2 Hcs Hl1 Hc. rewrite Hnext, Hcs.
    rewrite (contours_fetched_first opencv_areaROI l1 c l2 HA Hl1 Hc).
    reflexivity.
Qed.

Lemma estimateCardOpenCV_accepts_witness :
  let cs := detector_contours engine_with_card in
  let out := estimateCardOpenCV engine_with_card true empty_heap in
  (snd out = Ok true <-> Exists (card_like opencv_areaROI) cs) /\
  (snd out = Ok false <-> Forall (fun c => ~ card_like opencv_areaROI c) cs) /\
  (forall l1 c l2,
      cs = l1 ++ c :: l2 ->
      Forall (fun c => ~ card_like opencv_areaROI c) l1 ->
      card_like opencv_areaROI c ->
      next (fst out) = (next empty_heap + 7 + S (length l1))%nat).
Proof.
  apply (estimateCardOpenCV_accepts engine_with_card empty_heap).
  - reflexivity.
  - reflexivity.
Defined.

(** On [engine_with_card] the detector answers true after fetching two of the
    three contours. *)
Example estimateCardOpenCV_engine_with_card :
  let out := estimateCardOpenCV engine_with_card true empty_heap in
  snd out = Ok true /\ next (fst out) = 9%nat.
Proof.
  destruct (estimateCardOpenCV_run engine_with_card empty_heap)
    as (Hres & Hnext & _); [reflexivity | reflexivity |].
  cbv zeta in *. rewrite Hres, Hnext. split; vm_compute; reflexivity.
Qed.

(** ** Release of the vision-engine objects *)

Lemma empty_heap_wf : Heap_wf empty_heap.
Proof. intros obj Hobj. cbn in Hobj. set_solver. Qed.

(** The paths on which [estimateCardOpenCV] does release what it created:
    on every run in which no call throws, whether the detector answers true
    or false and whether or not it gets as far as the engine, every object
    created during the call has been released when it returns (each contour
    by [cnt.delete()] before [continue], before [break] and at the end of
    the loop body, the seven others by the cleanup block), so the live
    objects are those that were live before. *)
Theorem estimateCardOpenCV_releases eng ctx h :
  Heap_wf h ->
  (forall c, throws eng c = false) ->
  let out := estimateCardOpenCV eng ctx h in
  (exists ok, snd out = Ok ok) /\
  live (fst out) = live h /\
  (forall obj, (next h <= obj)%nat -> obj ∉ live (fst out)).
Proof.
  intros Hwf Hno out.
  assert (H : (exists ok, snd out = Ok ok) /\ live (fst out) = live h).
  { subst out. destruct (cv_present eng) eqn:Hcv.
    - destruct ctx.
      + destruct (estimateCardOpenCV_run eng h Hno Hcv) as (Hres & _ & Hlive).
        split; [eexists; exact Hres | exact (Hlive Hwf)].
      + unfold estimateCardOpenCV. rewrite Hcv. cbn. eauto.
    - unfold estimateCardOpenCV. rewrite Hcv. cbn. eauto. }
  destruct H as [Hok Hlive]. repeat split; try assumption.
  intros obj Hle Hin. rewrite Hlive in Hin. apply Hwf in Hin. lia.
Qed.

Lemma estimateCardOpenCV_releases_witness :
  let out := estimateCardOpenCV engine_with_card true empty_heap in
  (exists ok, snd out = Ok ok) /\
  live (fst out) = live empty_heap /\
  (forall obj, (next empty_heap <= obj)%nat -> obj ∉ live (fst out)).
Proof.
  apply (estimateCardOpenCV_releases engine_with_card true empty_heap).
  - intros obj Hobj. cbn in Hobj. set_solver.
  - reflexivity.
Defined.

(** C6 (fails on the code): the release is missing on the exceptional
    exit.  When [cv.cvtColor] throws, the call ends with the exception, which
    the caller catches, and the five objects created before it ([src],
    [gray], [blur], [edges], [kernel]) are still live: the cleanup block is
    straight-line code after the loop, with no [try]/[finally] around the
    calls of the engine. *)
Lemma estimateCardOpenCV_leaks_on_throw :
  let out := estimateCardOpenCV engine_cvtColor_throws true empty_heap in
  snd out = Throw /\
  live (fst out) = {[0; 1; 2; 3; 4]}%nat /\
  ~ live (fst out) = live empty_heap.
Proof.
  cbv zeta.
  assert (E : estimateCardOpenCV engine_cvtColor_throws true empty_heap =
              ({| next := 5;
                  live := {[4]} ∪ ({[3]} ∪ ({[2]} ∪ ({[1]} ∪ ({[0]} ∪ ∅)))) |}%nat,
               Throw)) by reflexivity.
  rewrite E. cbn [fst snd live empty_heap].
  split; [reflexivity |]. split; set_solver.
Qed.

(** ** Detection flags after a tick *)

(** Arming the timer does not touch the detection flags. *)
Lemma detectionTick_autoCapture_faceInsideRef f s :
  faceInsideRef (detectionTick_autoCapture f s) = faceInsideRef s.
Proof.
  unfold detectionTick_autoCapture.
  destruct (tc_autoCapture f && negb (tc_capturePending f)); [| reflexivity].
  destruct (ok_flag s); reflexivity.
Qed.

Lemma detectionTick_autoCapture_cardOkRef f s :
  cardOkRef (detectionTick_autoCapture f s) = cardOkRef s.
Proof.
  unfold detectionTick_autoCapture.
  destruct (tc_autoCapture f && negb (tc_capturePending f)); [| reflexivity].
  destruct (ok_flag s); reflexivity.
Qed.

(** When both attempts of the card branch throw, the exception reaches the
    outer [catch]. *)
Lemma card_attempts_throw o map s :
  let rv := canvasRectToVideoRect (cardOverlayRectCanvas (cW map) (cH map)) map in
  canvas2d s = true ->
  grab o rv = Throw ->
  ensureOpenCV o = Throw \/ isOpenCVReady o = false \/
  snd (estimateCardOpenCV (engine o rv) true (cv_heap s)) = Throw ->
  snd (card_attempts o map s) = Throw.
Proof.
  intros rv Hctx Hgrab H. unfold card_attempts. fold rv.
  rewrite Hctx, Hgrab.
  assert (Hh : estimateCardHeuristic true (@Throw (list Byte.byte)) = Throw)
    by reflexivity.
  rewrite Hh.
  destruct H as [H | [H | H]].
  - rewrite H. reflexivity.
  - rewrite H. destruct (ensureOpenCV o); reflexivity.
  - destruct (ensureOpenCV o); [| reflexivity].
    destruct (isOpenCVReady o); [| reflexivity].
    rewrite H. reflexivity.
Qed.

(** C4 (as the code has it): in a tick that reaches the detector, a face
    detector that finds no face leaves [faceInsideRef] false, and a card
    detection that completes with the answer false leaves [cardOkRef] false;
    but when the face detector throws [faceInsideRef] keeps the value it
    had, and when the card branch ends in an exception (the heuristic
    detector throws after the contour detector was unavailable or threw)
    [cardOkRef] keeps the value it had. *)
Theorem detectionTick_flag_on_failure f o s map :
  isOpen (props s) = true ->
  mappingRef s = Some map ->
  let s' := detectionTick f o s in
  (overlayRef s = face -> faceModelsLoadedRef s = true ->
   (detectSingleFace o = Ok None -> faceInsideRef s' = false) /\
   (detectSingleFace o = Throw -> faceInsideRef s' = faceInsideRef s)) /\
  (overlayRef s = card ->
   (snd (card_attempts o map s) = Ok false -> cardOkRef s' = false) /\
   (snd (card_attempts o map s) = Throw -> cardOkRef s' = cardOkRef s)).
Proof.
  intros Hopen Hmap s'. subst s'. unfold detectionTick.
  rewrite Hopen, Hmap. cbn [negb]. split.
  - intros Hface Hloaded. rewrite Hface, Hloaded.
    rewrite detectionTick_autoCapture_faceInsideRef.
    unfold detectionTick_face. split; intros Hdet; rewrite Hdet; reflexivity.
  - intros Hcard. rewrite Hcard.
    rewrite detectionTick_autoCapture_cardOkRef.
    unfold detectionTick_card. cbv zeta.
    split; intros Hout; rewrite Hout; reflexivity.
Qed.

Lemma detectionTick_flag_on_failure_witness :
  let f := memo_start demo_streaming in
  let o := oracle_throws in
  let s := period oracle_framed demo_streaming in
  let map := draw_mapping 1125 2001 1440 2560 true in
  let s' := detectionTick f o s in
  (overlayRef s = face -> faceModelsLoadedRef s = true ->
   (detectSingleFace o = Ok None -> faceInsideRef s' = false) /\
   (detectSingleFace o = Throw -> faceInsideRef s' = faceInsideRef s)) /\
  (overlayRef s = card ->
   (snd (card_attempts o map s) = Ok false -> cardOkRef s' = false) /\
   (snd (card_attempts o map s) = Throw -> cardOkRef s' = cardOkRef s)).
Proof.
  apply (detectionTick_flag_on_failure
           (memo_start demo_streaming) oracle_throws
           (period oracle_framed demo_streaming)
           (draw_mapping 1125 2001 1440 2560 true)).
  - vm_compute. reflexivity.
  - vm_compute. reflexivity.
Defined.

(** C4 (fails on the code): the face is framed in one tick, so
    [faceInsideRef] is true; in the next tick the face detector throws, and
    [faceInsideRef] is still true after it. *)
Lemma faceInsideRef_sticky_on_throw :
  let s := period oracle_framed demo_streaming in
  let s' := period oracle_throws s in
  overlayRef s = face /\
  faceInsideRef s = true /\
  detectSingleFace oracle_throws = Throw /\
  faceInsideRef s' = true.
Proof. vm_compute. repeat split; reflexivity. Qed.

(** The same in card mode: after a tick in which the card was found, a tick
    in which the contour detector throws and the heuristic detector throws
    too leaves [cardOkRef] true. *)
Example cardOkRef_sticky_on_throw :
  let s := run demo_streaming
               [ClickOverlay card; AnimationFrame demo_frame; Period oracle_framed] in
  let s' := period oracle_throws s in
  overlayRef s = card /\ cardOkRef s = true /\ cardOkRef s' = true.
Proof. vm_compute. repeat split; reflexivity. Qed.

(** ** The auto-capture timer *)


Lemma rerender_interval_cells s :
  interval_cells (rerender s) = interval_cells s.
Proof. reflexivity. Qed.

Lemma capture_interval_cells s :
  interval_cells (capture s) = interval_cells s.
Proof. unfold capture. preserved. Qed.

Lemma timer_body_interval_cells s :
  interval_cells (timer_body s) = interval_cells s.
Proof.
  unfold timer_body. cbv zeta.
  change (interval_cells (setCapturePending false
            (if ok_flag s then capture s else s)))
    with (interval_cells (if ok_flag s then capture s else s)).
  destruct (ok_flag s); [apply capture_interval_cells | reflexivity].
Qed.

Lemma fire_due_interval_cells t s :
  interval_cells (fire_due t s) = interval_cells s.
Proof.
  unfold fire_due. cbv zeta.
  change (interval_cells s)
    with (interval_cells
            (set_timeouts (List.filter (fun d => negb (d <=? t)%Z) (timeouts s)) s)).
  generalize (set_timeouts (List.filter (fun d => negb (d <=? t)%Z) (timeouts s)) s).
  induction (List.filter (fun d => (d <=? t)%Z) (timeouts s)) as [| d due IH];
    intros s0; cbn [fold_left].
  - reflexivity.
  - rewrite IH, timer_body_interval_cells. reflexivity.
Qed.

Lemma detectionTick_interval_cells f o s :
  interval_cells (detectionTick f o s) = interval_cells s.
Proof.
  unfold detectionTick, detectionTick_autoCapture, detectionTick_face,
    detectionTick_card.
  preserved.
Qed.

Lemma period_interval_cells o s :
  interval_cells (period o s) = interval_cells s.
Proof.
  unfold period. cbv zeta.
  assert (E : interval_cells (set_now (now s + tick_period)%Z
                                (fire_due (now s + tick_period)%Z s))
              = interval_cells s) by apply fire_due_interval_cells.
  destruct (detectionTimerRef _); [rewrite detectionTick_interval_cells |];
    exact E.
Qed.

Lemma stale_closure_step p s e :
  stale_closure p s -> stale_closure p (step s e).
Proof.
  unfold stale_closure. intros [Hstart Htimer].
  assert (Keep : forall s', interval_cells s' = interval_cells s ->
                 memo_start s' = memo_start s /\
                 detectionTimerRef s' = detectionTimerRef s).
  { unfold interval_cells. intros s' E. inversion E. split; reflexivity. }
  assert (Done : forall s', memo_start s' = memo_start s ->
                 (detectionTimerRef s' = None \/
                  detectionTimerRef s' = detectionTimerRef s \/
                  detectionTimerRef s' = Some (memo_start s)) ->
                 memo_start s' =
                   {| tc_autoCapture := autoCapture p;
                      tc_autoCaptureDelayMs := autoCaptureDelayMs p;
                      tc_capturePending := false |} /\
                 (detectionTimerRef s' = None \/
                  detectionTimerRef s' = Some (memo_start s'))).
  { intros s' Hm Ht. rewrite Hm. split; [exact Hstart |].
    destruct Ht as [Ht | [Ht | Ht]]; rewrite Ht; auto. }
  destruct e as [p' | ok | | fr | o | | | m |]; cbn [step].
  - apply Done.
    + unfold parentRender. preserved.
    + unfold parentRender. cbv zeta.
      repeat break_match; auto.
  - apply Done.
    + unfold start_settled, onPlaying. preserved.
    + unfold start_settled, onPlaying. cbv zeta.
      repeat break_match; cbn in *; auto; try congruence.
  - apply Done; auto.
  - apply Done; unfold draw; [preserved | repeat break_match; auto].
  - destruct (Keep _ (period_interval_cells o s)) as [E1 E2].
    apply Done; auto.
  - apply Done; [preserved | repeat break_match; auto].
  - apply Done; unfold capture; [preserved | repeat break_match; auto].
  - apply Done; [preserved | repeat break_match; auto].
  - apply Done; unfold start_play_rejected;
      [preserved | cbv zeta; repeat break_match; auto].
Qed.

Lemma stale_closure_mount p ctx : stale_closure p (mount p ctx).
Proof.
  unfold stale_closure, mount. cbv zeta.
  destruct (isOpen p); split; cbn; auto.
Qed.

(** Whatever happens after the first render, the function that the detection
    interval runs sees [capturePending] false, and the [autoCapture] and the
    delay of the first render. *)
Lemma interval_closure_is_stale p ctx es f :
  detectionTimerRef (run (mount p ctx) es) = Some f ->
  f = {| tc_autoCapture := autoCapture p;
         tc_autoCaptureDelayMs := autoCaptureDelayMs p;
         tc_capturePending := false |}.
Proof.
  assert (H : stale_closure p (run (mount p ctx) es)).
  { unfold run. generalize (stale_closure_mount p ctx).
    generalize (mount p ctx). induction es as [| e es IH]; intros s Hs.
    - exact Hs.
    - cbn [fold_left]. apply IH. apply stale_closure_step. exact Hs. }
  destruct H as [Hstart [Hnone | Hsome]]; intros Hf.
  - congruence.
  - rewrite Hsome in Hf. inversion Hf; subst. exact Hstart.
Qed.

(** A tick run by such a function arms a timer whenever the flag of the
    active mode is true, whatever the state cell [capturePending] holds. *)
Lemma detectionTick_autoCapture_rearms f s :
  tc_autoCapture f = true ->
  tc_capturePending f = false ->
  ok_flag s = true ->
  timeouts (detectionTick_autoCapture f s) =
  timeouts s ++ [(now s + tc_autoCaptureDelayMs f)%Z].
Proof.
  intros Ha Hp Hok. unfold detectionTick_autoCapture.
  rewrite Ha, Hp, Hok. reflexivity.
Qed.

(** C3 (fails on the code): in every session with auto-capture, the
    function that the detection interval runs arms a timer on each tick in
    which the flag of the active mode is true, also while [capturePending]
    is true and timers are pending: its guard reads the [capturePending] of
    the first render.  With auto-capture after 5000 ms and a face that stays
    framed, the first tick (at 333 ms) arms a timer due at 5333 ms and sets
    [capturePending]; the second tick (at 666 ms) arms a second timer, due
    at 5666 ms; after 18 ticks two captures have been delivered. *)
Theorem second_timer_while_armed :
  (forall p ctx es f s,
      detectionTimerRef (run (mount p ctx) es) = Some f ->
      autoCapture p = true ->
      ok_flag s = true ->
      timeouts (detectionTick_autoCapture f s) =
      timeouts s ++ [(now s + autoCaptureDelayMs p)%Z]) /\
  (let s1 := period oracle_framed demo_streaming in
   let s2 := period oracle_framed s1 in
   (capturePending s1 = true /\ timeouts s1 = [5333%Z]) /\
   (capturePending s2 = true /\ timeouts s2 = [5333%Z; 5666%Z]) /\
   onCapture_calls (run demo_streaming (repeat (Period oracle_framed) 18))
   = [Some 5333%Z; Some 5666%Z]).
Proof.
  split.
  - intros p ctx es f s Hf Hauto Hok.
    apply interval_closure_is_stale in Hf. subst f.
    rewrite detectionTick_autoCapture_rearms; cbn; auto.
  - vm_compute. repeat split; reflexivity.
Qed.

(** A change of the guide mode while a timer is pending: the timer stays, and
    when it fires it reads the flag of the new mode. *)
Lemma setOverlay_cells m s :
  let s' := setOverlay m s in
  overlayRef s' = m /\ timeouts s' = timeouts s /\
  capturePending s' = capturePending s /\
  faceInsideRef s' = faceInsideRef s /\ cardOkRef s' = cardOkRef s /\
  onCapture_calls s' = onCapture_calls s /\
  props s' = props s /\ canvas2d s' = canvas2d s.
Proof. cbv zeta. repeat split; reflexivity. Qed.

(** One timeout fires at time [d] in an open session with a 2D context whose
    mode ref agrees with the mode state: a capture is delivered exactly when
    the flag of the mode in [overlayRef] is true; [capturePending] is reset. *)
Lemma timer_body_fires s d :
  isOpen (props s) = true ->
  canvas2d s = true ->
  overlayRef s = overlay s ->
  let s1 := timer_body (set_now d s) in
  onCapture_calls s1 = onCapture_calls s ++ (if ok_flag s then [Some d] else []) /\
  (props s1 = props s /\ canvas2d s1 = canvas2d s /\
   overlayRef s1 = overlayRef s /\ overlay s1 = overlay s /\
   faceInsideRef s1 = faceInsideRef s /\ cardOkRef s1 = cardOkRef s /\
   timeouts s1 = timeouts s) /\
  capturePending s1 = false.
Proof.
  destruct s as [pr ov cp ist ovr raf dtr str fml lfb fir cor mr mdt mst nw
                 tos occ hp c2 stg].
  unfold ok_flag.
  cbn [props canvas2d overlayRef overlay timeouts faceInsideRef cardOkRef
       onCapture_calls].
  intros Hopen -> ->.
  unfold timer_body, ok_flag, capture, setCapturePending, rerender,
    render_hooks, commit_overlay, onCapture.
  cbn -[useCallback_detectionTick].
  destruct (match ov with face => fir | card => cor end).
  - rewrite Hopen. cbn -[useCallback_detectionTick]. auto 10.
  - cbn -[useCallback_detectionTick]. rewrite app_nil_r. auto 10.
Qed.

Lemma fold_timer_body_fires (due : list Z) s :
  isOpen (props s) = true ->
  canvas2d s = true ->
  overlayRef s = overlay s ->
  let s1 := fold_left (fun s d => timer_body (set_now d s)) due s in
  onCapture_calls s1
  = onCapture_calls s ++ (if ok_flag s then map Some due else []) /\
  timeouts s1 = timeouts s /\
  (due <> [] -> capturePending s1 = false).
Proof.
  revert s. induction due as [| d due IH]; intros s Hopen Hctx Hsync;
    cbn [fold_left map].
  - split; [destruct (ok_flag s); rewrite app_nil_r; reflexivity |].
    split; [reflexivity | congruence].
  - destruct (timer_body_fires s d Hopen Hctx Hsync)
      as (Hcalls & (Hp & Hc & Ho & Hov & Hf & Hcd & Ht) & Hpend).
    cbv zeta in Hcalls, Hp, Hc, Ho, Hov, Hf, Hcd, Ht, Hpend.
    set (s0 := timer_body (set_now d s)) in *.
    assert (Hflag : ok_flag s0 = ok_flag s).
    { unfold ok_flag. rewrite Ho, Hf, Hcd. reflexivity. }
    destruct (IH s0) as (IH1 & IH2 & IH3); try congruence.
    cbv zeta in IH1, IH2, IH3.
    rewrite IH1, IH2, Hcalls, Hflag, Ht.
    split; [| split].
    + destruct (ok_flag s); cbn [map app]; rewrite <- app_assoc; reflexivity.
    + reflexivity.
    + intros _. destruct due as [| d' due'].
      * exact Hpend.
      * apply IH3. discriminate.
Qed.

(** The timeouts that are due at [t] fire, oldest first: each delivers a
    capture exactly when the flag of the mode that is active then is
    true. *)
Lemma fire_due_fires s t :
  isOpen (props s) = true ->
  canvas2d s = true ->
  overlayRef s = overlay s ->
  let due := List.filter (fun d => (d <=? t)%Z) (timeouts s) in
  let rest := List.filter (fun d => negb (d <=? t)%Z) (timeouts s) in
  onCapture_calls (fire_due t s)
  = onCapture_calls s ++ (if ok_flag s then map Some due else []) /\
  timeouts (fire_due t s) = rest /\
  (due <> [] -> capturePending (fire_due t s) = false).
Proof.
  intros Hopen Hctx Hsync. unfold fire_due. cbv zeta.
  set (due := List.filter (fun d => (d <=? t)%Z) (timeouts s)).
  set (rest := List.filter (fun d => negb (d <=? t)%Z) (timeouts s)).
  destruct (fold_timer_body_fires due (set_timeouts rest s))
    as (H1 & H2 & H3); try assumption.
  cbv zeta in H1, H2, H3.
  repeat split; assumption.
Qed.

(** C10: the guide mode is changed to [m] while auto-capture timers are
    pending, however many (the code arms one on every tick with a true
    flag).  [s] is any state of an open session whose mode ref agrees with
    the mode state, as it does after every render; it may have been reached
    through any ticks and earlier mode changes.  The change cancels no timer
    and touches neither [capturePending] nor the detection flags.  When
    timers fire (those due at [t], oldest first), each delivers a capture
    exactly when the detection flag of the mode that is active when it fires
    is true: fired in [s], that is the flag of the mode of [s]; fired after
    the change, the flag of [m]; the mode in which a timer was armed is
    recorded nowhere and is not looked at.  The timers that are not yet due
    stay pending. *)
Theorem overlay_change_keeps_timer s m t :
  isOpen (props s) = true ->
  canvas2d s = true ->
  overlayRef s = overlay s ->
  let s' := setOverlay m s in
  let flag := match m with face => faceInsideRef s | card => cardOkRef s end in
  let due := List.filter (fun d => (d <=? t)%Z) (timeouts s) in
  let rest := List.filter (fun d => negb (d <=? t)%Z) (timeouts s) in
  (timeouts s' = timeouts s /\ capturePending s' = capturePending s /\
   faceInsideRef s' = faceInsideRef s /\ cardOkRef s' = cardOkRef s /\
   overlayRef s' = m) /\
  (onCapture_calls (fire_due t s)
   = onCapture_calls s ++ (if ok_flag s then map Some due else []) /\
   onCapture_calls (fire_due t s')
   = onCapture_calls s ++ (if flag then map Some due else [])) /\
  (timeouts (fire_due t s') = rest /\
   (due <> [] -> capturePending (fire_due t s') = false)).
Proof.
  intros Hopen Hctx Hsync s' flag due rest.
  destruct (setOverlay_cells m s)
    as (Hmode & Htime & Hpend & Hface & Hcard & Hcalls & Hprops & Hc2d).
  fold s' in Hmode, Htime, Hpend, Hface, Hcard, Hcalls, Hprops, Hc2d.
  split; [repeat split; assumption |].
  destruct (fire_due_fires s t Hopen Hctx Hsync) as (A1 & _ & _).
  assert (Hsync' : overlayRef s' = overlay s') by reflexivity.
  destruct (fire_due_fires s' t) as (B1 & B2 & B3); try congruence.
  cbv zeta in A1, B1, B2, B3.
  rewrite Htime in B1, B2, B3. rewrite Hcalls in B1.
  assert (Hflag : ok_flag s' = flag).
  { unfold ok_flag. rewrite Hmode, Hface, Hcard. reflexivity. }
  rewrite Hflag in B1.
  repeat split; assumption.
Qed.

(** A face stays framed for two ticks, which arm two timers; the mode is
    then changed to the card guide, for which nothing has been detected:
    both timers stay, and both fire without a capture, where without the
    change each would have delivered one. *)
Lemma overlay_change_keeps_timer_witness :
  let s := period oracle_framed (period oracle_framed demo_streaming) in
  let m := card in
  let t := 5666%Z in
  let s' := setOverlay m s in
  let flag := match m with face => faceInsideRef s | card => cardOkRef s end in
  let due := List.filter (fun d => (d <=? t)%Z) (timeouts s) in
  let rest := List.filter (fun d => negb (d <=? t)%Z) (timeouts s) in
  (timeouts s = [5333%Z; 5666%Z] /\ ok_flag s = true /\ flag = false) /\
  (timeouts s' = timeouts s /\ capturePending s' = capturePending s /\
   faceInsideRef s' = faceInsideRef s /\ cardOkRef s' = cardOkRef s /\
   overlayRef s' = m) /\
  (onCapture_calls (fire_due t s)
   = onCapture_calls s ++ (if ok_flag s then map Some due else []) /\
   onCapture_calls (fire_due t s')
   = onCapture_calls s ++ (if flag then map Some due else [])) /\
  (timeouts (fire_due t s') = rest /\
   (due <> [] -> capturePending (fire_due t s') = false)).
Proof.
  split; [vm_compute; auto |].
  apply (overlay_change_keeps_timer
           (period oracle_framed (period oracle_framed demo_streaming))
           card 5666%Z).
  - vm_compute. reflexivity.
  - vm_compute. reflexivity.
  - vm_compute. reflexivity.
Defined.

(** The same session with the values worked out: two timers pending, none
    lost by the change, two captures without the change and none with it. *)
Example overlay_change_two_timers :
  let s := period oracle_framed (period oracle_framed demo_streaming) in
  timeouts (setOverlay card s) = [5333%Z; 5666%Z] /\
  onCapture_calls (fire_due 5666 s) = [Some 5333%Z; Some 5666%Z] /\
  onCapture_calls (fire_due 5666 (setOverlay card s)) = [] /\
  timeouts (fire_due 5666 (setOverlay card s)) = [] /\
  onCapture_calls (fire_due 5400 (setOverlay face s)) = [Some 5333%Z] /\
  timeouts (fire_due 5400 (setOverlay face s)) = [5666%Z].
Proof. vm_compute. repeat split; reflexivity. Qed.

(** The timer armed on a framed face is not cancelled by the change to the
    card guide, and fires without a capture because no card has been seen. *)
Example overlay_change_no_capture :
  let s := period oracle_framed demo_streaming in
  faceInsideRef s = true /\
  onCapture_calls (fire_due 5333 (setOverlay card s)) = [] /\
  onCapture_calls (fire_due 5333 s) = [Some 5333%Z].
Proof. vm_compute. repeat split; reflexivity. Qed.

(** ** Closing the session *)

Lemma stopStream_cells s :
  let s' := stopStream s in
  rafRef s' = false /\ detectionTimerRef s' = None /\ streamRef s' = false /\
  isStreaming s' = false /\ onCapture_calls s' = onCapture_calls s.
Proof. cbv zeta. repeat split; reflexivity. Qed.

(** C5 (as the code has it): the Close control stops the stream and calls
    the capture callback once, with null, whatever was captured before;
    when the parent turns the open/closed flag off, the stream is stopped if
    the session was open, and the callback is not called. *)
Theorem close_reports_null s p :
  (onCapture_calls (close s) = onCapture_calls s ++ [None] /\
   streamRef (close s) = false /\ detectionTimerRef (close s) = None /\
   rafRef (close s) = false) /\
  (let s' := parentRender (with_isOpen false p) s in
   onCapture_calls s' = onCapture_calls s /\
   streamRef s' = (if isOpen (props s) then false else streamRef s) /\
   detectionTimerRef s' = (if isOpen (props s) then None else detectionTimerRef s)).
Proof.
  split.
  - repeat split; reflexivity.
  - unfold parentRender. cbv zeta. cbn [isOpen with_isOpen].
    destruct (isOpen (props s)); cbn [Bool.eqb]; repeat split; reflexivity.
Qed.

(** C5 (fails on the code): an open session with the camera playing is
    closed by the parent turning [isOpen] off.  Nothing was captured, the
    stream is stopped, and the capture callback has not been called. *)
Lemma closed_by_flag_without_callback :
  let s0 := run (mount demo_props true) [StartSettled true] in
  let s := step s0 (ParentRender demo_props_closed) in
  (isOpen (props s0) = true /\ streamRef s0 = true) /\
  (isOpen (props s) = false /\ streamRef s = false /\
   detectionTimerRef s = None) /\
  onCapture_calls s = [].
Proof. vm_compute. repeat split; reflexivity. Qed.

(** The Close control on the same session: one call, with null. *)
Example closed_by_button :
  onCapture_calls (run (mount demo_props true) [StartSettled true; ClickClose])
  = [None].
Proof. vm_compute. reflexivity. Qed.

(** * Further properties of the code *)

(** ** The cover fit of [draw] and of [capture] *)

Lemma floor_bounds q : q - 1 < JS.floor q /\ JS.floor q <= q.
Proof.
  unfold JS.floor. split.
  - pose proof (Qlt_floor q) as H. rewrite inject_Z_plus in H.
    change (inject_Z 1) with 1 in H. lra.
  - apply Qfloor_le.
Qed.

(** The scale of a cover fit: the scaled source is at least as large as the
    target in both directions and exactly as large in one. *)
Lemma cover_scale W H vw vh :
  0 < vw -> 0 < vh ->
  let s := Qmax (W / vw) (H / vh) in
  W <= vw * s /\ H <= vh * s /\ (vw * s == W \/ vh * s == H).
Proof.
  intros Hvw Hvh s.
  assert (Ea : vw * (W / vw) == W) by (field; lra).
  assert (Eb : vh * (H / vh) == H) by (field; lra).
  pose proof (Q.le_max_l (W / vw) (H / vh)) as Hl.
  pose proof (Q.le_max_r (W / vw) (H / vh)) as Hr.
  fold s in Hl, Hr.
  assert (Hw : vw * (W / vw) <= vw * s) by (apply Qmult_le_l; assumption).
  assert (Hh : vh * (H / vh) <= vh * s) by (apply Qmult_le_l; assumption).
  repeat split; try lra.
  destruct (Q.max_spec (W / vw) (H / vh)) as [[_ E] | [_ E]]; fold s in E.
  - right. rewrite E. exact Eb.
  - left. rewrite E. exact Ea.
Qed.

(** The bounds on the mapping of [draw] that the cover fit and the rounding
    of the offsets give. *)
Lemma draw_mapping_bounds cW cH videoWidth videoHeight mirrored :
  0 < cW -> 0 < cH -> 0 <= videoWidth -> 0 <= videoHeight ->
  let m := draw_mapping cW cH videoWidth videoHeight mirrored in
  let dw := vw m * scale m in
  let dh := vh m * scale m in
  0 < scale m /\ cW <= dw /\ cH <= dh /\
  (cW - dw) * (1 # 2) - 1 < dx m /\ dx m <= (cW - dw) * (1 # 2) /\
  (cH - dh) * (1 # 2) - 1 < dy m /\ dy m <= (cH - dh) * (1 # 2).
Proof.
  intros HW HH Hvw Hvh m dw dh.
  assert (Pw : 0 < JS.or_else videoWidth 1440) by (apply or_else_pos; lra).
  assert (Ph : 0 < JS.or_else videoHeight 2560) by (apply or_else_pos; lra).
  destruct (cover_scale cW cH _ _ Pw Ph) as (Cw & Ch & _).
  change (cW <= dw) in Cw. change (cH <= dh) in Ch.
  destruct (floor_bounds ((cW - dw) / 2)) as [Fx1 Fx2].
  destruct (floor_bounds ((cH - dh) / 2)) as [Fy1 Fy2].
  change (JS.floor ((cW - dw) / 2)) with (dx m) in Fx1, Fx2.
  change (JS.floor ((cH - dh) / 2)) with (dy m) in Fy1, Fy2.
  split; [apply draw_mapping_scale_pos; assumption |].
  repeat split; assumption.
Qed.

(** X1: the mapping [draw] publishes is a cover fit within one pixel.  For a
    canvas with positive sides the scale is positive and the scaled video is
    at least as large as the canvas; the offsets are integers that are at
    most zero and centre the video to within one pixel, so the video starts
    at or before the left and top edge and ends less than one pixel short
    of, or beyond, the right and bottom edge; and in one direction the fit
    is tight: that offset is 0 or -1.  (Which of the two it is can depend on
    the rounding of the scale: in exact arithmetic the scaled video is
    exactly as large as the canvas in that direction and the offset is 0,
    see [cover_scale]; the statement holds for either.) *)
Theorem draw_mapping_cover_fit cW cH videoWidth videoHeight mirrored :
  0 < cW -> 0 < cH -> 0 <= videoWidth -> 0 <= videoHeight ->
  let m := draw_mapping cW cH videoWidth videoHeight mirrored in
  let dw := vw m * scale m in
  let dh := vh m * scale m in
  0 < scale m /\
  (cW <= dw /\ cH <= dh) /\
  (exists zx zy : Z, dx m = inject_Z zx /\ dy m = inject_Z zy) /\
  ((cW - dw) / 2 - 1 < dx m <= (cW - dw) / 2 /\
   (cH - dh) / 2 - 1 < dy m <= (cH - dh) / 2) /\
  (dx m <= 0 /\ dy m <= 0 /\ cW - 1 < dx m + dw /\ cH - 1 < dy m + dh) /\
  (-1 <= dx m \/ -1 <= dy m).
Proof.
  intros HW HH Hvw Hvh m dw dh.
  assert (Pw : 0 < JS.or_else videoWidth 1440) by (apply or_else_pos; lra).
  assert (Ph : 0 < JS.or_else videoHeight 2560) by (apply or_else_pos; lra).
  destruct (cover_scale cW cH _ _ Pw Ph) as (Cw & Ch & Cone).
  change (cW <= dw) in Cw. change (cH <= dh) in Ch.
  change (dw == cW \/ dh == cH) in Cone.
  destruct (floor_bounds ((cW - dw) / 2)) as [Fx1 Fx2].
  destruct (floor_bounds ((cH - dh) / 2)) as [Fy1 Fy2].
  change (JS.floor ((cW - dw) / 2)) with (dx m) in Fx1, Fx2.
  change (JS.floor ((cH - dh) / 2)) with (dy m) in Fy1, Fy2.
  split; [apply draw_mapping_scale_pos; assumption |].
  split; [auto |].
  split; [eexists; eexists; split; reflexivity |].
  split; [auto |].
  inv_consts.
  split; [repeat split; lra |].
  destruct Cone as [E | E]; [left | right]; lra.
Qed.

Lemma draw_mapping_cover_fit_witness :
  let m := draw_mapping 1125 2001 1440 2560 true in
  let dw := vw m * scale m in
  let dh := vh m * scale m in
  0 < scale m /\
  (1125 <= dw /\ 2001 <= dh) /\
  (exists zx zy : Z, dx m = inject_Z zx /\ dy m = inject_Z zy) /\
  ((1125 - dw) / 2 - 1 < dx m <= (1125 - dw) / 2 /\
   (2001 - dh) / 2 - 1 < dy m <= (2001 - dh) / 2) /\
  (dx m <= 0 /\ dy m <= 0 /\ 1125 - 1 < dx m + dw /\ 2001 - 1 < dy m + dh) /\
  (-1 <= dx m \/ -1 <= dy m).
Proof.
  apply (draw_mapping_cover_fit 1125 2001 1440 2560 true); vm_compute; congruence.
Defined.

(** The offsets where rounding matters.  On a 562 x 1000 canvas with a
    1080 x 1920 video the height decides the scale, and in exact arithmetic
    the scaled video is exactly 1000 high and [dy] is 0.  In binary64 the
    scale [1000 / 1920] is rounded up, [dh = 1920 * scale] is
    1000.0000000000001, and [(cH - dh) / 2] is a negative number above -1,
    whose [Math.floor] is -1: the offset the code publishes. *)
Example draw_mapping_rounding :
  let m := draw_mapping 562 1000 1080 1920 true in
  (vh m * scale m == 1000 /\ dy m == 0 /\ dx m == -1) /\
  (let scale64 := (if 562 / 1080 <? 1000 / 1920
                   then 1000 / 1920 else 562 / 1080)%float in
   let dh64 := (1920 * scale64)%float in
   dh64 = 1000.0000000000001%float /\
   ((1000 - dh64) / 2 <? 0)%float = true /\
   (-1 <? (1000 - dh64) / 2)%float = true).
Proof. vm_compute. repeat split; reflexivity || discriminate. Qed.

(** X2: [capture] covers its 1440 x 2560 output completely and centres the
    frame exactly: the scaled frame is at least as large as the output, the
    part cut off on the left equals the part cut off on the right, and the
    same from top to bottom.  Unlike in [draw], no strip of the output is
    left without video. *)
Theorem capture_mapping_cover_fit videoWidth videoHeight :
  0 <= videoWidth -> 0 <= videoHeight ->
  let m := capture_mapping videoWidth videoHeight in
  let dw := vw m * scale m in
  let dh := vh m * scale m in
  (cW m == 1440 /\ cH m == 2560 /\ mirrored m = false) /\
  0 < scale m /\
  (1440 <= dw /\ 2560 <= dh /\ (dw == 1440 \/ dh == 2560)) /\
  (dx m <= 0 /\ 1440 <= dx m + dw /\ dx m + dw - 1440 == - dx m) /\
  (dy m <= 0 /\ 2560 <= dy m + dh /\ dy m + dh - 2560 == - dy m).
Proof.
  intros Hvw Hvh m dw dh.
  assert (Pw : 0 < JS.or_else videoWidth 1440) by (apply or_else_pos; lra).
  assert (Ph : 0 < JS.or_else videoHeight 2560) by (apply or_else_pos; lra).
  destruct (cover_scale 1440 2560 _ _ Pw Ph) as (Cw & Ch & Cone).
  change (1440 <= dw) in Cw. change (2560 <= dh) in Ch.
  change (dw == 1440 \/ dh == 2560) in Cone.
  assert (Ex : dx m == (1440 - dw) / 2) by reflexivity.
  assert (Ey : dy m == (2560 - dh) / 2) by reflexivity.
  assert (Hs : 0 < scale m).
  { assert (H : 0 < 1440 / JS.or_else videoWidth 1440).
    { apply Qlt_shift_div_l; [exact Pw | lra]. }
    pose proof (Q.le_max_l (1440 / JS.or_else videoWidth 1440)
                           (2560 / JS.or_else videoHeight 2560)) as Hl.
    change (0 < Qmax (1440 / JS.or_else videoWidth 1440)
                     (2560 / JS.or_else videoHeight 2560)). lra. }
  split; [repeat split; reflexivity |].
  split; [exact Hs |].
  split; [auto |].
  clear Hs Pw Ph. inv_consts. split; repeat split; lra.
Qed.

Lemma capture_mapping_cover_fit_witness :
  let m := capture_mapping 1920 1080 in
  let dw := vw m * scale m in
  let dh := vh m * scale m in
  (cW m == 1440 /\ cH m == 2560 /\ mirrored m = false) /\
  0 < scale m /\
  (1440 <= dw /\ 2560 <= dh /\ (dw == 1440 \/ dh == 2560)) /\
  (dx m <= 0 /\ 1440 <= dx m + dw /\ dx m + dw - 1440 == - dx m) /\
  (dy m <= 0 /\ 2560 <= dy m + dh /\ dy m + dh - 2560 == - dy m).
Proof.
  apply (capture_mapping_cover_fit 1920 1080); vm_compute; congruence.
Defined.

(** ** The guide shapes *)

(** X3: the card guide is 90% of the canvas wide, has the card aspect ratio
    1.586, is centred horizontally and has its centre at 55% of the canvas
    height; it lies inside the canvas exactly when the canvas is at most
    1.586 times as wide as it is high (on a wider canvas it sticks out at
    the bottom). *)
Theorem cardOverlayRectCanvas_geometry cW cH :
  0 < cW -> 0 < cH ->
  let rc := cardOverlayRectCanvas cW cH in
  rc_w rc == 0.9 * cW /\
  rc_w rc == 1.586 * rc_h rc /\
  rc_x rc + rc_w rc / 2 == cW / 2 /\
  rc_y rc + rc_h rc / 2 == 0.55 * cH /\
  (Rect_inside rc cW cH <-> cW <= 1.586 * cH) /\
  (1.586 * cH < cW -> cH < rc_y rc + rc_h rc).
Proof.
  intros HW HH. unfold cardOverlayRectCanvas, Rect_inside. cbn [rc_x rc_y rc_w rc_h].
  inv_consts. repeat split; lra.
Qed.

Lemma cardOverlayRectCanvas_geometry_witness :
  let rc := cardOverlayRectCanvas 1125 2001 in
  rc_w rc == 0.9 * 1125 /\
  rc_w rc == 1.586 * rc_h rc /\
  rc_x rc + rc_w rc / 2 == 1125 / 2 /\
  rc_y rc + rc_h rc / 2 == 0.55 * 2001 /\
  (Rect_inside rc 1125 2001 <-> 1125 <= 1.586 * 2001) /\
  (1.586 * 2001 < 1125 -> 2001 < rc_y rc + rc_h rc).
Proof.
  apply (cardOverlayRectCanvas_geometry 1125 2001); reflexivity.
Defined.

Lemma Qmin_bounds a b : 0 <= a -> 0 <= b -> 0 <= Qmin a b /\ Qmin a b <= a /\ Qmin a b <= b.
Proof.
  intros Ha Hb. pose proof (Q.le_min_l a b). pose proof (Q.le_min_r a b).
  repeat split; try assumption.
  destruct (Q.min_spec a b) as [[_ E] | [_ E]]; rewrite E; assumption.
Qed.

(** X4: the face silhouette is a closed curve of eight cubic pieces that is
    symmetric about the vertical line through [cx]: read backwards and
    reflected, the eight pieces are the same eight pieces; the last piece
    ends where the first begins, so [closePath] adds nothing. *)
Theorem faceSilhouettePath2D_symmetric cx cy w h :
  let path := faceSilhouettePath2D cx cy w h in
  let curves := segments (removelast path) in
  length curves = 8%nat /\
  Forall2 Segment_eq curves
          (map (fun s => Segment_reflect cx (Segment_reverse s)) (rev curves)) /\
  segments path = curves ++ [List.last (segments path) (Line (0, 0) (0, 0))] /\
  Segment_degenerate (List.last (segments path) (Line (0, 0) (0, 0))).
Proof.
  cbv zeta. unfold faceSilhouettePath2D, segments.
  cbn [removelast segments_from rev app map length List.last
       Segment_reverse Segment_reflect reflect_x fst snd].
  split; [reflexivity |]. split.
  - repeat (apply List.Forall2_cons;
              [unfold Segment_eq, Point_eq, reflect_x; cbn [fst snd];
               inv_consts; repeat split; ring |]).
    apply List.Forall2_nil.
  - split; [reflexivity |]. split; reflexivity.
Qed.

(** X5: the face guide, as [draw] strokes it and as [detectionTick]
    hit-tests it, has all its end points and control points inside the
    canvas, whatever the size of the canvas; the curve, which stays in the
    convex hull of those points, does not leave the canvas. *)
Theorem face_guide_inside_canvas cW cH :
  0 <= cW -> 0 <= cH ->
  Forall (in_box 0 0 cW cH) (Path2D_points (draw_guidePath face cW cH)) /\
  Forall (in_box 0 0 cW cH) (Path2D_points (detectionTick_facePath cW cH)).
Proof.
  intros HW HH.
  destruct (Qmin_bounds cW cH HW HH) as (M0 & MW & MH).
  unfold draw_guidePath, detectionTick_facePath, facePath, draw_faceGuideArgs,
    detectionTick_faceGuideArgs, faceSilhouettePath2D, Path2D_points, in_box.
  cbn [flat_map PathCmd_points app fst snd].
  revert M0 MW MH. generalize (Qmin cW cH). intros m M0 MW MH.
  inv_consts.
  split; repeat (apply List.Forall_cons; [cbn [fst snd]; repeat split; lra |]);
    apply List.Forall_nil.
Qed.

Lemma face_guide_inside_canvas_witness :
  Forall (in_box 0 0 1125 2001) (Path2D_points (draw_guidePath face 1125 2001)) /\
  Forall (in_box 0 0 1125 2001) (Path2D_points (detectionTick_facePath 1125 2001)).
Proof.
  apply (face_guide_inside_canvas 1125 2001); vm_compute; congruence.
Defined.

Lemma cardOverlayRectCanvas_inside cW cH :
  0 < cW -> 0 < cH -> cW <= 1.586 * cH ->
  Rect_inside (cardOverlayRectCanvas cW cH) cW cH.
Proof.
  intros HW HH Hwide. unfold cardOverlayRectCanvas, Rect_inside.
  cbn [rc_x rc_y rc_w rc_h]. inv_consts. repeat split; lra.
Qed.

(** X6: the card guide that [draw] strokes is a closed rounded rectangle
    whose end points and control points lie in the rectangle of
    [cardOverlayRectCanvas]; on a canvas at most 1.586 times as wide as high
    they lie inside the canvas. *)
Theorem card_guide_inside_canvas cW cH :
  0 < cW -> 0 < cH ->
  let rc := cardOverlayRectCanvas cW cH in
  let path := draw_guidePath card cW cH in
  Forall (in_box (rc_x rc) (rc_y rc) (rc_w rc) (rc_h rc)) (Path2D_points path) /\
  Segment_degenerate (List.last (segments path) (Line (0, 0) (0, 0))) /\
  (cW <= 1.586 * cH -> Forall (in_box 0 0 cW cH) (Path2D_points path)).
Proof.
  intros HW HH rc path.
  assert (Hw : 0 <= rc_w rc) by (cbn; lra).
  assert (Hh : 0 <= rc_h rc).
  { cbn. apply Qle_shift_div_l; lra. }
  destruct (Qmin_bounds _ _ Hw Hh) as (M0 & MW & MH).
  assert (Hbox : Forall (in_box (rc_x rc) (rc_y rc) (rc_w rc) (rc_h rc))
                        (Path2D_points path)).
  { subst path. unfold draw_guidePath, roundedRectPath2D, Path2D_points, in_box.
    fold rc. cbn [flat_map PathCmd_points app fst snd].
    revert M0 MW MH. generalize (Qmin (rc_w rc) (rc_h rc)). intros m.
    revert Hw Hh. generalize (rc_x rc) (rc_y rc) (rc_w rc) (rc_h rc).
    intros x y w h Hw Hh M0 MW MH.
    repeat (apply List.Forall_cons; [cbn [fst snd]; repeat split; lra |]).
    apply List.Forall_nil. }
  split; [exact Hbox |]. split.
  - subst path. unfold draw_guidePath, roundedRectPath2D, segments. fold rc.
    cbn. split; reflexivity.
  - intros Hwide.
    destruct (cardOverlayRectCanvas_inside cW cH HW HH Hwide)
      as (X0 & Y0 & _ & _ & XW & YH).
    fold rc in X0, Y0, XW, YH.
    eapply List.Forall_impl; [| exact Hbox].
    intros [px py]. unfold in_box. cbn [fst snd]. lra.
Qed.

Lemma card_guide_inside_canvas_witness :
  let rc := cardOverlayRectCanvas 1125 2001 in
  let path := draw_guidePath card 1125 2001 in
  Forall (in_box (rc_x rc) (rc_y rc) (rc_w rc) (rc_h rc)) (Path2D_points path) /\
  Segment_degenerate (List.last (segments path) (Line (0, 0) (0, 0))) /\
  (1125 <= 1.586 * 2001 -> Forall (in_box 0 0 1125 2001) (Path2D_points path)).
Proof.
  apply (card_guide_inside_canvas 1125 2001); reflexivity.
Defined.

(** ** From the canvas to the video *)

(** A rectangle inside the part of the canvas plane that the drawn video
    occupies is mapped without clamping, and into the source raster. *)
Lemma canvasRectToVideoRect_in_footprint rc m :
  0 < scale m ->
  in_footprint rc m ->
  let rv := canvasRectToVideoRect rc m in
  Rect_inside rv (vw m) (vh m) /\
  rc_x rv == (if mirrored m
              then vw m - (rc_x rc + rc_w rc - dx m) / scale m
              else (rc_x rc - dx m) / scale m) /\
  rc_y rv == (rc_y rc - dy m) / scale m /\
  rc_w rv == rc_w rc / scale m /\
  rc_h rv == rc_h rc / scale m.
Proof.
  intros Hs (Hw & Hh & Hx & Hy & Hxw & Hyh).
  unfold canvasRectToVideoRect, Rect_inside. cbn [rc_x rc_y rc_w rc_h].
  set (s := scale m) in *.
  set (X := (rc_x rc - dx m) / s). set (W := rc_w rc / s).
  set (Y := (rc_y rc - dy m) / s). set (H := rc_h rc / s).
  assert (HX : 0 <= X) by (apply Qle_shift_div_l; lra).
  assert (HW : 0 <= W) by (apply Qle_shift_div_l; lra).
  assert (HY : 0 <= Y) by (apply Qle_shift_div_l; lra).
  assert (HH : 0 <= H) by (apply Qle_shift_div_l; lra).
  assert (EX : (rc_x rc + rc_w rc - dx m) / s == X + W)
    by (unfold X, W; field; lra).
  assert (EY : (rc_y rc + rc_h rc - dy m) / s == Y + H)
    by (unfold Y, H; field; lra).
  assert (HXW : X + W <= vw m).
  { rewrite <- EX. apply Qle_shift_div_r; [exact Hs | lra]. }
  assert (HYH : Y + H <= vh m).
  { rewrite <- EY. apply Qle_shift_div_r; [exact Hs | lra]. }
  assert (Ew : Qmin W (vw m) == W).
  { destruct (Q.min_spec W (vw m)) as [[_ E] | [? E]]; rewrite E; lra. }
  assert (Eh : Qmin H (vh m) == H).
  { destruct (Q.min_spec H (vh m)) as [[_ E] | [? E]]; rewrite E; lra. }
  assert (Ey : Qmax 0 Y == Y).
  { destruct (Q.max_spec 0 Y) as [[_ E] | [? E]]; rewrite E; lra. }
  rewrite Ew, Eh, Ey.
  destruct (mirrored m).
  - assert (Ex : Qmax 0 (vw m - X - W) == vw m - X - W).
    { destruct (Q.max_spec 0 (vw m - X - W)) as [[_ E] | [? E]]; rewrite E; lra. }
    rewrite Ex, EX. repeat split; lra.
  - assert (Ex : Qmax 0 X == X).
    { destruct (Q.max_spec 0 X) as [[_ E] | [? E]]; rewrite E; lra. }
    rewrite Ex. repeat split; lra.
Qed.

(** X7: the crop that [detectionTick] hands to the card detectors.  On a
    canvas at least 20 pixels wide and at least as high as wide, with the
    mapping that [draw] publishes (mirrored or not, for any video size), the
    card guide lies inside the canvas and its image under
    [canvasRectToVideoRect] lies inside the video frame, is not clamped, and
    keeps the card aspect ratio 1.586. *)
Theorem card_roi_inside_video cW cH videoWidth videoHeight mirrored :
  20 <= cW -> cW <= cH -> 0 <= videoWidth -> 0 <= videoHeight ->
  let m := draw_mapping cW cH videoWidth videoHeight mirrored in
  let rc := cardOverlayRectCanvas cW cH in
  let rv := canvasRectToVideoRect rc m in
  Rect_inside rc cW cH /\
  Rect_inside rv (vw m) (vh m) /\
  rc_w rv == rc_w rc / scale m /\
  rc_h rv == rc_h rc / scale m /\
  rc_w rv == 1.586 * rc_h rv.
Proof.
  intros H20 Hport Hvw Hvh m rc rv.
  assert (HW : 0 < cW) by lra. assert (HH : 0 < cH) by lra.
  destruct (draw_mapping_bounds cW cH videoWidth videoHeight mirrored
              HW HH Hvw Hvh) as (Hs & Cw & Ch & Fx1 & Fx2 & Fy1 & Fy2).
  fold m in Hs, Cw, Ch, Fx1, Fx2, Fy1, Fy2.
  assert (Hfoot : in_footprint rc m).
  { unfold in_footprint. subst rc. unfold cardOverlayRectCanvas.
    cbn [rc_x rc_y rc_w rc_h].
    revert Cw Ch Fx1 Fx2 Fy1 Fy2.
    generalize (vw m * scale m) (vh m * scale m) (dx m) (dy m).
    intros dw dh dx0 dy0 Cw Ch Fx1 Fx2 Fy1 Fy2.
    inv_consts. repeat split; lra. }
  destruct (canvasRectToVideoRect_in_footprint rc m Hs Hfoot)
    as (Hin & _ & _ & Ew & Eh).
  fold rv in Hin, Ew, Eh.
  split.
  { apply cardOverlayRectCanvas_inside; try assumption.
    inv_consts. lra. }
  split; [exact Hin |]. split; [exact Ew |]. split; [exact Eh |].
  rewrite Ew, Eh. subst rc. unfold cardOverlayRectCanvas.
  cbn [rc_w rc_h]. field. lra.
Qed.

Lemma card_roi_inside_video_witness :
  let m := draw_mapping 1125 2001 1440 2560 false in
  let rc := cardOverlayRectCanvas 1125 2001 in
  let rv := canvasRectToVideoRect rc m in
  Rect_inside rc 1125 2001 /\
  Rect_inside rv (vw m) (vh m) /\
  rc_w rv == rc_w rc / scale m /\
  rc_h rv == rc_h rc / scale m /\
  rc_w rv == 1.586 * rc_h rv.
Proof.
  apply (card_roi_inside_video 1125 2001 1440 2560 false); vm_compute; congruence.
Defined.

(** X8: on the part of the canvas that shows video, [canvasRectToVideoRect]
    is inverted by the cover-fit transform: a canvas rectangle inside the
    footprint of the drawn video, taken to the video and back to the canvas,
    is the rectangle itself, mirrored or not. *)
Theorem canvasRect_video_canvas_roundtrip rc m :
  0 < scale m ->
  in_footprint rc m ->
  Rect_eq (videoRectToCanvasRect (canvasRectToVideoRect rc m) m) rc.
Proof.
  intros Hs Hfoot.
  destruct (canvasRectToVideoRect_in_footprint rc m Hs Hfoot)
    as (_ & Ex & Ey & Ew & Eh).
  set (rv := canvasRectToVideoRect rc m) in *.
  unfold Rect_eq, videoRectToCanvasRect. cbn [rc_x rc_y rc_w rc_h].
  destruct (mirrored m); rewrite ?Ex, ?Ey, ?Ew, ?Eh; repeat split; field; lra.
Qed.

Lemma canvasRect_video_canvas_roundtrip_witness :
  let m := draw_mapping 1125 2001 1440 2560 true in
  let rc := cardOverlayRectCanvas 1125 2001 in
  Rect_eq (videoRectToCanvasRect (canvasRectToVideoRect rc m) m) rc.
Proof.
  apply (canvasRect_video_canvas_roundtrip
           (cardOverlayRectCanvas 1125 2001)
           (draw_mapping 1125 2001 1440 2560 true)).
  - vm_compute. reflexivity.
  - unfold in_footprint. repeat split; vm_compute; congruence.
Defined.

(** ** The face branch of the detection tick *)

(** X9: when the face detector returns a box and the canvas has a 2D
    context, [detectionTick] remembers the box and sets [faceInsideRef] to
    the hit test of one point against the path it builds.  That point is the
    centre of the box's image under the mirrored cover-fit transform,
    whatever the mirror flag of the mapping: the mirror image
    [dx + (vw - x) * scale] of the box centre [x], and
    [dy + y * scale] for its height. *)
Theorem detectionTick_face_hit_point o map s b :
  detectSingleFace o = Ok (Some b) ->
  canvas2d s = true ->
  let c := detectionTick_faceCenter map b in
  let s' := detectionTick_face o map s in
  let img := videoRectToCanvasRect (Box_rect b) (with_mirrored true map) in
  (lastFaceBoxRef s' = Some b /\
   faceInsideRef s' =
     isPointInPath o (detectionTick_facePath (cW map) (cH map)) (fst c) (snd c)) /\
  (fst c == rc_x img + rc_w img / 2 /\ snd c == rc_y img + rc_h img / 2) /\
  (fst c == dx map + (vw map - (box_x b + box_width b / 2)) * scale map /\
   snd c == dy map + (box_y b + box_height b / 2) * scale map).
Proof.
  intros Hdet Hctx c s' img. split; [| split].
  - subst s' c. unfold detectionTick_face. rewrite Hdet.
    cbn [canvas2d set_faceInsideRef set_lastFaceBoxRef]. rewrite Hctx.
    split; reflexivity.
  - subst c img. unfold detectionTick_faceCenter, videoRectToCanvasRect,
      Box_rect, with_mirrored. cbn [fst snd rc_x rc_y rc_w rc_h mirrored
      dx dy vw scale]. split; reflexivity.
  - subst c. unfold detectionTick_faceCenter. cbn [fst snd].
    split; field.
Qed.

Lemma detectionTick_face_hit_point_witness :
  let o := oracle_framed in
  let map := draw_mapping 1125 2001 1440 2560 true in
  let s := demo_streaming in
  let b := {| box_x := 520; box_y := 1080; box_width := 400; box_height := 400 |} in
  let c := detectionTick_faceCenter map b in
  let s' := detectionTick_face o map s in
  let img := videoRectToCanvasRect (Box_rect b) (with_mirrored true map) in
  (lastFaceBoxRef s' = Some b /\
   faceInsideRef s' =
     isPointInPath o (detectionTick_facePath (cW map) (cH map)) (fst c) (snd c)) /\
  (fst c == rc_x img + rc_w img / 2 /\ snd c == rc_y img + rc_h img / 2) /\
  (fst c == dx map + (vw map - (box_x b + box_width b / 2)) * scale map /\
   snd c == dy map + (box_y b + box_height b / 2) * scale map).
Proof.
  apply (detectionTick_face_hit_point oracle_framed
           (draw_mapping 1125 2001 1440 2560 true) demo_streaming
           {| box_x := 520; box_y := 1080; box_width := 400; box_height := 400 |}).
  - reflexivity.
  - reflexivity.
Defined.

(** ** More on the edge score *)

Lemma data_get_bounds data i v : data_get data i = Some v -> 0 <= v <= 255.
Proof.
  unfold data_get. destruct (i <? 0)%Z; [discriminate |].
  destruct (data !! Z.to_nat i) as [b |]; cbn; [| discriminate].
  intros E. injection E as <-. apply byteQ_bounds.
Qed.

Lemma lum_bounds data i y : lum data i = Some y -> 0 <= y <= 255.
Proof.
  unfold lum.
  destruct (data_get data i) as [r |] eqn:Er; [| discriminate].
  destruct (data_get data (i + 1)) as [g |] eqn:Eg; [| discriminate].
  destruct (data_get data (i + 2)) as [b |] eqn:Eb; [| discriminate].
  intros E. injection E as <-.
  apply data_get_bounds in Er, Eg, Eb. lra.
Qed.

Lemma contrast_bounds data i j t : contrast data i j = Some t -> 0 <= t <= 1.
Proof.
  unfold contrast.
  destruct (lum data i) as [a |] eqn:Ea; [| discriminate].
  destruct (lum data j) as [b |] eqn:Eb; [| discriminate].
  intros E. injection E as <-.
  apply lum_bounds in Ea, Eb.
  assert (H0 : 0 <= Qabs (a - b)) by apply Qabs_nonneg.
  assert (H1 : Qabs (a - b) <= 255) by (apply Qabs_Qle_condition; lra).
  change (0 <= Qabs (a - b) / 255 <= 1).
  split; [apply Qle_shift_div_l | apply Qle_shift_div_r]; lra.
Qed.

(** A NaN term makes the accumulator NaN for good. *)
Lemma fold_add_sample_NaN l n :
  fst (fold_left add_sample l (None, n)) = None.
Proof.
  revert n. induction l as [| d l IH]; intros n; [reflexivity |].
  cbn [fold_left]. unfold add_sample at 2. cbn [fst snd]. apply IH.
Qed.

(** The accumulator is a number at the end exactly when every term was. *)
Lemma fold_add_sample_inv l a n acc :
  fst (fold_left add_sample l (Some a, n)) = Some acc ->
  exists terms, l = map Some terms /\ acc = fold_left Qplus terms a.
Proof.
  revert a n. induction l as [| d l IH]; intros a n H.
  - exists []. cbn in *. split; [reflexivity | congruence].
  - cbn [fold_left] in H. unfold add_sample at 2 in H. cbn [fst snd] in H.
    destruct d as [v |].
    + destruct (IH _ _ H) as (terms & -> & ->).
      exists (v :: terms). split; reflexivity.
    + rewrite fold_add_sample_NaN in H. discriminate.
Qed.

Lemma fold_add_sample_count l st :
  snd (fold_left add_sample l st) = (snd st + Z.of_nat (length l))%Z.
Proof.
  revert st. induction l as [| d l IH]; intros st.
  - cbn. lia.
  - cbn [fold_left length]. rewrite IH. unfold add_sample. cbn [snd]. lia.
Qed.

Lemma samplePairs_count w h : length (samplePairs w h) = 800%nat.
Proof.
  unfold samplePairs. rewrite length_app.
  assert (E : forall (f : nat -> list (Z * Z)) l,
             (forall s, length (f s) = 2%nat) ->
             length (flat_map f l) = (2 * length l)%nat).
  { intros f l Hf. induction l as [| x l IH]; [reflexivity |].
    cbn [flat_map]. rewrite length_app, Hf, IH. cbn [length]. lia. }
  rewrite !E by reflexivity. rewrite length_seq. reflexivity.
Qed.

(** X10: whatever the size of the raster and whatever the buffer, an edge
    score that is a number lies between 0 and 1, and it is the mean of the
    800 sampled contrasts; the score is NaN exactly when one of the sampled
    contrasts is. *)
Theorem edgeScore_range data w h :
  (forall score, edgeScore data w h = Some score ->
     0 <= score <= 1 /\
     exists terms,
       map (fun p => contrast data (fst p) (snd p)) (samplePairs w h)
       = map Some terms /\
       score == Qsum terms / 800) /\
  (edgeScore data w h = None <->
   exists p, In p (samplePairs w h) /\ contrast data (fst p) (snd p) = None).
Proof.
  rewrite edgeScore_unfold. cbv zeta.
  set (l := map (fun p => contrast data (fst p) (snd p)) (samplePairs w h)).
  assert (Hlen : length l = 800%nat).
  { unfold l. rewrite length_map. apply samplePairs_count. }
  pose proof (fold_add_sample_count l (Some 0, 0%Z)) as Hn.
  cbn [snd] in Hn. rewrite Hlen in Hn. rewrite Hn.
  change (inject_Z (0 + Z.of_nat 800)) with 800.
  split.
  - intros score H.
    destruct (fst (fold_left add_sample l (Some 0, 0%Z))) as [acc |] eqn:E;
      [| discriminate].
    destruct (fold_add_sample_inv _ _ _ _ E) as (terms & Hl & Hacc).
    assert (Hscore : score = Qsum terms / 800).
    { unfold Qsum. rewrite <- Hacc. congruence. }
    subst score. clear H.
    assert (Hall : Forall (fun t => 0 <= t <= 1) terms).
    { apply List.Forall_forall. intros t Ht.
      assert (Hin : In (Some t) l) by (rewrite Hl; apply in_map; exact Ht).
      unfold l in Hin. apply in_map_iff in Hin. destruct Hin as (p & Hp & _).
      eapply contrast_bounds. exact Hp. }
    assert (Hlt : length terms = 800%nat).
    { rewrite <- (length_map Some), <- Hl. exact Hlen. }
    pose proof (fold_Qplus_bounds terms 0 Hall) as [Hlo Hhi].
    rewrite Hlt in Hhi.
    change (inject_Z (Z.of_nat 800)) with 800 in Hhi.
    fold (Qsum terms) in Hlo, Hhi.
    split.
    + split; [apply Qle_shift_div_l | apply Qle_shift_div_r]; lra.
    + exists terms. split; [exact Hl | reflexivity].
  - split.
    + intros H.
      destruct (fst (fold_left add_sample l (Some 0, 0%Z))) as [acc |] eqn:E;
        [discriminate |].
      assert (Hnone : In None l).
      { clear - E. revert E. generalize 0 at 1. generalize 0%Z.
        induction l as [| d l IH]; intros n a E; [discriminate |].
        destruct d as [v |]; [right | left; reflexivity].
        cbn [fold_left] in E. unfold add_sample at 2 in E. cbn [fst snd] in E.
        eapply IH. exact E. }
      unfold l in Hnone. apply in_map_iff in Hnone.
      destruct Hnone as (p & Hp & Hin). exists p. split; assumption.
    + intros (p & Hin & Hp).
      assert (Hnone : In None l).
      { unfold l. apply in_map_iff. exists p. split; assumption. }
      assert (E : fst (fold_left add_sample l (Some 0, 0%Z)) = None).
      { clear - Hnone. revert Hnone. generalize 0 at 1. generalize 0%Z.
        induction l as [| d l IH]; intros n a Hnone; [destruct Hnone |].
        cbn [fold_left]. unfold add_sample at 2. cbn [fst snd].
        destruct Hnone as [-> | Hnone].
        - apply fold_add_sample_NaN.
        - destruct d as [v |]; [apply IH; exact Hnone | apply fold_add_sample_NaN]. }
      rewrite E. reflexivity.
Qed.

Lemma solid_image_lookup r g b alphas k :
  (k < length alphas)%nat ->
  solid_image r g b alphas !! (4 * k)%nat = Some r /\
  solid_image r g b alphas !! (4 * k + 1)%nat = Some g /\
  solid_image r g b alphas !! (4 * k + 2)%nat = Some b.
Proof.
  revert k. induction alphas as [| a alphas IH]; intros k Hk; [cbn in Hk; lia |].
  destruct k as [| k].
  - repeat split; reflexivity.
  - cbn [length] in Hk. destruct (IH k) as (Hr & Hg & Hb); [lia |].
    replace (4 * S k)%nat with (S (S (S (S (4 * k))))) by lia.
    replace (S (S (S (S (4 * k)))) + 1)%nat with (S (S (S (S (4 * k + 1))))) by lia.
    replace (S (S (S (S (4 * k)))) + 2)%nat with (S (S (S (S (4 * k + 2))))) by lia.
    repeat split; assumption.
Qed.

Lemma solid_image_lum r g b alphas i :
  pixel_start (Z.of_nat (length alphas)) i = true ->
  lum (solid_image r g b alphas) i
  = Some (0.299 * byteQ r + 0.587 * byteQ g + 0.114 * byteQ b).
Proof.
  unfold pixel_start. rewrite !andb_true_iff, Z.leb_le, Z.eqb_eq, Z.ltb_lt.
  intros [[H0 Hmod] Hlt].
  assert (Hi : i = (4 * (i / 4))%Z).
  { rewrite (Z.div_mod i 4) at 1 by lia. lia. }
  assert (Hk : (Z.to_nat (i / 4) < length alphas)%nat).
  { apply Z.div_pos with (b := 4%Z) in H0; lia. }
  destruct (solid_image_lookup r g b alphas _ Hk) as (Hr & Hg & Hb).
  unfold lum, data_get.
  destruct (Z.ltb_spec i 0); [lia |].
  destruct (Z.ltb_spec (i + 1) 0); [lia |].
  destruct (Z.ltb_spec (i + 2) 0); [lia |].
  replace (Z.to_nat i) with (4 * Z.to_nat (i / 4))%nat by lia.
  replace (Z.to_nat (i + 1)) with (4 * Z.to_nat (i / 4) + 1)%nat by lia.
  replace (Z.to_nat (i + 2)) with (4 * Z.to_nat (i / 4) + 2)%nat by lia.
  rewrite Hr, Hg, Hb. reflexivity.
Qed.

(** Every index [edgeScore] compares on the 320 x 202 raster is the first
    byte of one of its 64640 pixels. *)
Lemma samplePairs_pixel_starts :
  forallb (fun p => pixel_start 64640 (fst p) && pixel_start 64640 (snd p))
          (samplePairs heuristic_outW heuristic_outH) = true.
Proof. vm_compute. reflexivity. Qed.

Lemma fold_Qplus_zero (terms : list Q) (a : Q) :
  Forall (fun t => t == 0) terms -> fold_left Qplus terms a == a.
Proof.
  intros H. revert a. induction H as [| t terms Ht _ IH]; intros a.
  - reflexivity.
  - cbn [fold_left]. rewrite IH, Ht. ring.
Qed.

(** X11: an image of one colour has edge score 0 and the heuristic detector
    rejects it, whatever the colour and whatever the alpha bytes. *)
Theorem solid_colour_rejected r g b alphas :
  Z.of_nat (length alphas) = (heuristic_outW * heuristic_outH)%Z ->
  let data := solid_image r g b alphas in
  exists score,
    edgeScore data heuristic_outW heuristic_outH = Some score /\
    score == 0 /\
    estimateCardHeuristic true (Ok data) = Ok false.
Proof.
  intros Hlen data.
  set (L := 0.299 * byteQ r + 0.587 * byteQ g + 0.114 * byteQ b).
  set (t := Qabs (L - L) / 255).
  assert (Ht : t == 0).
  { unfold t. assert (E : L - L == 0) by ring. rewrite E. reflexivity. }
  pose proof samplePairs_pixel_starts as Hstarts.
  assert (Hn : Z.of_nat (length alphas) = 64640%Z) by (rewrite Hlen; reflexivity).
  clear Hlen.
  rewrite <- Hn in Hstarts.
  assert (Hmap : map (fun p => contrast data (fst p) (snd p))
                     (samplePairs heuristic_outW heuristic_outH)
                 = map Some (map (fun _ => t)
                                 (samplePairs heuristic_outW heuristic_outH))).
  { rewrite map_map. apply map_ext_in. intros p Hp.
    rewrite forallb_forall in Hstarts. specialize (Hstarts p Hp).
    apply andb_true_iff in Hstarts. destruct Hstarts as [H1 H2].
    unfold contrast, data.
    rewrite (solid_image_lum r g b alphas _ H1),
            (solid_image_lum r g b alphas _ H2).
    reflexivity. }
  set (terms := map (fun _ : Z * Z => t)
                    (samplePairs heuristic_outW heuristic_outH)) in *.
  assert (Hterms : length terms = 800%nat).
  { unfold terms. rewrite length_map. apply samplePairs_count. }
  assert (Hscore : edgeScore data heuristic_outW heuristic_outH
                   = Some (Qsum terms / 800)).
  { rewrite edgeScore_unfold. cbv zeta. rewrite Hmap, fold_add_sample_Some.
    cbn [fst snd]. rewrite Hterms. reflexivity. }
  assert (Hzero : Qsum terms == 0).
  { unfold Qsum. apply fold_Qplus_zero. unfold terms.
    apply List.Forall_forall. intros x Hx. apply in_map_iff in Hx.
    destruct Hx as (_ & <- & _). exact Ht. }
  assert (Hs0 : Qsum terms / 800 == 0) by (rewrite Hzero; reflexivity).
  exists (Qsum terms / 800). split; [exact Hscore |]. split; [exact Hs0 |].
  unfold estimateCardHeuristic. cbn [negb]. rewrite Hscore.
  f_equal. apply ltb_ge. rewrite Hs0. vm_compute. congruence.
Qed.

Lemma solid_colour_rejected_witness :
  let data := solid_image Byte.xff Byte.x80 Byte.x00
                          (repeat Byte.xff (Z.to_nat 64640)) in
  exists score,
    edgeScore data heuristic_outW heuristic_outH = Some score /\
    score == 0 /\
    estimateCardHeuristic true (Ok data) = Ok false.
Proof.
  apply (solid_colour_rejected Byte.xff Byte.x80 Byte.x00
           (repeat Byte.xff (Z.to_nat 64640))).
  vm_compute. reflexivity.
Defined.

Lemma samplePairs_bytes_read :
  forallb (fun p => rgb_in_range heuristic_bytes_read (fst p) &&
                    rgb_in_range heuristic_bytes_read (snd p))
          (samplePairs heuristic_outW heuristic_outH) = true /\
  existsb (fun p => (fst p =? heuristic_bytes_read - 3)%Z)
          (samplePairs heuristic_outW heuristic_outH) = true.
Proof. split; vm_compute; reflexivity. Qed.

Lemma rgb_in_range_mono len len' i :
  (len <= len')%Z -> rgb_in_range len i = true -> rgb_in_range len' i = true.
Proof.
  unfold rgb_in_range. rewrite !andb_true_iff, !Z.leb_le, !Z.ltb_lt. lia.
Qed.

(** X12: on the 320 x 202 raster the edge score is a number exactly when the
    buffer has at least 255991 bytes, one more than the largest index the
    score reads; on a shorter buffer the score is NaN and the heuristic
    detector answers false. *)
Theorem edgeScore_bytes_needed (data : list Byte.byte) :
  (edgeScore data heuristic_outW heuristic_outH = None <->
   (Z.of_nat (length data) < heuristic_bytes_read)%Z) /\
  ((Z.of_nat (length data) < heuristic_bytes_read)%Z ->
   estimateCardHeuristic true (Ok data) = Ok false).
Proof.
  destruct samplePairs_bytes_read as [Hall Hex].
  assert (Hshort : (Z.of_nat (length data) < heuristic_bytes_read)%Z ->
                   edgeScore data heuristic_outW heuristic_outH = None).
  { intros Hlt. rewrite edgeScore_unfold. cbv zeta.
    apply existsb_exists in Hex. destruct Hex as (p & Hin & Hp).
    apply Z.eqb_eq in Hp.
    assert (Hget : data_get data (fst p + 2) = None).
    { unfold data_get. destruct (Z.ltb_spec (fst p + 2) 0) as [| Hpos];
        [reflexivity |].
      rewrite (lookup_ge_None_2 data); [reflexivity |].
      unfold heuristic_bytes_read in *. lia. }
    assert (Hlum : lum data (fst p) = None).
    { unfold lum. rewrite Hget.
      destruct (data_get data (fst p)); [| reflexivity].
      destruct (data_get data (fst p + 1)); reflexivity. }
    assert (Hc : contrast data (fst p) (snd p) = None).
    { unfold contrast. rewrite Hlum. reflexivity. }
    assert (Hnone : In None (map (fun p => contrast data (fst p) (snd p))
                                 (samplePairs heuristic_outW heuristic_outH))).
    { apply in_map_iff. exists p. split; assumption. }
    assert (E : forall l a n, In None l ->
                fst (fold_left add_sample l (Some a, n)) = None).
    { induction l as [| d l IH]; intros a n Hl; [destruct Hl |].
      cbn [fold_left]. unfold add_sample at 2. cbn [fst snd].
      destruct Hl as [-> | Hl]; [apply fold_add_sample_NaN |].
      destruct d; [apply IH; exact Hl | apply fold_add_sample_NaN]. }
    rewrite (E _ _ _ Hnone). reflexivity. }
  split; [split; [| exact Hshort] |].
  - intros Hnone.
    destruct (Z.lt_ge_cases (Z.of_nat (length data)) heuristic_bytes_read)
      as [Hlt | Hge]; [exact Hlt | exfalso].
    assert (Hr : forallb
                   (fun p => rgb_in_range (Z.of_nat (length data)) (fst p) &&
                             rgb_in_range (Z.of_nat (length data)) (snd p))
                   (samplePairs heuristic_outW heuristic_outH) = true).
    { apply forallb_forall. intros p Hp.
      rewrite forallb_forall in Hall. specialize (Hall p Hp).
      apply andb_true_iff in Hall. destruct Hall as [H1 H2].
      apply andb_true_iff.
      split; eapply rgb_in_range_mono; try eassumption. }
    destruct (contrasts_in_range data _ Hr) as (terms & Hmap & _).
    rewrite edgeScore_unfold in Hnone. cbv zeta in Hnone.
    rewrite Hmap, fold_add_sample_Some in Hnone. discriminate.
  - intros Hlt. unfold estimateCardHeuristic. cbn [negb].
    rewrite (Hshort Hlt). reflexivity.
Qed.

(** *** A buffer at the threshold *)

Lemma image_from_lookup px k n j :
  (j < n)%nat ->
  image_from px k n !! (4 * j)%nat = Some (fst (fst (px (k + Z.of_nat j)%Z))) /\
  image_from px k n !! (4 * j + 1)%nat = Some (snd (fst (px (k + Z.of_nat j)%Z))) /\
  image_from px k n !! (4 * j + 2)%nat = Some (snd (px (k + Z.of_nat j)%Z)).
Proof.
  revert k j. induction n as [| n IH]; intros k j Hj; [lia |].
  destruct j as [| j].
  - cbn [image_from]. rewrite Z.add_0_r. repeat split; reflexivity.
  - destruct (IH (k + 1)%Z j) as (Hr & Hg & Hb); [lia |].
    replace (k + Z.of_nat (S j))%Z with (k + 1 + Z.of_nat j)%Z by lia.
    replace (4 * S j)%nat with (S (S (S (S (4 * j))))) by lia.
    replace (S (S (S (S (4 * j)))) + 1)%nat with (S (S (S (S (4 * j + 1))))) by lia.
    replace (S (S (S (S (4 * j)))) + 2)%nat with (S (S (S (S (4 * j + 2))))) by lia.
    repeat split; assumption.
Qed.

Lemma image_from_length px k n : length (image_from px k n) = (4 * n)%nat.
Proof.
  revert k. induction n as [| n IH]; intros k; [reflexivity |].
  cbn [image_from length]. rewrite IH. lia.
Qed.

(** The bytes of a pixel of [threshold_image]. *)
Lemma threshold_image_nth i :
  pixel_start 64640 i = true ->
  nth (Z.to_nat i) threshold_image Byte.x00
  = fst (fst (threshold_pixel (i / 4))) /\
  nth (Z.to_nat (i + 1)) threshold_image Byte.x00
  = snd (fst (threshold_pixel (i / 4))) /\
  nth (Z.to_nat (i + 2)) threshold_image Byte.x00
  = snd (threshold_pixel (i / 4)).
Proof.
  unfold pixel_start. rewrite !andb_true_iff, Z.leb_le, Z.eqb_eq, Z.ltb_lt.
  intros [[H0 Hmod] Hlt].
  assert (Hi : i = (4 * (i / 4))%Z).
  { rewrite (Z.div_mod i 4) at 1 by lia. lia. }
  assert (Hd : (0 <= i / 4)%Z) by (apply Z.div_pos; lia).
  assert (Hk : (Z.to_nat (i / 4) < Z.to_nat 64640)%nat) by lia.
  destruct (image_from_lookup threshold_pixel 0 _ _ Hk) as (Hr & Hg & Hb).
  rewrite Z.add_0_l, Z2Nat.id in Hr, Hg, Hb by exact Hd.
  replace (Z.to_nat i) with (4 * Z.to_nat (i / 4))%nat by lia.
  replace (Z.to_nat (i + 1)) with (4 * Z.to_nat (i / 4) + 1)%nat by lia.
  replace (Z.to_nat (i + 2)) with (4 * Z.to_nat (i / 4) + 2)%nat by lia.
  unfold threshold_image.
  rewrite (nth_lookup_Some _ _ _ _ Hr), (nth_lookup_Some _ _ _ _ Hg),
    (nth_lookup_Some _ _ _ _ Hb).
  repeat split; reflexivity.
Qed.

Lemma fold_Qplus_const (terms : list Q) (a c : Q) :
  Forall (fun t => t == c) terms ->
  fold_left Qplus terms a == a + inject_Z (Z.of_nat (length terms)) * c.
Proof.
  intros H. revert a. induction H as [| t terms Ht _ IH]; intros a.
  - cbn [fold_left length]. change (inject_Z (Z.of_nat 0)) with 0. ring.
  - cbn [fold_left length]. rewrite IH, Ht.
    rewrite Nat2Z.inj_succ, <- Z.add_1_r, inject_Z_plus.
    change (inject_Z 1) with 1. ring.
Qed.

(** On [threshold_image] each of the 800 terms is 45.9 / 255 and the mean is
    exactly 0.18, which is not greater than 0.18.  In binary64 each term is
    0.17999999999999997 and the mean, accumulated over 800 additions, is
    0.18000000000000366: the code accepts, where a comparison of the exact
    mean with 0.18 rejects. *)
Example edgeScore_at_threshold :
  (exists score : Q,
     edgeScore threshold_image heuristic_outW heuristic_outH = Some score /\
     score == 0.18) /\
  F64.edgeScore threshold_image heuristic_outW heuristic_outH
  = 0.18000000000000366%float /\
  F64.estimateCardHeuristic true (Ok threshold_image) = Ok true /\
  estimateCardHeuristic true (Ok threshold_image) = Ok false.
Proof.
  assert (Hlen : Z.of_nat (length threshold_image)
                 = (4 * heuristic_outW * heuristic_outH)%Z).
  { unfold threshold_image. rewrite image_from_length. vm_compute. reflexivity. }
  destruct (edgeScore_explicit threshold_image Hlen) as [Hq Hf].
  cbv zeta in Hq, Hf.
  set (pairs := samplePairs heuristic_outW heuristic_outH) in *.
  set (Yp := fun k : Z =>
         0.299 * byteQ (fst (fst (threshold_pixel k)))
         + 0.587 * byteQ (snd (fst (threshold_pixel k)))
         + 0.114 * byteQ (snd (threshold_pixel k))).
  set (Yp64 := fun k : Z =>
         (0.299 * F64.of_byte (fst (fst (threshold_pixel k)))
          + 0.587 * F64.of_byte (snd (fst (threshold_pixel k)))
          + 0.114 * F64.of_byte (snd (threshold_pixel k)))%float).
  assert (Hstarts : forall p, In p pairs ->
            pixel_start 64640 (fst p) = true /\ pixel_start 64640 (snd p) = true).
  { intros p Hp. pose proof samplePairs_pixel_starts as H.
    rewrite forallb_forall in H. specialize (H p Hp).
    apply andb_true_iff in H. exact H. }
  rewrite (map_ext_in _ (fun p => Qabs (Yp (fst p / 4)%Z - Yp (snd p / 4)%Z) / 255))
    in Hq.
  2:{ intros p Hp. destruct (Hstarts p Hp) as [H1 H2].
      destruct (threshold_image_nth _ H1) as (-> & -> & ->).
      destruct (threshold_image_nth _ H2) as (-> & -> & ->).
      reflexivity. }
  rewrite (map_ext_in _ (fun p => (abs (Yp64 (fst p / 4)%Z - Yp64 (snd p / 4)%Z)
                                   / 255)%float)) in Hf.
  2:{ intros p Hp. destruct (Hstarts p Hp) as [H1 H2].
      destruct (threshold_image_nth _ H1) as (-> & -> & ->).
      destruct (threshold_image_nth _ H2) as (-> & -> & ->).
      reflexivity. }
  assert (Hterms : Forall (fun t => t == 0.18)
            (map (fun p => Qabs (Yp (fst p / 4)%Z - Yp (snd p / 4)%Z) / 255) pairs)).
  { apply Forall_map. apply Stdlib.Lists.List.Forall_forall. intros p Hp.
    assert (H : forallb (fun p => Qeq_bool
                  (Qabs (Yp (fst p / 4)%Z - Yp (snd p / 4)%Z) / 255) 0.18) pairs
                = true) by (vm_compute; reflexivity).
    rewrite forallb_forall in H. apply Qeq_bool_iff. apply H. exact Hp. }
  assert (Hscore : Qsum (map (fun p => Qabs (Yp (fst p / 4)%Z - Yp (snd p / 4)%Z)
                                       / 255) pairs) / 800 == 0.18).
  { unfold Qsum. rewrite (fold_Qplus_const _ 0 0.18 Hterms).
    rewrite length_map. unfold pairs. rewrite samplePairs_length.
    reflexivity. }
  assert (Hf64 : F64.edgeScore threshold_image heuristic_outW heuristic_outH
                 = 0.18000000000000366%float).
  { rewrite Hf. vm_compute. reflexivity. }
  split; [eexists; split; [exact Hq | exact Hscore] |].
  split; [exact Hf64 |].
  split.
  - unfold F64.estimateCardHeuristic. cbn [negb]. rewrite Hf64. reflexivity.
  - unfold estimateCardHeuristic. cbn [negb]. rewrite Hq. cbv beta iota.
    apply (f_equal (@Ok bool)). unfold JS.gtb. apply ltb_ge.
    rewrite Hscore. lra.
Qed.

(** ** More on the contour detector *)

Lemma fold_byte_sum_bounds (data : list Byte.byte) (a : Q) :
  a <= fold_left (fun sum v => sum + byteQ v) data a /\
  fold_left (fun sum v => sum + byteQ v) data a
  <= a + 255 * inject_Z (Z.of_nat (length data)).
Proof.
  revert a. induction data as [| v data IH]; intros a.
  - cbn [fold_left length]. change (inject_Z (Z.of_nat 0)) with 0. lra.
  - cbn [fold_left length]. destruct (IH (a + byteQ v)) as [Hlo Hhi].
    pose proof (byteQ_bounds v) as [B0 B1].
    rewrite Nat2Z.inj_succ, <- Z.add_1_r, inject_Z_plus.
    change (inject_Z 1) with 1. lra.
Qed.

(** X13: the automatic Canny thresholds.  For a non-empty image the mean of
    the blurred pixels lies in [0, 255], the lower threshold in [10, 168.3]
    and the upper one in [0, 255]; the lower threshold is at most the upper
    one exactly when 1.33 times the mean is at least 10, so for a dark image
    (mean below about 7.52) the thresholds are handed to [cv.Canny] in
    reversed order. *)
Theorem autoCanny_thresholds (data : list Byte.byte) :
  data <> [] ->
  let mean := blur_mean data in
  let lower := fst (autoCanny data) in
  let upper := snd (autoCanny data) in
  0 <= mean <= 255 /\
  lower == Qmax 10 (mean * 0.66) /\ upper == Qmin 255 (mean * 1.33) /\
  10 <= lower <= 168.3 /\ 0 <= upper <= 255 /\
  (lower <= upper <-> 10 <= mean * 1.33).
Proof.
  intros Hne mean lower upper.
  assert (Hlen : 0 < inject_Z (Z.of_nat (length data))).
  { destruct data as [| v data]; [congruence |].
    change 0 with (inject_Z 0). rewrite <- Zlt_Qlt. cbn [length]. lia. }
  destruct (fold_byte_sum_bounds data 0) as [S0 S1].
  assert (Hmean : 0 <= mean <= 255).
  { unfold mean, blur_mean. split.
    - apply Qle_shift_div_l; [exact Hlen | lra].
    - apply Qle_shift_div_r; [exact Hlen | lra]. }
  assert (El : lower == Qmax 10 (mean * 0.66)) by reflexivity.
  assert (Eu : upper == Qmin 255 (mean * 1.33)) by reflexivity.
  split; [exact Hmean |]. split; [exact El |]. split; [exact Eu |].
  rewrite El, Eu. clearbody mean. clear El Eu lower upper S0 S1 Hlen Hne.
  destruct (Q.max_spec 10 (mean * 0.66)) as [[L1 L2] | [L1 L2]];
    destruct (Q.min_spec 255 (mean * 1.33)) as [[U1 U2] | [U1 U2]];
    rewrite L2, U2; repeat split; intros; lra.
Qed.

Lemma autoCanny_thresholds_witness :
  let data := [Byte.x05; Byte.x03] in
  let mean := blur_mean data in
  let lower := fst (autoCanny data) in
  let upper := snd (autoCanny data) in
  0 <= mean <= 255 /\
  lower == Qmax 10 (mean * 0.66) /\ upper == Qmin 255 (mean * 1.33) /\
  10 <= lower <= 168.3 /\ 0 <= upper <= 255 /\
  (lower <= upper <-> 10 <= mean * 1.33).
Proof.
  apply (autoCanny_thresholds [Byte.x05; Byte.x03]). discriminate.
Defined.

(** On a frame with mean 4 the lower threshold is 10 and the upper one 5.32. *)
Example autoCanny_dark :
  fst (autoCanny [Byte.x05; Byte.x03]) == 10 /\
  snd (autoCanny [Byte.x05; Byte.x03]) == 5.32.
Proof. split; vm_compute; reflexivity. Qed.

Lemma call_bind_eq {B} eng c (k : unit -> CV B) h :
  bind (call eng c) k h = if throws eng c then (h, Throw) else k tt h.
Proof. unfold bind, call. destruct (throws eng c); reflexivity. Qed.

Lemma create_bind_eq {B} eng c (k : nat -> CV B) h :
  bind (create eng c) k h =
  if throws eng c then (h, Throw)
  else k (next h) {| next := S (next h); live := {[next h]} ∪ live h |}.
Proof.
  unfold create. unfold bind at 1. rewrite call_bind_eq.
  destruct (throws eng c); reflexivity.
Qed.

Lemma delete_bind_eq {B} obj (k : unit -> CV B) h :
  bind (delete obj) k h = k tt {| next := next h; live := live h ∖ {[obj]} |}.
Proof. reflexivity. Qed.

Lemma Heap_wf_fresh h : Heap_wf h -> next h ∉ live h.
Proof. intros Hwf Hin. apply Hwf in Hin. lia. Qed.

Lemma Heap_wf_create h :
  Heap_wf h -> Heap_wf {| next := S (next h); live := {[next h]} ∪ live h |}.
Proof.
  intros Hwf obj Hobj. cbn [next live] in *. set_unfold.
  destruct Hobj as [-> | Hobj]; [lia |]. apply Hwf in Hobj. lia.
Qed.

Lemma Heap_wf_next h : Heap_wf h -> Heap_wf {| next := S (next h); live := live h |}.
Proof. intros Hwf obj Hobj. cbn [next live] in *. apply Hwf in Hobj. lia. Qed.

(** The loop over the contours with any engine: objects that were live stay
    live, and when the loop ends without an exception nothing else is. *)
Lemma contour_loop_any eng areaROI cs i h :
  Heap_wf h ->
  let r := contour_loop eng areaROI cs i h in
  Heap_wf (fst r) /\
  (forall obj, obj ∈ live h -> obj ∈ live (fst r)) /\
  (forall ok, snd r = Ok ok -> live (fst r) = live h).
Proof.
  revert i h. induction cs as [| c rest IH]; intros i h Hwf.
  - cbn. auto.
  - pose proof (Heap_wf_fresh h Hwf) as Hfresh.
    pose proof (Heap_wf_create h Hwf) as Hwf1.
    assert (Hin1 : forall obj, obj ∈ live h -> obj ∈ ({[next h]} ∪ live h)).
    { intros obj Hobj. set_unfold. right. exact Hobj. }
    assert (Hnext : forall r : Heap * Result bool,
               r = contour_loop eng areaROI rest (S i)
                     {| next := S (next h);
                        live := ({[next h]} ∪ live h) ∖ {[next h]} |} ->
               Heap_wf (fst r) /\
               (forall obj, obj ∈ live h -> obj ∈ live (fst r)) /\
               (forall ok, snd r = Ok ok -> live (fst r) = live h)).
    { intros r ->. rewrite (create_delete_fresh _ _ Hfresh).
      destruct (IH (S i) {| next := S (next h); live := live h |}
                   (Heap_wf_next h Hwf)) as (W & S1 & S2).
      cbn [live] in S1, S2. auto. }
    cbv zeta. cbn [contour_loop].
    rewrite create_bind_eq.
    destruct (throws eng (contours_get i)); [cbn; split; [exact Hwf | split; [auto | discriminate]] |].
    rewrite call_bind_eq.
    destruct (throws eng (contourArea i));
      [cbn [fst snd live]; split; [exact Hwf1 | split; [exact Hin1 | discriminate]] |].
    destruct (JS.ltb (contour_area c) (areaROI * 0.05)).
    { rewrite delete_bind_eq. cbn [next live]. apply Hnext. reflexivity. }
    rewrite call_bind_eq.
    destruct (throws eng (minAreaRect i));
      [cbn [fst snd live]; split; [exact Hwf1 | split; [exact Hin1 | discriminate]] |].
    destruct (JS.leb (rr_width c * rr_height c) 0).
    { rewrite delete_bind_eq. cbn [next live]. apply Hnext. reflexivity. }
    match goal with |- context [if ?b then _ else _] => destruct b end.
    + rewrite delete_bind_eq. cbn [next live ret fst snd].
      rewrite (create_delete_fresh _ _ Hfresh).
      split; [apply Heap_wf_next; exact Hwf | split; auto].
    + rewrite delete_bind_eq. cbn [next live]. apply Hnext. reflexivity.
Qed.

(** X14: which runs of the contour detector leave objects behind, for any
    behaviour of the engine.  The detector never releases an object it did
    not create.  It returns with exactly the objects that were live before
    when it completes, or when the exception comes from drawing the crop or
    from [cv.imread], before anything was created; every exception after
    that leaves at least the source image live. *)
Theorem estimateCardOpenCV_leaks_iff eng h :
  Heap_wf h ->
  cv_present eng = true ->
  let out := estimateCardOpenCV eng true h in
  (forall obj, obj ∈ live h -> obj ∈ live (fst out)) /\
  (live (fst out) = live h <->
   (exists ok, snd out = Ok ok) \/
   throws eng drawImage = true \/ throws eng imread = true) /\
  (snd out = Throw ->
   throws eng drawImage = false -> throws eng imread = false ->
   next h ∈ live (fst out)).
Proof.
  intros Hwf Hcv out. subst out.
  pose proof (Heap_wf_fresh h Hwf) as Hfresh.
  set (P := fun r : Heap * Result bool =>
              (forall obj, obj ∈ live h -> obj ∈ live (fst r)) /\
              (live (fst r) = live h <->
               (exists ok, snd r = Ok ok) \/
               throws eng drawImage = true \/ throws eng imread = true) /\
              (snd r = Throw ->
               throws eng drawImage = false -> throws eng imread = false ->
               next h ∈ live (fst r))).
  change (P (estimateCardOpenCV eng true h)).
  unfold estimateCardOpenCV. rewrite Hcv. cbn [negb].
  destruct (autoCanny (blur_data eng)) as [lower upper].
  rewrite call_bind_eq.
  destruct (throws eng drawImage) eqn:Hdraw.
  { unfold P. cbn [fst snd]. split; [auto |]. split; [| discriminate].
    split; auto. }
  rewrite create_bind_eq.
  destruct (throws eng imread) eqn:Hread.
  { unfold P. cbn [fst snd]. split; [auto |]. split; [| discriminate].
    split; auto. }
  assert (Leak : forall hk,
             (forall obj, obj ∈ live h -> obj ∈ live hk) ->
             next h ∈ live hk -> P (hk, Throw)).
  { intros hk Hsub Hsrc. unfold P. cbn [fst snd].
    split; [exact Hsub |]. split; [| auto].
    split.
    - intros E. rewrite E in Hsrc. contradiction.
    - intros [[ok Hok] | [H | H]]; discriminate. }
  repeat (rewrite create_bind_eq;
          match goal with
          | |- context [if throws eng ?c then _ else _] =>
              destruct (throws eng c);
              [apply Leak; cbn [live next];
               [intros obj Hobj; set_unfold; tauto | set_unfold; auto 20] |]
          end).
  repeat (rewrite call_bind_eq;
          match goal with
          | |- context [if throws eng ?c then _ else _] =>
              destruct (throws eng c);
              [apply Leak; cbn [live next];
               [intros obj Hobj; set_unfold; tauto | set_unfold; auto 20] |]
          end).
  repeat (rewrite create_bind_eq;
          match goal with
          | |- context [if throws eng ?c then _ else _] =>
              destruct (throws eng c);
              [apply Leak; cbn [live next];
               [intros obj Hobj; set_unfold; tauto | set_unfold; auto 20] |]
          end).
  rewrite call_bind_eq.
  destruct (throws eng findContours);
    [apply Leak; cbn [live next];
     [intros obj Hobj; set_unfold; tauto | set_unfold; auto 20] |].
  cbv zeta. cbn [next live]. unfold bind at 1.
  match goal with
  | |- context [contour_loop eng ?A ?cs 0 ?h0] =>
      set (h7 := h0);
      assert (Hwf7 : Heap_wf h7);
      [| destruct (contour_loop_any eng A cs 0 h7 Hwf7) as (_ & Hsub & Hok);
         destruct (contour_loop eng A cs 0 h7) as [h8 [ok |]] ]
  end.
  - subst h7. intros obj Hobj. cbn [live next] in *. set_unfold.
    repeat (destruct Hobj as [-> | Hobj]; [lia |]).
    apply Hwf in Hobj. lia.
  - cbn [fst snd] in Hsub, Hok. specialize (Hok ok eq_refl).
    assert (Elive : live (fst (bind (delete (next h)) (fun _ =>
                      bind (delete (S (next h))) (fun _ =>
                      bind (delete (S (S (next h)))) (fun _ =>
                      bind (delete (S (S (S (next h))))) (fun _ =>
                      bind (delete (S (S (S (S (S (next h))))))) (fun _ =>
                      bind (delete (S (S (S (S (S (S (next h)))))))) (fun _ =>
                      bind (delete (S (S (S (S (next h)))))) (fun _ =>
                      ret ok))))))) h8)) = live h).
    { cbn [bind delete ret fst live next]. rewrite Hok. subst h7. cbn [live].
      apply set_eq. intros x. set_unfold. split.
      - intros H. destruct H as [[[[[[[H ?] ?] ?] ?] ?] ?] ?].
        repeat (destruct H as [-> | H]; [congruence |]). exact H.
      - intros H.
        assert (forall k, x <> (k + next h)%nat).
        { intros k ->. apply Hwf in H. lia. }
        assert (E1 : forall k, x <> Nat.iter k S (next h)).
        { intros k. replace (Nat.iter k S (next h)) with (k + next h)%nat; [auto |].
          induction k; cbn; [reflexivity | f_equal; assumption]. }
        pose proof (E1 0%nat). pose proof (E1 1%nat). pose proof (E1 2%nat).
        pose proof (E1 3%nat). pose proof (E1 4%nat). pose proof (E1 5%nat).
        pose proof (E1 6%nat). cbn [Nat.iter] in *.
        repeat split; auto 12. }
    unfold P.
    match goal with
    | |- context [fst ?r] => set (out := r) in *
    end.
    assert (Esnd : snd out = Ok ok) by reflexivity.
    split; [intros obj Hobj; rewrite Elive; exact Hobj |].
    split; [| rewrite Esnd; discriminate].
    split; [intros _; left; exists ok; exact Esnd | intros _; exact Elive].
  - cbn [fst snd] in Hsub. apply Leak.
    + intros obj Hobj. apply Hsub. subst h7. cbn [live]. set_unfold. tauto.
    + apply Hsub. subst h7. cbn [live]. set_unfold. auto 20.
Qed.

Lemma estimateCardOpenCV_leaks_iff_witness :
  let eng := engine_cvtColor_throws in
  let h := empty_heap in
  let out := estimateCardOpenCV eng true h in
  (forall obj, obj ∈ live h -> obj ∈ live (fst out)) /\
  (live (fst out) = live h <->
   (exists ok, snd out = Ok ok) \/
   throws eng drawImage = true \/ throws eng imread = true) /\
  (snd out = Throw ->
   throws eng drawImage = false -> throws eng imread = false ->
   next h ∈ live (fst out)).
Proof.
  apply (estimateCardOpenCV_leaks_iff engine_cvtColor_throws empty_heap).
  - intros obj Hobj. cbn in Hobj. set_unfold. contradiction.
  - reflexivity.
Defined.

Lemma ltb_Qeq a a' b b' : a == a' -> b == b' -> JS.ltb a b = JS.ltb a' b'.
Proof. intros Ea Eb. unfold JS.ltb. rewrite Ea, Eb. reflexivity. Qed.

Lemma leb_Qeq a a' b b' : a == a' -> b == b' -> JS.leb a b = JS.leb a' b'.
Proof. intros Ea Eb. unfold JS.leb. rewrite Ea, Eb. reflexivity. Qed.

Lemma Qmax_comm_eq a b : Qmax a b == Qmax b a.
Proof. apply Q.max_comm. Qed.

Lemma Qmin_comm_eq a b : Qmin a b == Qmin b a.
Proof. apply Q.min_comm. Qed.

(** X15: the acceptance test of the contour detector.  It does not depend on
    which side of the rotated rectangle is called the width; it rejects
    every square, every contour smaller than 5% of the ROI and every
    rectangle at least 1.9 times as long as wide; and it accepts a filled
    rectangle whose short side is at least one pixel, whose long side is
    between 1.35 and 1.9 times the short side and whose area is between 12%
    and 98% of the ROI. *)
Theorem contour_accepted_facts (areaROI : Q) (c : Contour) :
  contour_accepted areaROI (Contour_turned c) = contour_accepted areaROI c /\
  (rr_width c == rr_height c -> contour_accepted areaROI c = false) /\
  (contour_area c < areaROI * 0.05 -> contour_accepted areaROI c = false) /\
  (1 <= rr_height c -> 1.9 * rr_height c <= rr_width c ->
   contour_accepted areaROI c = false) /\
  (1 <= rr_height c ->
   1.35 * rr_height c < rr_width c -> rr_width c < 1.9 * rr_height c ->
   contour_area c == rr_width c * rr_height c ->
   areaROI * 0.12 < rr_width c * rr_height c ->
   rr_width c * rr_height c < areaROI * 0.98 ->
   0 <= areaROI ->
   contour_accepted areaROI c = true).
Proof.
  destruct c as [a w h]. unfold Contour_turned.
  cbn [contour_area rr_width rr_height].
  split; [| split; [| split; [| split]]].
  - unfold contour_accepted. cbn [contour_area rr_width rr_height].
    assert (Ea : h * w == w * h) by ring.
    pose proof (Qmax_comm_eq h w) as Emax.
    pose proof (Qmin_comm_eq h w) as Emin.
    assert (Eminor : Qmax 1 (Qmin h w) == Qmax 1 (Qmin w h)).
    { rewrite Emin. reflexivity. }
    assert (Ear : Qmax h w / Qmax 1 (Qmin h w) == Qmax w h / Qmax 1 (Qmin w h)).
    { rewrite Emax, Eminor. reflexivity. }
    assert (Er : a / (h * w) == a / (w * h)) by (rewrite Ea; reflexivity).
    unfold JS.gtb.
    rewrite (leb_Qeq (h * w) (w * h) 0 0 Ea (Qeq_refl 0)).
    rewrite (ltb_Qeq (areaROI * 0.12) (areaROI * 0.12) (h * w) (w * h)
                     (Qeq_refl _) Ea).
    rewrite (ltb_Qeq (h * w) (w * h) (areaROI * 0.98) (areaROI * 0.98)
                     Ea (Qeq_refl _)).
    rewrite (ltb_Qeq 1.35 1.35 _ _ (Qeq_refl _) Ear).
    rewrite (ltb_Qeq _ _ 1.9 1.9 Ear (Qeq_refl _)).
    rewrite (ltb_Qeq 0.6 0.6 _ _ (Qeq_refl _) Er).
    reflexivity.
  - intros Hsq. unfold contour_accepted. cbn [contour_area rr_width rr_height].
    assert (Har : JS.gtb (Qmax w h / Qmax 1 (Qmin w h)) 1.35 = false).
    { apply ltb_ge.
      assert (Emax : Qmax w h == h).
      { destruct (Q.max_spec w h) as [[? E] | [? E]]; rewrite E; lra. }
      assert (Emin : Qmin w h == h).
      { destruct (Q.min_spec w h) as [[? E] | [? E]]; rewrite E; lra. }
      rewrite Emax, Emin.
      pose proof (Q.le_max_l 1 h). pose proof (Q.le_max_r 1 h).
      apply Qle_shift_div_r; lra. }
    rewrite Har. rewrite !andb_false_r. reflexivity.
  - intros Hsmall. unfold contour_accepted. cbn [contour_area].
    apply ltb_lt in Hsmall. rewrite Hsmall. reflexivity.
  - intros H1 Hlong. unfold contour_accepted. cbn [contour_area rr_width rr_height].
    assert (Har : JS.ltb (Qmax w h / Qmax 1 (Qmin w h)) 1.9 = false).
    { apply ltb_ge.
      assert (Emax : Qmax w h == w).
      { destruct (Q.max_spec w h) as [[? E] | [? E]]; rewrite E; lra. }
      assert (Emin : Qmin w h == h).
      { destruct (Q.min_spec w h) as [[? E] | [? E]]; rewrite E; lra. }
      assert (Eminor : Qmax 1 h == h).
      { destruct (Q.max_spec 1 h) as [[? E] | [? E]]; rewrite E; lra. }
      rewrite Emax, Emin, Eminor. apply Qle_shift_div_l; lra. }
    rewrite Har. rewrite !andb_false_r. reflexivity.
  - intros H1 Hlo Hhi Hfill H12 H98 HA.
    apply contour_accepted_card_like; [exact HA |].
    unfold card_like. cbn [contour_area rr_width rr_height].
    assert (Emax : Qmax w h == w).
    { destruct (Q.max_spec w h) as [[? E] | [? E]]; rewrite E; lra. }
    assert (Emin : Qmin w h == h).
    { destruct (Q.min_spec w h) as [[? E] | [? E]]; rewrite E; lra. }
    assert (Eminor : Qmax 1 h == h).
    { destruct (Q.max_spec 1 h) as [[? E] | [? E]]; rewrite E; lra. }
    assert (Hwh : 0 < w * h) by nra.
    rewrite Emax, Emin, Eminor, Hfill.
    repeat split; try lra.
    + apply Qlt_shift_div_l; lra.
    + apply Qlt_shift_div_r; lra.
    + apply Qlt_shift_div_l; lra.
Qed.

(** ** The loader of the vision engine *)

Lemma loader_inv_fresh cv in_page : loader_inv (fresh_page cv in_page).
Proof.
  unfold loader_inv, fresh_page. cbn.
  repeat split; intros; try congruence; try lia.
Qed.

Lemma loader_inv_step p e : loader_inv p -> loader_inv (loader_step p e).
Proof.
  destruct p as [ready promise cv inpage n loading handler].
  unfold loader_inv. cbn.
  intros (Hn & Hnone & Hready & Hrej & Hload).
  destruct e as [| cv' | | | cv' inpage']; cbn.
  - (* ensureOpenCV *)
    unfold ensureOpenCV_call; cbn.
    destruct (ready && cv_defined cv) eqn:Eready; cbn.
    { repeat split; try tauto; apply Hready || apply Hrej || apply Hload. }
    destruct promise as [st |]; cbn.
    { repeat split; try tauto; apply Hready || apply Hrej || apply Hload. }
    destruct (Hnone eq_refl) as (-> & -> & ->).
    assert (Hr : ready = false).
    { destruct ready; [| reflexivity].
      destruct Hready as [Hr _]. specialize (Hr eq_refl). discriminate. }
    subst ready.
    destruct inpage; cbn.
    + unfold loader_done, settle, set_opencvReady; cbn.
      destruct cv; cbn; repeat split; intros; try congruence; try lia.
    + repeat split; intros; try congruence; try lia.
  - (* the script loads *)
    destruct loading; cbn;
      [| repeat split; try tauto; apply Hready || apply Hrej || apply Hload].
    destruct (Hload eq_refl) as (-> & ->).
    assert (Hr : ready = false).
    { destruct ready; [| reflexivity].
      destruct Hready as [Hr _]. specialize (Hr eq_refl). discriminate. }
    subst ready.
    unfold loader_done, settle, set_opencvReady; cbn.
    destruct cv'; cbn; repeat split; intros; try congruence; try lia.
  - (* the script fails *)
    destruct loading; cbn;
      [| repeat split; try tauto; apply Hready || apply Hrej || apply Hload].
    destruct (Hload eq_refl) as (-> & ->).
    assert (Hr : ready = false).
    { destruct ready; [| reflexivity].
      destruct Hready as [Hr _]. specialize (Hr eq_refl). discriminate. }
    subst ready.
    unfold settle; cbn. repeat split; intros; try congruence; try lia.
  - (* the runtime is initialised *)
    destruct handler; cbn;
      [| repeat split; try tauto; apply Hready || apply Hrej || apply Hload].
    unfold settle, set_opencvReady; cbn.
    destruct promise as [[| |] |]; cbn.
    + repeat split; intros; try congruence; try lia;
        destruct (Hload ltac:(assumption)); congruence.
    + repeat split; intros; try congruence; try lia;
        destruct (Hload ltac:(assumption)); congruence.
    + specialize (Hrej eq_refl). discriminate.
    + destruct (Hnone eq_refl) as (_ & _ & ?). discriminate.
  - (* other code changes the page *)
    repeat split; try tauto; apply Hready || apply Hrej || apply Hload.
Qed.

Lemma loader_inv_run p es : loader_inv p -> loader_inv (loader_run p es).
Proof.
  unfold loader_run. revert p. induction es as [| e es IH]; intros p Hp.
  - exact Hp.
  - cbn [fold_left]. apply IH. apply loader_inv_step. exact Hp.
Qed.

Lemma loader_rejected_step p e :
  loader_inv p -> opencvPromise p = Some Rejected ->
  opencvPromise (loader_step p e) = Some Rejected /\
  scripts_appended (loader_step p e) = scripts_appended p.
Proof.
  destruct p as [ready promise cv inpage n loading handler].
  unfold loader_inv. cbn.
  intros (Hn & Hnone & Hready & Hrej & Hload) ->.
  specialize (Hrej eq_refl). subst handler.
  assert (loading = false) as ->.
  { destruct loading; [| reflexivity].
    destruct (Hload eq_refl). congruence. }
  assert (ready = false) as ->.
  { destruct ready; [| reflexivity].
    destruct Hready as [Hr _]. specialize (Hr eq_refl). discriminate. }
  destruct e; cbn; auto.
Qed.

Lemma loader_rejected_run p es :
  loader_inv p -> opencvPromise p = Some Rejected ->
  opencvPromise (loader_run p es) = Some Rejected /\
  scripts_appended (loader_run p es) = scripts_appended p.
Proof.
  unfold loader_run. revert p. induction es as [| e es IH]; intros p Hp Hr.
  - auto.
  - cbn [fold_left].
    destruct (loader_rejected_step p e Hp Hr) as [Hr' Hn'].
    destruct (IH _ (loader_inv_step p e Hp) Hr') as [Hr'' Hn''].
    split; [exact Hr'' | congruence].
Qed.

(** X16: whatever the calls of [ensureOpenCV] and whatever happens to the
    script and the page, starting from a page where the loader has not run:
    the loader appends at most one script element; [__opencvReady] is set
    exactly when the loader's promise is fulfilled; when [isOpenCVReady]
    answers true, [ensureOpenCV] returns a fulfilled promise and leaves
    everything as it is; and when [ensureOpenCV] returns a fulfilled
    promise, [__opencvReady] is set. *)
Theorem ensureOpenCV_single_script (cv : CvGlobal) (in_page : bool)
    (es : list LoaderEvent) :
  let p := loader_run (fresh_page cv in_page) es in
  (scripts_appended p <= 1)%nat /\
  (opencvReady p = true <-> opencvPromise p = Some Fulfilled) /\
  (isOpenCVReady_call p = true -> ensureOpenCV_call p = (p, Fulfilled)) /\
  (snd (ensureOpenCV_call p) = Fulfilled ->
   opencvReady (fst (ensureOpenCV_call p)) = true).
Proof.
  intros p.
  assert (Hinv : loader_inv p)
    by (apply loader_inv_run, loader_inv_fresh).
  assert (Hinv' : loader_inv (loader_step p CallEnsureOpenCV))
    by (apply loader_inv_step, Hinv).
  destruct Hinv as (Hn & Hnone & Hready & Hrej & Hload).
  split; [exact Hn |]. split; [exact Hready |]. split.
  - unfold isOpenCVReady_call, ensureOpenCV_call. intros ->. reflexivity.
  - destruct Hinv' as (_ & _ & Hready' & _). cbn [loader_step] in Hready'.
    intros Hf. apply Hready'.
    revert Hf. unfold ensureOpenCV_call.
    destruct (opencvReady p && cv_defined (window_cv p)) eqn:E.
    + cbn. intros _. apply Hready.
      apply andb_true_iff in E. tauto.
    + destruct (opencvPromise p) as [st |] eqn:Ep; cbn [fst snd].
      * intros ->. exact Ep.
      * match goal with
        | |- context [opencvPromise ?q] =>
            destruct (opencvPromise q) as [st |]
        end; [intros ->; reflexivity | discriminate].
Qed.

(** X17: a failed load is never tried again.  Once the loader's promise is
    rejected (the script failed, or [window.cv] was missing when the script
    had loaded or when a script element with the URL was already in the
    page), then whatever happens afterwards, also if [window.cv] appears
    later, every call of [ensureOpenCV] returns that rejected promise and
    changes nothing, no further script element is appended, and
    [isOpenCVReady] answers false. *)
Theorem ensureOpenCV_never_retries (cv : CvGlobal) (in_page : bool)
    (es es' : list LoaderEvent) :
  let p := loader_run (fresh_page cv in_page) es in
  opencvPromise p = Some Rejected ->
  let p' := loader_run p es' in
  ensureOpenCV_call p' = (p', Rejected) /\
  scripts_appended p' = scripts_appended p /\
  isOpenCVReady_call p' = false.
Proof.
  intros p Hr p'.
  assert (Hinv : loader_inv p)
    by (apply loader_inv_run, loader_inv_fresh).
  assert (Hinv' : loader_inv p') by (apply loader_inv_run, Hinv).
  destruct (loader_rejected_run p es' Hinv Hr) as [Hr' Hn'].
  fold p' in Hr', Hn'.
  destruct Hinv' as (_ & _ & Hready' & _).
  assert (Hf : opencvReady p' = false).
  { destruct (opencvReady p'); [| reflexivity].
    destruct Hready' as [H _]. specialize (H eq_refl). congruence. }
  unfold ensureOpenCV_call, isOpenCVReady_call.
  rewrite Hf, Hr'. cbn. auto.
Qed.

(** A script element with the URL is already in the page but [window.cv] is
    not there yet when [ensureOpenCV] is first called: the load is rejected
    at once, and it stays rejected when the engine has arrived. *)
Lemma ensureOpenCV_never_retries_witness :
  let es := [CallEnsureOpenCV] in
  let es' := [PageChange cv_built true; RuntimeInitialized] in
  let p := loader_run (fresh_page cv_undefined true) es in
  let p' := loader_run p es' in
  opencvPromise p = Some Rejected /\
  window_cv p' = cv_built /\
  ensureOpenCV_call p' = (p', Rejected) /\
  scripts_appended p' = scripts_appended p /\
  isOpenCVReady_call p' = false.
Proof.
  split; [reflexivity |]. split; [reflexivity |].
  apply (ensureOpenCV_never_retries cv_undefined true
           [CallEnsureOpenCV] [PageChange cv_built true; RuntimeInitialized]).
  reflexivity.
Defined.

(** ** The session *)

(** What holds before the due timeouts fire and is kept by each of them
    holds after [fire_due]. *)
Lemma fire_due_ind (P : State -> Prop) t s :
  (forall s l, P s -> P (set_timeouts l s)) ->
  (forall s d, P s -> P (timer_body (set_now d s))) ->
  P s -> P (fire_due t s).
Proof.
  intros Hset Hbody Hs. unfold fire_due. cbv zeta.
  generalize (Hset s (List.filter (fun d => negb (d <=? t)%Z) (timeouts s)) Hs).
  generalize (set_timeouts (List.filter (fun d => negb (d <=? t)%Z) (timeouts s)) s).
  induction (List.filter (fun d => (d <=? t)%Z) (timeouts s)) as [| d due IH];
    intros s0 H0; cbn [fold_left].
  - exact H0.
  - apply IH. apply Hbody. exact H0.
Qed.

Lemma run_ind (P : State -> Prop) (ok : Event -> bool) s es :
  (forall s e, ok e = true -> P s -> P (step s e)) ->
  forallb ok es = true -> P s -> P (run s es).
Proof.
  intros Hstep. unfold run. revert s.
  induction es as [| e es IH]; intros s Hes Hs; cbn [fold_left].
  - exact Hs.
  - cbn [forallb] in Hes. apply andb_true_iff in Hes as [He Hes].
    apply IH; [exact Hes |]. apply Hstep; assumption.
Qed.

Lemma forallb_true {A} (l : list A) : forallb (fun _ => true) l = true.
Proof. induction l; cbn; auto. Qed.

(** A tick whose function has auto-capture off arms nothing. *)
Lemma detectionTick_manual f o s :
  tc_autoCapture f = false ->
  timeouts (detectionTick f o s) = timeouts s /\
  capturePending (detectionTick f o s) = capturePending s.
Proof.
  intros Hf.
  unfold detectionTick, detectionTick_autoCapture, detectionTick_face,
    detectionTick_card.
  rewrite Hf. cbn [andb]. split; preserved.
Qed.

(** X18: as long as the parent does not change [faceModelsUrl] (the renders
    of this model, see [Props]), the auto-capture setting of the first
    render is the one that counts.  When the component is mounted with
    [autoCapture] off, then whatever the parent passes for [isOpen],
    [autoCapture] and [autoCaptureDelayMs] in later renders, and whatever
    else happens (the camera answering or failing, ticks, frames, clicks),
    no auto-capture timer is ever armed and [capturePending] stays false:
    [start] is memoised on [faceModelsUrl] alone and keeps the
    [detectionTick] of the first render.  A render with another
    [faceModelsUrl] ends this: it starts an interval with the [detectionTick]
    of that render. *)
Theorem autoCapture_of_first_render p ctx es :
  autoCapture p = false ->
  let s := run (mount p ctx) es in
  timeouts s = [] /\ capturePending s = false.
Proof.
  intros Hoff s.
  set (P := fun s : State =>
              stale_closure p s /\ timeouts s = [] /\ capturePending s = false).
  assert (H : P s).
  { apply (run_ind P (fun _ => true)).
    - clear s. intros s e _ (Hst & Ht & Hp).
      split; [apply stale_closure_step; exact Hst |].
      destruct e as [p' | ok | | fr | o | | | m |]; cbn [step].
      + rewrite <- Ht, <- Hp. unfold parentRender. split; preserved.
      + rewrite <- Ht, <- Hp. unfold start_settled, onPlaying. split; preserved.
      + auto.
      + rewrite <- Ht, <- Hp. unfold draw. split; preserved.
      + unfold period, fire_due. cbv zeta. rewrite Ht.
        cbn [List.filter fold_left].
        cbn [detectionTimerRef set_now set_timeouts].
        destruct Hst as [Hstart [Hnone | Hsome]].
        * rewrite Hnone. cbn. auto.
        * rewrite Hsome.
          destruct (detectionTick_manual (memo_start s) o
                      (set_now (now s + tick_period)%Z (set_timeouts [] s)))
            as [E1 E2].
          { rewrite Hstart. exact Hoff. }
          rewrite E1, E2. cbn. auto.
      + rewrite <- Ht, <- Hp. split; preserved.
      + rewrite <- Ht, <- Hp. unfold capture. split; preserved.
      + rewrite <- Ht, <- Hp. split; preserved.
      + rewrite <- Ht, <- Hp. unfold start_play_rejected. split; preserved.
    - apply forallb_true.
    - split; [apply stale_closure_mount |].
      unfold mount. cbv zeta. destruct (isOpen p); auto. }
  destruct H as (_ & Ht & Hp). auto.
Qed.

(** The parent turns auto-capture on right after the first render; the face
    is framed in two ticks, and no timer is armed. *)
Lemma autoCapture_of_first_render_witness :
  let es := [ParentRender demo_props; StartSettled true; FaceModelsLoaded;
             AnimationFrame demo_frame;
             Period oracle_framed; Period oracle_framed] in
  let s := run (mount props_manual true) es in
  (autoCapture (props s) = true /\ faceInsideRef s = true) /\
  timeouts s = [] /\ capturePending s = false.
Proof.
  split; [vm_compute; auto |].
  apply (autoCapture_of_first_render props_manual true
           [ParentRender demo_props; StartSettled true; FaceModelsLoaded;
            AnimationFrame demo_frame;
            Period oracle_framed; Period oracle_framed]).
  reflexivity.
Defined.

(** Where X18 ends: a render with another [faceModelsUrl].  In an open
    session in which no [start] is waiting, such a render stops the stream
    and calls the new [start]; when the camera plays again, the interval
    runs the [detectionTick] of that render, with its [autoCapture]. *)
Lemma newFaceModelsUrl_restarts p s :
  starting s = 0%nat ->
  isOpen (props s) = true ->
  isOpen p = true ->
  let s1 := start_settled true (parentRender_newFaceModelsUrl p s) in
  detectionTimerRef s1
  = Some (useCallback_detectionTick (memo_detectionTick s) p (capturePending s)) /\
  memo_start s1
  = useCallback_detectionTick (memo_detectionTick s) p (capturePending s).
Proof.
  destruct s as [pr ov cp ist ovr raf dtr str fml lfb fir cor mr mdt mst nw
                 tos occ hp c2 stg].
  cbn [starting props]. intros -> Hopen Hp.
  unfold parentRender_newFaceModelsUrl, start_settled, onPlaying, start,
    stopStream, setIsStreaming, rerender, render_hooks, commit_overlay.
  cbn -[useCallback_detectionTick]. rewrite Hopen, Hp.
  cbn -[useCallback_detectionTick]. rewrite Hp.
  cbn -[useCallback_detectionTick].
  split; reflexivity.
Qed.

(** The session of X18's witness with one difference: the render that turns
    [autoCapture] on also passes another [faceModelsUrl].  The camera plays
    again, the face is framed in two ticks, and two timers are armed. *)
Example autoCapture_after_newFaceModelsUrl :
  let s0 := run (mount props_manual true) [StartSettled true] in
  let s1 := parentRender_newFaceModelsUrl demo_props s0 in
  let s := run s1 [StartSettled true; FaceModelsLoaded;
                   AnimationFrame demo_frame;
                   Period oracle_framed; Period oracle_framed] in
  starting s0 = 0%nat /\ timeouts s = [5333%Z; 5666%Z].
Proof. vm_compute. split; reflexivity. Qed.

(** While the session is closed, a step that is not a render by the parent
    keeps it closed, delivers nothing, and leaves the stream, the interval
    and the mapping as they are unless the camera answers. *)
Lemma closed_step s e :
  is_ParentRender e = false ->
  isOpen (props s) = false ->
  let s' := step s e in
  props s' = props s /\
  onCapture_calls s' = onCapture_calls s /\
  detectionTimerRef s' = detectionTimerRef s /\
  mappingRef s' = mappingRef s /\
  (streamRef s = true -> streamRef s' = true).
Proof.
  intros He Hclosed.
  set (P := fun s0 : State =>
              props s0 = props s /\
              onCapture_calls s0 = onCapture_calls s /\
              detectionTimerRef s0 = detectionTimerRef s /\
              mappingRef s0 = mappingRef s /\
              (streamRef s = true -> streamRef s0 = true)).
  assert (P0 : P s) by (unfold P; auto).
  destruct e as [p' | ok | | fr | o | | | m |]; cbn [step]; cbv zeta.
  - discriminate.
  - unfold start_settled. destruct (starting s); [exact P0 |].
    destruct ok; cbn; rewrite ?Hclosed; cbn; auto.
  - cbn. auto.
  - unfold draw. rewrite Hclosed. cbn. destruct (rafRef s); auto.
  - unfold period. cbv zeta.
    assert (H : P (fire_due (now s + tick_period)%Z s)).
    { apply fire_due_ind; [| | exact P0].
      - intros s0 l H0. exact H0.
      - intros s0 d (E1 & E2 & E3 & E4 & E5).
        unfold P, timer_body, capture. cbv zeta.
        cbn [props set_now]. rewrite E1, Hclosed. cbn [negb].
        destruct (ok_flag (set_now d s0)); cbn; auto. }
    destruct H as (E1 & E2 & E3 & E4 & E5).
    cbn [detectionTimerRef set_now]. rewrite E3.
    destruct (detectionTimerRef s) as [f |].
    + unfold detectionTick. cbn [props set_now]. rewrite E1, Hclosed.
      cbn. auto.
    + cbn. auto.
  - rewrite Hclosed. auto.
  - rewrite Hclosed. cbn. auto.
  - rewrite Hclosed. auto.
  - unfold start_play_rejected. destruct (starting s); [exact P0 |].
    cbn. rewrite Hclosed. cbn. auto.
Qed.

Lemma closed_run s es :
  forallb (fun e => negb (is_ParentRender e)) es = true ->
  isOpen (props s) = false ->
  let s' := run s es in
  props s' = props s /\
  onCapture_calls s' = onCapture_calls s /\
  detectionTimerRef s' = detectionTimerRef s /\
  mappingRef s' = mappingRef s /\
  (streamRef s = true -> streamRef s' = true).
Proof.
  intros Hes Hclosed. cbv zeta.
  apply (run_ind (fun s0 =>
           props s0 = props s /\
           onCapture_calls s0 = onCapture_calls s /\
           detectionTimerRef s0 = detectionTimerRef s /\
           mappingRef s0 = mappingRef s /\
           (streamRef s = true -> streamRef s0 = true))
         (fun e => negb (is_ParentRender e))); [| exact Hes | auto].
  intros s0 e He (E1 & E2 & E3 & E4 & E5).
  apply negb_true_iff in He.
  assert (Hc : isOpen (props s0) = false) by (rewrite E1; exact Hclosed).
  destruct (closed_step s0 e He Hc) as (F1 & F2 & F3 & F4 & F5).
  repeat split; try congruence. auto.
Qed.

(** X19: a closed session delivers nothing.  While the open/closed flag is
    off, and until the parent renders the component again, nothing that can
    happen (timers that were armed before and fall due, ticks of an interval,
    animation frames, clicks, the camera answering) calls the capture
    callback, opens the session, starts an interval or publishes a
    mapping. *)
Theorem closed_session_delivers_nothing s es :
  isOpen (props s) = false ->
  forallb (fun e => negb (is_ParentRender e)) es = true ->
  let s' := run s es in
  isOpen (props s') = false /\
  onCapture_calls s' = onCapture_calls s /\
  detectionTimerRef s' = detectionTimerRef s /\
  mappingRef s' = mappingRef s.
Proof.
  intros Hclosed Hes.
  destruct (closed_run s es Hes Hclosed) as (E1 & E2 & E3 & E4 & _).
  cbv zeta. rewrite E1. auto.
Qed.

(** A face was framed and a timer armed at 333 ms; the parent closes the
    session; the timer falls due while the session is closed. *)
Lemma closed_session_delivers_nothing_witness :
  let s := parentRender demo_props_closed (period oracle_framed demo_streaming) in
  let es := repeat (Period oracle_framed) 18 ++ [ClickCapture; StartSettled true] in
  let s' := run s es in
  (timeouts s = [5333%Z] /\ faceInsideRef s = true /\ timeouts s' = []) /\
  isOpen (props s') = false /\
  onCapture_calls s' = onCapture_calls s /\
  detectionTimerRef s' = detectionTimerRef s /\
  mappingRef s' = mappingRef s.
Proof.
  split; [vm_compute; auto |].
  apply (closed_session_delivers_nothing
           (parentRender demo_props_closed (period oracle_framed demo_streaming))
           (repeat (Period oracle_framed) 18 ++ [ClickCapture; StartSettled true])).
  - reflexivity.
  - reflexivity.
Defined.

(** X20: the camera answers after the session was closed.  When [start] is
    still waiting for the camera and the session is closed, the stream that
    arrives is stored in [streamRef] and nothing stops it: the session stays
    closed with a running stream until the parent renders the component
    again. *)
Theorem late_camera_answer_keeps_stream s es :
  isOpen (props s) = false ->
  (0 < starting s)%nat ->
  forallb (fun e => negb (is_ParentRender e)) es = true ->
  let s' := run (start_settled true s) es in
  isOpen (props s') = false /\ streamRef s' = true.
Proof.
  intros Hclosed Hstart Hes.
  assert (H0 : props (start_settled true s) = props s /\
               streamRef (start_settled true s) = true).
  { unfold start_settled. destruct (starting s); [lia |].
    cbn. rewrite Hclosed. cbn. auto. }
  destruct H0 as [Hp Hs].
  assert (Hc : isOpen (props (start_settled true s)) = false)
    by (rewrite Hp; exact Hclosed).
  destruct (closed_run _ es Hes Hc) as (E1 & _ & _ & _ & E5).
  cbv zeta. rewrite E1, Hp. auto.
Qed.

(** The parent closes the session right after opening it; the camera
    answers afterwards. *)
Lemma late_camera_answer_keeps_stream_witness :
  let s := run (mount demo_props true) [ParentRender demo_props_closed] in
  let es := [Period oracle_framed; AnimationFrame demo_frame; ClickClose] in
  let s' := run (start_settled true s) es in
  (streamRef s = false) /\
  isOpen (props s') = false /\ streamRef s' = true.
Proof.
  split; [reflexivity |].
  apply (late_camera_answer_keeps_stream
           (run (mount demo_props true) [ParentRender demo_props_closed])
           [Period oracle_framed; AnimationFrame demo_frame; ClickClose]).
  - reflexivity.
  - vm_compute. lia.
  - reflexivity.
Defined.

(** X21: the Close control does not cancel a pending auto-capture timer and
    does not reset the detection flags.  In a session whose mode ref agrees
    with the mode state (as after every render), with one timer pending, due
    at [d], and the flag of the active mode true, the Close control reports
    null and leaves the timer pending; when the timer fires in the session
    that the parent has left open, a capture is delivered after the null. *)
Theorem close_keeps_timer s d :
  isOpen (props s) = true ->
  canvas2d s = true ->
  overlayRef s = overlay s ->
  timeouts s = [d] ->
  ok_flag s = true ->
  let s' := step s ClickClose in
  (timeouts s' = [d] /\ ok_flag s' = true /\
   onCapture_calls s' = onCapture_calls s ++ [None]) /\
  onCapture_calls (fire_due d s') = onCapture_calls s ++ [None; Some d] /\
  timeouts (fire_due d s') = [].
Proof.
  destruct s as [pr ov cp ist ovr raf dtr str fml lfb fir cor mr mdt mst nw
                 tos occ hp c2 stg].
  unfold ok_flag. cbn [props canvas2d overlayRef overlay timeouts
                       faceInsideRef cardOkRef onCapture_calls].
  intros Hopen -> -> -> Hok.
  cbn [step props]. rewrite Hopen. cbv zeta.
  unfold fire_due, close, stopStream, setIsStreaming, rerender, render_hooks,
    commit_overlay, onCapture.
  cbn -[Z.leb useCallback_detectionTick].
  rewrite Z.leb_refl.
  cbn -[Z.leb useCallback_detectionTick].
  unfold timer_body, ok_flag, capture, setCapturePending, rerender,
    render_hooks, commit_overlay, onCapture.
  cbn -[Z.leb useCallback_detectionTick].
  rewrite Hok, Hopen.
  cbn -[Z.leb useCallback_detectionTick].
  rewrite <- app_assoc. auto.
Qed.

Lemma close_keeps_timer_witness :
  let s := period oracle_framed demo_streaming in
  let d := 5333%Z in
  let s' := step s ClickClose in
  (timeouts s' = [d] /\ ok_flag s' = true /\
   onCapture_calls s' = onCapture_calls s ++ [None]) /\
  onCapture_calls (fire_due d s') = onCapture_calls s ++ [None; Some d] /\
  timeouts (fire_due d s') = [].
Proof.
  apply (close_keeps_timer (period oracle_framed demo_streaming) 5333%Z).
  - vm_compute. reflexivity.
  - vm_compute. reflexivity.
  - vm_compute. reflexivity.
  - vm_compute. reflexivity.
  - vm_compute. reflexivity.
Defined.

Lemma detectionTick_autoCapture_frame f s :
  let s' := detectionTick_autoCapture f s in
  onCapture_calls s' = onCapture_calls s /\ props s' = props s /\
  overlay s' = overlay s /\
  mappingRef s' = mappingRef s /\ streamRef s' = streamRef s /\
  rafRef s' = rafRef s /\ detectionTimerRef s' = detectionTimerRef s /\
  isStreaming s' = isStreaming s /\
  cardOkRef s' = cardOkRef s /\ cv_heap s' = cv_heap s /\
  faceInsideRef s' = faceInsideRef s /\ lastFaceBoxRef s' = lastFaceBoxRef s.
Proof.
  cbv zeta. unfold detectionTick_autoCapture.
  destruct (tc_autoCapture f && negb (tc_capturePending f));
    [destruct (ok_flag s) |]; repeat split; reflexivity.
Qed.

Lemma detectionTick_face_frame o map s :
  let s' := detectionTick_face o map s in
  onCapture_calls s' = onCapture_calls s /\ props s' = props s /\
  overlay s' = overlay s /\
  mappingRef s' = mappingRef s /\ streamRef s' = streamRef s /\
  rafRef s' = rafRef s /\ detectionTimerRef s' = detectionTimerRef s /\
  isStreaming s' = isStreaming s /\
  cardOkRef s' = cardOkRef s /\ cv_heap s' = cv_heap s.
Proof.
  cbv zeta. unfold detectionTick_face.
  destruct (detectSingleFace o) as [[b |] |];
    [destruct (canvas2d _) | |]; repeat split; reflexivity.
Qed.

Lemma detectionTick_card_frame o map s :
  let s' := detectionTick_card o map s in
  onCapture_calls s' = onCapture_calls s /\ props s' = props s /\
  overlay s' = overlay s /\
  mappingRef s' = mappingRef s /\ streamRef s' = streamRef s /\
  rafRef s' = rafRef s /\ detectionTimerRef s' = detectionTimerRef s /\
  isStreaming s' = isStreaming s /\
  faceInsideRef s' = faceInsideRef s /\ lastFaceBoxRef s' = lastFaceBoxRef s.
Proof.
  cbv zeta. unfold detectionTick_card.
  generalize (card_attempts o map s). intros [h [b |]];
    repeat split; reflexivity.
Qed.

(** X22: what a detection tick leaves alone.  A run of [detectionTick]
    never calls the capture callback, never changes the props, the guide
    mode, the mapping, the stream, the animation frame or the interval, and
    it writes the detection results of the active mode only: in face mode
    the card flag and the engine's objects are untouched, in card mode the
    face flag and the last face box are untouched, and in face mode before
    the face model is loaded the face flag keeps the value it had. *)
Theorem detectionTick_writes_active_mode f o s :
  let s' := detectionTick f o s in
  (onCapture_calls s' = onCapture_calls s /\ props s' = props s /\
   overlay s' = overlay s /\
   mappingRef s' = mappingRef s /\ streamRef s' = streamRef s /\
   rafRef s' = rafRef s /\ detectionTimerRef s' = detectionTimerRef s /\
   isStreaming s' = isStreaming s) /\
  (overlayRef s = face ->
   cardOkRef s' = cardOkRef s /\ cv_heap s' = cv_heap s) /\
  (overlayRef s = card ->
   faceInsideRef s' = faceInsideRef s /\
   lastFaceBoxRef s' = lastFaceBoxRef s) /\
  (overlayRef s = face -> faceModelsLoadedRef s = false ->
   faceInsideRef s' = faceInsideRef s /\
   lastFaceBoxRef s' = lastFaceBoxRef s).
Proof.
  cbv zeta. unfold detectionTick.
  destruct (negb (isOpen (props s))); [tauto |].
  destruct (mappingRef s) as [map |] eqn:Emap; [| tauto].
  rewrite <- Emap.
  destruct (overlayRef s) eqn:Emode.
  - destruct (faceModelsLoadedRef s) eqn:Eloaded.
    + destruct (detectionTick_autoCapture_frame f (detectionTick_face o map s))
        as (A1 & A2 & A3 & A4 & A5 & A6 & A7 & A8 & A9 & A10 & _).
      destruct (detectionTick_face_frame o map s)
        as (F1 & F2 & F3 & F4 & F5 & F6 & F7 & F8 & F9 & F10).
      split; [repeat split; congruence |].
      split; [intros _; split; congruence |].
      split; intros; discriminate.
    + destruct (detectionTick_autoCapture_frame f s)
        as (A1 & A2 & A3 & A4 & A5 & A6 & A7 & A8 & A9 & A10 & A11 & A12).
      split; [repeat split; assumption |].
      split; [intros _; split; assumption |].
      split; [intros; discriminate |].
      intros _ _; split; assumption.
  - destruct (detectionTick_autoCapture_frame f (detectionTick_card o map s))
      as (A1 & A2 & A3 & A4 & A5 & A6 & A7 & A8 & _ & _ & A11 & A12).
    destruct (detectionTick_card_frame o map s)
      as (F1 & F2 & F3 & F4 & F5 & F6 & F7 & F8 & F9 & F10).
    split; [repeat split; congruence |].
    split; [intros; discriminate |].
    split; [intros _; split; congruence |].
    intros; discriminate.
Qed.

(** ** The mapping that [draw] publishes *)

Lemma whole_px_cases q : whole_px q = true -> q == 0 \/ 1 <= q.
Proof.
  unfold whole_px. intros H. apply andb_true_iff in H as [H0 Hz].
  apply Qle_bool_iff in H0. apply Qeq_bool_iff in Hz.
  assert (Hf : (0 <= Qfloor q)%Z).
  { change 0%Z with (Qfloor 0). apply Qfloor_resp_le. exact H0. }
  destruct (Z.eq_dec (Qfloor q) 0%Z) as [E | E].
  - left. rewrite Hz, E. reflexivity.
  - right. rewrite Hz. change 1 with (inject_Z 1).
    rewrite <- Zle_Qle. lia.
Qed.

Lemma whole_px_nonneg q : whole_px q = true -> 0 <= q.
Proof.
  unfold whole_px. intros H. apply andb_true_iff in H as [H0 _].
  apply Qle_bool_iff in H0. exact H0.
Qed.

(** [a || b] with [a] a whole length and [b] at least one. *)
Lemma or_else_whole a b :
  whole_px a = true -> 1 <= b -> 1 <= JS.or_else a b.
Proof.
  intros Ha Hb. unfold JS.or_else.
  destruct (Qeq_bool a 0) eqn:E; [exact Hb |].
  apply Qeq_bool_neq in E.
  destruct (whole_px_cases a Ha); [contradiction | assumption].
Qed.

Lemma or_else_whole_cases a b :
  whole_px a = true -> whole_px b = true ->
  JS.or_else a b == 0 \/ 1 <= JS.or_else a b.
Proof.
  intros Ha Hb. unfold JS.or_else.
  destruct (Qeq_bool a 0) eqn:E.
  - apply whole_px_cases. exact Hb.
  - apply Qeq_bool_neq in E.
    destruct (whole_px_cases a Ha); [contradiction | right; assumption].
Qed.

Lemma or_else_default a d :
  (a == 0 \/ 1 <= a) -> 1 <= d -> 1 <= JS.or_else a d.
Proof.
  intros Ha Hd. unfold JS.or_else.
  destruct (Qeq_bool a 0) eqn:E; [exact Hd |].
  apply Qeq_bool_neq in E. destruct Ha; [contradiction | assumption].
Qed.

Lemma floor_ge_1 q : 1 <= q -> 1 <= JS.floor q.
Proof.
  intros H. unfold JS.floor. change 1 with (inject_Z 1).
  rewrite <- Zle_Qle. change 1%Z with (Qfloor 1).
  apply Qfloor_resp_le. exact H.
Qed.

(** The canvas [draw] sets up is at least one pixel wide and high. *)
Lemma draw_canvasSize_ge_1 f :
  FrameEnv_whole f = true ->
  1 <= fst (draw_canvasSize f) /\ 1 <= snd (draw_canvasSize f).
Proof.
  unfold FrameEnv_whole. intros H.
  do 5 (apply andb_true_iff in H as [H ?]).
  unfold draw_canvasSize. cbv zeta. cbn [fst snd].
  set (dpr := Qmax 1 (Qmin 3 (JS.or_else (devicePixelRatio f) 1))).
  assert (Hdpr : 1 <= dpr) by apply Q.le_max_l.
  set (tW := JS.or_else (JS.or_else (clientWidth f) (innerWidth f)) 1440).
  set (tH := JS.or_else (JS.or_else (clientHeight f) (innerHeight f)) 2560).
  assert (HW : 1 <= tW).
  { apply or_else_default; [apply or_else_whole_cases; assumption | lra]. }
  assert (HH : 1 <= tH).
  { apply or_else_default; [apply or_else_whole_cases; assumption | lra]. }
  split; apply floor_ge_1; nra.
Qed.

Lemma draw_mappingRef f s :
  mappingRef (draw f s) = mappingRef s \/
  mappingRef (draw f s) =
    Some (draw_mapping (fst (draw_canvasSize f)) (snd (draw_canvasSize f))
            (videoWidth f) (videoHeight f)
            (OverlayMode_eqb (overlayRef s) face)).
Proof.
  unfold draw. cbv zeta.
  destruct (negb (isOpen (props s))); [left; reflexivity |].
  destruct (readyState f <? 2)%Z; [left; reflexivity |].
  destruct (negb (canvas2d s)); [left; reflexivity |].
  right. reflexivity.
Qed.

Lemma timer_body_mappingRef s : mappingRef (timer_body s) = mappingRef s.
Proof.
  unfold timer_body, capture. cbv zeta.
  destruct (ok_flag s); [| reflexivity].
  destruct (negb (isOpen (props s))); [reflexivity |].
  destruct (negb (canvas2d s)); reflexivity.
Qed.

Lemma detectionTick_mappingRef f o s :
  mappingRef (detectionTick f o s) = mappingRef s.
Proof.
  unfold detectionTick.
  destruct (negb (isOpen (props s))); [reflexivity |].
  destruct (mappingRef s) as [map |] eqn:Emap; [| exact Emap].
  rewrite <- Emap.
  destruct (overlayRef s); [destruct (faceModelsLoadedRef s) |].
  - destruct (detectionTick_autoCapture_frame f (detectionTick_face o map s))
      as (_ & _ & _ & A & _).
    destruct (detectionTick_face_frame o map s) as (_ & _ & _ & F & _).
    cbv zeta in A, F. congruence.
  - destruct (detectionTick_autoCapture_frame f s) as (_ & _ & _ & A & _).
    exact A.
  - destruct (detectionTick_autoCapture_frame f (detectionTick_card o map s))
      as (_ & _ & _ & A & _).
    destruct (detectionTick_card_frame o map s) as (_ & _ & _ & F & _).
    cbv zeta in A, F. congruence.
Qed.

Lemma step_mappingRef s e :
  mappingRef (step s e) = mappingRef s \/
  exists f, e = AnimationFrame f /\ mappingRef (step s e) = mappingRef (draw f s).
Proof.
  destruct e as [p' | ok | | fr | o | | | m |]; cbn [step].
  - left. unfold parentRender. preserved.
  - left. unfold start_settled, onPlaying. preserved.
  - left. reflexivity.
  - destruct (rafRef s); [right; exists fr; auto | left; reflexivity].
  - left. unfold period. cbv zeta.
    assert (H : mappingRef (fire_due (now s + tick_period)%Z s) = mappingRef s).
    { apply (fire_due_ind (fun s0 => mappingRef s0 = mappingRef s));
        [auto | | reflexivity].
      intros s0 d H0. rewrite timer_body_mappingRef. exact H0. }
    destruct (detectionTimerRef _) as [f |];
      [rewrite detectionTick_mappingRef |]; exact H.
  - left. preserved.
  - left. unfold capture. preserved.
  - left. preserved.
  - left. unfold start_play_rejected. preserved.
Qed.

(** X23: the mapping the detection tick reads is a cover fit of a canvas of
    at least one pixel.  In every session in which the lengths [draw] reads
    from the page and the video are whole numbers that are not negative,
    whatever else happens, a mapping found in [mappingRef] has a canvas of at
    least one pixel each way, a positive video size and scale, the scaled
    video at least as large as the canvas, offsets at most zero, and the far
    edges of the video less than a pixel short of the canvas edges or
    beyond. *)
Theorem mappingRef_covers p ctx es m :
  forallb Event_whole es = true ->
  mappingRef (run (mount p ctx) es) = Some m ->
  Mapping_covers m.
Proof.
  intros Hes. revert m.
  apply (run_ind (fun s => forall m, mappingRef s = Some m -> Mapping_covers m)
                 Event_whole); [| exact Hes |].
  - intros s e He IH m Hm.
    destruct (step_mappingRef s e) as [E | (f & -> & E)].
    + apply IH. congruence.
    + destruct (draw_mappingRef f s) as [E' | E'].
      * apply IH. congruence.
      * rewrite E, E' in Hm. injection Hm as <-.
        cbn [Event_whole] in He.
        destruct (draw_canvasSize_ge_1 f He) as [HW HH].
        assert (Hv : 0 <= videoWidth f /\ 0 <= videoHeight f).
        { unfold FrameEnv_whole in He.
          do 5 (apply andb_true_iff in He as [He ?]).
          split; apply whole_px_nonneg; assumption. }
        destruct Hv as [Hvw Hvh].
        set (W := fst (draw_canvasSize f)) in *.
        set (H := snd (draw_canvasSize f)) in *.
        destruct (draw_mapping_bounds W H (videoWidth f) (videoHeight f)
                    (OverlayMode_eqb (overlayRef s) face))
          as (Hs & Cw & Ch & Fx1 & Fx2 & Fy1 & Fy2); try lra; try assumption.
        cbv zeta in Cw, Ch, Fx1, Fx2, Fy1, Fy2.
        set (m := draw_mapping W H (videoWidth f) (videoHeight f)
                    (OverlayMode_eqb (overlayRef s) face)) in *.
        change (Mapping_covers m). unfold Mapping_covers.
        change (cW m) with W in *. change (cH m) with H in *.
        assert (Pw : 0 < vw m)
          by (change (vw m) with (JS.or_else (videoWidth f) 1440);
              apply or_else_pos; lra).
        assert (Ph : 0 < vh m)
          by (change (vh m) with (JS.or_else (videoHeight f) 2560);
              apply or_else_pos; lra).
        repeat split; try assumption; lra.
  - intros m. unfold mount. cbv zeta. destruct (isOpen p); discriminate.
Qed.

Lemma mappingRef_covers_witness :
  Mapping_covers
    (draw_mapping 1125 2001 1440 2560 true).
Proof.
  apply (mappingRef_covers demo_props true
           [StartSettled true; FaceModelsLoaded; AnimationFrame demo_frame]).
  - reflexivity.
  - reflexivity.
Defined.

(** ** The card branch of the detection tick *)

(** X24: which detector decides the card flag.  In a card tick, with [rv]
    the video rectangle of the card guide: when the engine is ready and the
    contour detector completes, its answer is stored and the heuristic
    detector is not consulted; in every other case (loading the engine
    failed, the engine is not ready, or the contour detector threw) the
    answer of the heuristic detector on [rv] is stored, and the flag keeps
    its old value only when the heuristic detector throws as well.  The
    engine's objects are those the contour detector left, or untouched when
    it did not run.  Without a 2D context the flag is set to false. *)
Theorem detectionTick_card_fallback o map s :
  let rv := detectionTick_cardRoi map in
  let heuristic := estimateCardHeuristic (canvas2d s) (grab o rv) in
  let contour := estimateCardOpenCV (engine o rv) (canvas2d s) (cv_heap s) in
  let fallback := match heuristic with Ok b => b | Throw => cardOkRef s end in
  let s' := detectionTick_card o map s in
  (ensureOpenCV o = Ok tt -> isOpenCVReady o = true ->
   cv_heap s' = fst contour /\
   cardOkRef s' = match snd contour with Ok b => b | Throw => fallback end) /\
  (ensureOpenCV o = Throw \/ isOpenCVReady o = false ->
   cv_heap s' = cv_heap s /\ cardOkRef s' = fallback) /\
  (canvas2d s = false -> cardOkRef s' = false).
Proof.
  cbv zeta. unfold detectionTick_card, card_attempts, detectionTick_cardRoi.
  cbv zeta.
  set (rv := canvasRectToVideoRect (cardOverlayRectCanvas (cW map) (cH map)) map).
  split; [| split].
  - intros -> ->.
    destruct (estimateCardOpenCV (engine o rv) (canvas2d s) (cv_heap s))
      as [h [b |]]; cbn [fst snd].
    + split; reflexivity.
    + destruct (estimateCardHeuristic (canvas2d s) (grab o rv));
        split; reflexivity.
  - intros [-> | Hr].
    + cbn [fst snd].
      destruct (estimateCardHeuristic (canvas2d s) (grab o rv));
        split; reflexivity.
    + rewrite Hr. destruct (ensureOpenCV o) as [[] |]; cbn [fst snd];
        destruct (estimateCardHeuristic (canvas2d s) (grab o rv));
        split; reflexivity.
  - intros Hctx. rewrite Hctx.
    unfold estimateCardOpenCV, estimateCardHeuristic. cbn [negb].
    destruct (ensureOpenCV o) as [[] |]; cbn [fst snd];
      [destruct (isOpenCVReady o);
       [destruct (negb (cv_present (engine o rv))) |] |];
      reflexivity.
Qed.

(** ** The mode ref follows the mode state *)

Lemma detectionTick_synced f o s :
  overlayRef s = overlay s ->
  overlayRef (detectionTick f o s) = overlay (detectionTick f o s).
Proof.
  intros Hs. unfold detectionTick.
  destruct (negb (isOpen (props s))); [exact Hs |].
  destruct (mappingRef s) as [map |]; [| exact Hs].
  set (s1 := match overlayRef s with
             | face => if faceModelsLoadedRef s
                       then detectionTick_face o map s else s
             | card => detectionTick_card o map s
             end).
  assert (H1 : overlayRef s1 = overlay s1).
  { subst s1. destruct (overlayRef s) eqn:E.
    - destruct (faceModelsLoadedRef s); [| congruence].
      unfold detectionTick_face.
      destruct (detectSingleFace o) as [[b |] |];
        [destruct (canvas2d _) | |];
        change (overlayRef s = overlay s); congruence.
    - unfold detectionTick_card.
      destruct (card_attempts o map s) as [h [b |]];
        change (overlayRef s = overlay s); congruence. }
  unfold detectionTick_autoCapture.
  destruct (tc_autoCapture f && negb (tc_capturePending f)); [| exact H1].
  destruct (ok_flag s1); [reflexivity | exact H1].
Qed.

(** After every step of a session the mode ref holds the mode state: the
    effect [overlayRef.current = overlay] has run. *)
Lemma overlayRef_synced p ctx es :
  overlayRef (run (mount p ctx) es) = overlay (run (mount p ctx) es).
Proof.
  apply (run_ind (fun s => overlayRef s = overlay s) (fun _ => true)).
  - intros s e _ Hs.
    destruct e as [p' | ok | | fr | o | | | m |]; cbn [step].
    + unfold parentRender. cbv zeta. repeat break_match; reflexivity.
    + unfold start_settled, onPlaying. cbv zeta.
      repeat break_match; reflexivity || exact Hs.
    + exact Hs.
    + unfold draw. cbv zeta. repeat break_match; exact Hs.
    + unfold period. cbv zeta.
      assert (H : overlayRef (fire_due (now s + tick_period)%Z s)
                  = overlay (fire_due (now s + tick_period)%Z s)).
      { apply (fire_due_ind (fun s0 => overlayRef s0 = overlay s0));
          [auto | | exact Hs].
        intros s0 d _. reflexivity. }
      destruct (detectionTimerRef _) as [f |];
        [apply detectionTick_synced |]; exact H.
    + destruct (isOpen (props s)); [reflexivity | exact Hs].
    + unfold capture. repeat break_match; exact Hs.
    + destruct (isOpen (props s)); [reflexivity | exact Hs].
    + unfold start_play_rejected. cbv zeta.
      repeat break_match; reflexivity || exact Hs.
  - apply forallb_true.
  - unfold mount. cbv zeta. destruct (isOpen p); reflexivity.
Qed.
